(** * Header-chain ingestion: [eth/stagedsync/stage_headers.go]

    A shallow embedding of [VerifyHeaders], [InsertHeaderChain] and the
    ancestor-request branch of [verifyHeaders], with the properties of the
    header store, the fork choice and the seal bitmap that the
    specification states about them.  The second part has further
    properties of the stage, of the coordinator loop and of
    [NotifyNewHeaders], and of the block multi-iterator of the Otterscan
    search. *)

From Stdlib Require Import ZArith List Lia Bool.
From stdpp Require Import base option list gmap.
Import ListNotations.

Local Open Scope Z_scope.

(** ** Machine integers *)

Definition two64 : Z := 2 ^ 64.
Definition two63 : Z := 2 ^ 63.

(** [uint64] arithmetic wraps around modulo 2^64. *)
Definition u64 (z : Z) : Z := z mod two64.

(** Conversion to Go's [int] (64-bit, two's complement), as in [int(x)]. *)
Definition int64 (z : Z) : Z := (z + two63) mod two64 - two63.

(** ** Data *)

(** [common.Hash]: 32 bytes, read as a number; [common.Hash{}] is zero. *)
Definition Hash : Type := N.
Definition zeroHash : Hash := 0%N.

(** [types.Header], with the fields the stage reads.  [Number] and
    [Difficulty] are [*big.Int]; [HashCache] is the cached digest. *)
Record Header : Type := mkHeader {
  ParentHash : Hash;
  Number : Z;
  Difficulty : Z;
  Time : Z;
  HashCache : Hash
}.

(** [h.Number.Uint64()]: the low 64 bits. *)
Definition NumberU64 (h : Header) : Z := u64 (Number h).

(** The error kinds the stage returns. *)
Inductive Error : Type :=
| ErrBlacklistedHash
| ErrUnknownParent
| ErrBrokenChain
| ErrStoreIO.

(** The store operations that return an [error] in the source. *)
Inductive IOp : Type :=
| IoReadCanonicalHash (number : Z)
| IoReadTd (hash : Hash) (number : Z)
| IoWriteCanonicalHash (hash : Hash) (number : Z)
| IoWriteTd (hash : Hash) (number : Z)
| IoEncodeHeader (hash : Hash)
| IoPutHeader (number : Z) (hash : Hash)
| IoDeleteCanonicalHash (number : Z)
| IoPutHeaderNumber (hash : Hash)
| IoWriteHeadHeaderHash (hash : Hash)
| IoCommit.

(** The logical tables of the header store. *)
Record DB : Type := mkDB {
  db_headers : gmap (Z * Hash) Header;
  db_td : gmap (Z * Hash) Z;
  db_canonical : gmap Z Hash;
  db_headerNumber : gmap Hash Z;
  db_headHash : option Hash
}.

(** A write recorded in a batch. *)
Inductive BatchOp : Type :=
| OpWriteCanonicalHash (hash : Hash) (number : Z)
| OpWriteTd (hash : Hash) (number : Z) (td : Z)
| OpPutHeader (number : Z) (hash : Hash) (header : Header)
| OpDeleteCanonicalHash (number : Z)
| OpPutHeaderNumber (hash : Hash) (number : Z)
| OpWriteHeadHeaderHash (hash : Hash).

(** [db.NewBatch()]: reads through the batch see its own writes; [b_view]
    is the store as the batch sees it, [b_ops] the writes in program order. *)
Record Batch : Type := mkBatch {
  b_view : DB;
  b_ops : list BatchOp
}.

Definition NewBatch (db : DB) : Batch := mkBatch db [].

Definition setCanonical (db : DB) (number : Z) (hash : Hash) : DB :=
  mkDB (db_headers db) (db_td db) (<[number := hash]> (db_canonical db))
       (db_headerNumber db) (db_headHash db).

Definition setTd (db : DB) (number : Z) (hash : Hash) (td : Z) : DB :=
  mkDB (db_headers db) (<[(number, hash) := td]> (db_td db)) (db_canonical db)
       (db_headerNumber db) (db_headHash db).

Definition setHeader (db : DB) (number : Z) (hash : Hash) (h : Header) : DB :=
  mkDB (<[(number, hash) := h]> (db_headers db)) (db_td db) (db_canonical db)
       (db_headerNumber db) (db_headHash db).

Definition delCanonical (db : DB) (number : Z) : DB :=
  mkDB (db_headers db) (db_td db) (delete number (db_canonical db))
       (db_headerNumber db) (db_headHash db).

Definition setHeaderNumber (db : DB) (hash : Hash) (number : Z) : DB :=
  mkDB (db_headers db) (db_td db) (db_canonical db)
       (<[hash := number]> (db_headerNumber db)) (db_headHash db).

Definition setHeadHash (db : DB) (hash : Hash) : DB :=
  mkDB (db_headers db) (db_td db) (db_canonical db)
       (db_headerNumber db) (Some hash).

Definition record (b : Batch) (view : DB) (op : BatchOp) : Batch :=
  mkBatch view (b_ops b ++ [op]).

(** What [InsertHeaderChain] hands back: the four Go results. *)
Record Result : Type := mkResult {
  newCanonical : bool;
  reorg : bool;
  forkBlockNumber : Z;
  err : option Error
}.

(** What a call leaves behind besides its results: the writes committed and
    the [ignored] count it logs. *)
Record Effects : Type := mkEffects {
  committed : list BatchOp;
  ignored : nat
}.

Definition noEffects : Effects := mkEffects [] 0%nat.

(** A call returns, dereferences nil, or is still looping when the fuel
    given to its unbounded loops is spent. *)
Inductive Outcome : Type :=
| Returns (r : Result) (db' : DB) (eff : Effects)
| Panics
| OutOfFuel.

(** ** [VerifyHeaders]: the seal bitmap (lines 80-97) *)

(** [seals[index] = true]; Go panics when the index is out of range. *)
Definition setSeal (seals : list bool) (index : Z) : option (list bool) :=
  if (0 <=? index) && (index <? Z.of_nat (length seals))
  then Some (<[Z.to_nat index := true]> seals)
  else None.

(** The loop [for i := 0; i < len(seals)/checkFreq; i++]; [n] bounds the
    iterations left. *)
Fixpoint sealLoop (n : nat) (i checkFreq : Z) (seals : list bool)
  : option (list bool) :=
  match n with
  | O => Some seals
  | S n' =>
      if i <? Z.quot (Z.of_nat (length seals)) checkFreq then
        let index := i * checkFreq in
        let index := if index >=? Z.of_nat (length seals)
                     then Z.of_nat (length seals) - 1 else index in
        match setSeal seals index with
        | Some seals' => sealLoop n' (i + 1) checkFreq seals'
        | None => None
        end
      else Some seals
  end.

(** The bitmap [VerifyHeaders] passes on for [len] headers; [None] is the
    index-out-of-range panic. *)
Definition VerifyHeaders_seals (len : nat) (checkFreq : Z) : option (list bool) :=
  let seals := replicate len false in
  if checkFreq =? 0 then Some seals
  else
    match sealLoop (S len) 0 checkFreq seals with
    | Some seals' => setSeal seals' (Z.of_nat (length seals') - 1)
    | None => None
    end.

(** ** The store, as [core/rawdb] reads and writes it *)

Section Stage.

(** [core.BadHashes], the configured ban set. *)
Variable BadHashes : Hash -> bool.

(** Which store operations fail with an I/O error. *)
Variable fault : IOp -> bool.

(** The draw [rand.Float64() < 0.5] of the tie-break. *)
Variable coin : bool.

(** Modelled from the spec: [rawdb.ReadCanonicalHash], the [read_canonical]
    of section 4.1; its Go result is a hash and an error, the hash being
    [common.Hash{}] when the number has no canonical pointer. *)
Definition ReadCanonicalHash (db : DB) (number : Z) : Hash * option Error :=
  if fault (IoReadCanonicalHash number) then (zeroHash, Some ErrStoreIO)
  else (default zeroHash (db_canonical db !! number), None).

(** Modelled from the spec: [rawdb.ReadHeader], the [read_header] of section
    4.1; nil when absent. *)
Definition ReadHeader (db : DB) (hash : Hash) (number : Z) : option Header :=
  db_headers db !! (number, hash).

(** Modelled from the spec: [rawdb.ReadTd], the [read_td] of section 4.1; its
    Go result is a [*big.Int] (nil when absent) and an error. *)
Definition ReadTd (db : DB) (hash : Hash) (number : Z) : option Z * option Error :=
  if fault (IoReadTd hash number) then (None, Some ErrStoreIO)
  else (db_td db !! (number, hash), None).

(** Modelled from the spec: [rawdb.ReadHeadHeaderHash], the [read_head_hash]
    of section 4.1. *)
Definition ReadHeadHeaderHash (db : DB) : Hash :=
  default zeroHash (db_headHash db).

(** Modelled from the spec: [rawdb.ReadHeaderNumber], the
    [read_header_number] of section 4.1; a [*uint64], nil when absent. *)
Definition ReadHeaderNumber (db : DB) (hash : Hash) : option Z :=
  u64 <$> db_headerNumber db !! hash.

(** Modelled from the spec: [rawdb.WriteCanonicalHash], the [write_canonical]
    of a batch. *)
Definition WriteCanonicalHash (b : Batch) (hash : Hash) (number : Z)
  : Batch * option Error :=
  if fault (IoWriteCanonicalHash hash number) then (b, Some ErrStoreIO)
  else (record b (setCanonical (b_view b) number hash)
               (OpWriteCanonicalHash hash number), None).

(** Modelled from the spec: [rawdb.WriteTd], the [write_td] of a batch. *)
Definition WriteTd (b : Batch) (hash : Hash) (number : Z) (td : Z)
  : Batch * option Error :=
  if fault (IoWriteTd hash number) then (b, Some ErrStoreIO)
  else (record b (setTd (b_view b) number hash td) (OpWriteTd hash number td), None).

(** Modelled from the spec: [batch.Put] on the headers table under
    [HeaderKey(number, hash)], the [write_header] of a batch. *)
Definition PutHeader (b : Batch) (number : Z) (hash : Hash) (h : Header)
  : Batch * option Error :=
  if fault (IoPutHeader number hash) then (b, Some ErrStoreIO)
  else (record b (setHeader (b_view b) number hash h) (OpPutHeader number hash h), None).

(** Modelled from the spec: [rawdb.DeleteCanonicalHash], the
    [delete_canonical] of a batch. *)
Definition DeleteCanonicalHash (b : Batch) (number : Z) : Batch * option Error :=
  if fault (IoDeleteCanonicalHash number) then (b, Some ErrStoreIO)
  else (record b (delCanonical (b_view b) number) (OpDeleteCanonicalHash number), None).

(** Modelled from the spec: [batch.Put] on the hash-to-number table, the
    [write_hash_to_number] of a batch. *)
Definition PutHeaderNumber (b : Batch) (hash : Hash) (number : Z)
  : Batch * option Error :=
  if fault (IoPutHeaderNumber hash) then (b, Some ErrStoreIO)
  else (record b (setHeaderNumber (b_view b) hash number)
               (OpPutHeaderNumber hash number), None).

(** Modelled from the spec: [rawdb.WriteHeadHeaderHash], the
    [write_head_hash] of a batch. *)
Definition WriteHeadHeaderHash (b : Batch) (hash : Hash) : Batch * option Error :=
  if fault (IoWriteHeadHeaderHash hash) then (b, Some ErrStoreIO)
  else (record b (setHeadHash (b_view b) hash) (OpWriteHeadHeaderHash hash), None).

(** Modelled from the spec: [batch.Commit], all or nothing. *)
Definition Commit (b : Batch) : option Error :=
  if fault IoCommit then Some ErrStoreIO else None.

(** [rlp.EncodeToBytes(header)]: only its failure is visible here. *)
Definition EncodeToBytes (h : Header) : option Error :=
  if fault (IoEncodeHeader (HashCache h)) then Some ErrStoreIO else None.

(** ** [InsertHeaderChain] (lines 99-290) *)

(** Lines 102-128: count the headers that are already canonical; the ban
    check sits after the [break]. *)
Fixpoint skipCanonical (db : DB) (headers : list Header) (alreadyCanonicalIndex : nat)
  : nat + Result :=
  match headers with
  | [] => inl alreadyCanonicalIndex
  | h :: rest =>
      let number := NumberU64 h in
      match ReadCanonicalHash db number with
      | (_, Some e) => inr (mkResult false false 0 (Some e))
      | (ch, None) =>
          if N.eqb (HashCache h) ch then
            if BadHashes (HashCache h)
            then inr (mkResult false false 0 (Some ErrBlacklistedHash))
            else skipCanonical db rest (S alreadyCanonicalIndex)
          else inl alreadyCanonicalIndex
      end
  end.

(** Lines 141-149: check the links and add up the difficulties; [prev] is
    [headers[i-1]], absent at [i = 0]. *)
Fixpoint sumChain (prev : option Header) (headers : list Header) (externTd : Z)
  : Z + Result :=
  match headers with
  | [] => inl externTd
  | header :: rest =>
      match prev with
      | Some p =>
          if negb (N.eqb (ParentHash header) (HashCache p))
          then inr (mkResult false false 0 (Some ErrBrokenChain))
          else sumChain (Some header) rest (externTd + Difficulty header)
      | None => sumChain (Some header) rest (externTd + Difficulty header)
      end
  end.

(** Lines 160-169: the fork choice. *)
Definition forkChoice (externTd localTd lastNumber headNumber : Z) : bool :=
  let newCanonical := externTd >? localTd in
  if negb newCanonical && (externTd =? localTd) then
    if lastNumber <? headNumber then true
    else if lastNumber =? headNumber then coin
    else newCanonical
  else newCanonical.

(** The variables the write loop carries from one header to the next. *)
Record LoopState : Type := mkLoop {
  l_td : Z;
  l_forkBlockNumber : Z;
  l_fork : bool;
  l_ignored : nat;
  l_batch : Batch
}.

(** Lines 185-223: the write loop. *)
Fixpoint writeHeaders (newCanonical deepFork : bool) (headers : list Header)
  (st : LoopState) : LoopState + Result :=
  match headers with
  | [] => inl st
  | header :: rest =>
      let td := l_td st + Difficulty header in
      if negb newCanonical
         && bool_decide (ReadHeaderNumber (b_view (l_batch st)) (HashCache header) <> None)
      then writeHeaders newCanonical deepFork rest
             (mkLoop td (l_forkBlockNumber st) (l_fork st) (S (l_ignored st)) (l_batch st))
      else
        let number := NumberU64 header in
        match ReadCanonicalHash (b_view (l_batch st)) number with
        | (_, Some e) => inr (mkResult false false 0 (Some e))
        | (ch, None) =>
            let hashesMatch := N.eqb (HashCache header) ch in
            let '(forkBlockNumber, fork) :=
              if newCanonical && negb deepFork && negb (l_fork st) && negb hashesMatch
              then (u64 (number - 1), true)
              else if newCanonical && hashesMatch then (number, true)
              else (l_forkBlockNumber st, l_fork st) in
            match (if newCanonical
                   then WriteCanonicalHash (l_batch st) (HashCache header) (NumberU64 header)
                   else (l_batch st, None)) with
            | (_, Some e) => inr (mkResult false false 0 (Some e))
            | (batch1, None) =>
                match EncodeToBytes header with
                | Some e => inr (mkResult false false 0 (Some e))
                | None =>
                    match WriteTd batch1 (HashCache header) (NumberU64 header) td with
                    | (_, Some e) => inr (mkResult false false 0 (Some e))
                    | (batch2, None) =>
                        match PutHeader batch2 number (HashCache header) header with
                        | (_, Some e) => inr (mkResult false false 0 (Some e))
                        | (batch3, None) =>
                            writeHeaders newCanonical deepFork rest
                              (mkLoop td forkBlockNumber fork (l_ignored st) batch3)
                        end
                    end
                end
            end
        end
  end.

(** What the deep-fork walk ends in. *)
Inductive WalkEnd : Type :=
| WalkDone (forkBlockNumber : Z) (batch : Batch)
| WalkReturn (r : Result)
| WalkPanic
| WalkOutOfFuel.

(** Lines 228-243: walk back until the canonical pointer agrees. *)
Fixpoint forkWalk (fuel : nat) (batch : Batch) (forkBlockNumber : Z) (forkHash : Hash)
  : WalkEnd :=
  match fuel with
  | O => WalkOutOfFuel
  | S fuel' =>
      match ReadCanonicalHash (b_view batch) forkBlockNumber with
      | (_, Some e) => WalkReturn (mkResult false false 0 (Some e))
      | (ch, None) =>
          if N.eqb forkHash ch then WalkDone forkBlockNumber batch
          else
            match WriteCanonicalHash batch forkHash forkBlockNumber with
            | (_, Some e) => WalkReturn (mkResult false false 0 (Some e))
            | (batch1, None) =>
                match ReadHeader (b_view batch1) forkHash forkBlockNumber with
                | None => WalkPanic
                | Some forkHeader =>
                    forkWalk fuel' batch1 (u64 (NumberU64 forkHeader - 1))
                             (ParentHash forkHeader)
                end
            end
      end
  end.

(** Lines 224-247: deep-fork reconciliation. *)
Definition deepForkFix (fuel : nat) (batch : Batch) (first : Header) : WalkEnd :=
  match ReadHeader (b_view batch) (ParentHash first) (u64 (NumberU64 first - 1)) with
  | None => WalkPanic
  | Some forkHeader =>
      match forkWalk fuel batch (u64 (NumberU64 forkHeader - 1)) (ParentHash forkHeader) with
      | WalkDone forkBlockNumber batch1 =>
          match WriteCanonicalHash batch1 (ParentHash first) (u64 (NumberU64 first - 1)) with
          | (_, Some e) => WalkReturn (mkResult false false 0 (Some e))
          | (batch2, None) => WalkDone forkBlockNumber batch2
          end
      | other => other
      end
  end.

(** What the cleanup loop ends in. *)
Inductive CleanEnd : Type :=
| CleanDone (batch : Batch)
| CleanReturn (r : Result)
| CleanOutOfFuel.

(** Lines 251-255: [for i := last+1; i <= *headNumber; i++], on [uint64]. *)
Fixpoint deleteAbove (fuel : nat) (batch : Batch) (i headNumber : Z) : CleanEnd :=
  match fuel with
  | O => CleanOutOfFuel
  | S fuel' =>
      if i <=? headNumber then
        match DeleteCanonicalHash batch i with
        | (_, Some e) => CleanReturn (mkResult false false 0 (Some e))
        | (batch1, None) => deleteAbove fuel' batch1 (u64 (i + 1)) headNumber
        end
      else CleanDone batch
  end.

(** Lines 257-265: record the new head. *)
Definition writeHead (batch : Batch) (lastHeader : Header) : Batch + Result :=
  match PutHeaderNumber batch (HashCache lastHeader) (NumberU64 lastHeader) with
  | (_, Some e) => inr (mkResult false false 0 (Some e))
  | (batch1, None) =>
      match WriteHeadHeaderHash batch1 (HashCache lastHeader) with
      | (_, Some e) => inr (mkResult false false 0 (Some e))
      | (batch2, None) => inl batch2
      end
  end.

(** [InsertHeaderChain]; the log prefix and the verification time only reach
    the log.  [fuel] bounds the iterations of the deep-fork walk and of the
    cleanup loop. *)
Definition InsertHeaderChain (fuel : nat) (db : DB) (headers : list Header) : Outcome :=
  match skipCanonical db headers 0 with
  | inr r => Returns r db noEffects
  | inl alreadyCanonicalIndex =>
  let headers := drop alreadyCanonicalIndex headers in
  match headers with
  | [] => Returns (mkResult false false 0 None) db noEffects
  | first :: _ =>
  let parentNumber := u64 (NumberU64 first - 1) in
  match ReadHeader db (ParentHash first) parentNumber with
  | None => Returns (mkResult false false 0 (Some ErrUnknownParent)) db noEffects
  | Some _ =>
  match ReadTd db (ParentHash first) parentNumber with
  | (_, Some e) => Returns (mkResult false false 0 (Some e)) db noEffects
  | (None, None) => Panics
  | (Some parentTd, None) =>
  match sumChain None headers parentTd with
  | inr r => Returns r db noEffects
  | inl externTd =>
  let headHash := ReadHeadHeaderHash db in
  match ReadHeaderNumber db headHash with
  | None => Panics
  | Some headNumber =>
  match ReadTd db headHash headNumber with
  | (_, Some e) => Returns (mkResult false false 0 (Some e)) db noEffects
  | (None, None) => Panics
  | (Some localTd, None) =>
  let lastHeader := List.last headers first in
  let newCanonical := forkChoice externTd localTd (NumberU64 lastHeader) headNumber in
  match ReadCanonicalHash db parentNumber with
  | (_, Some e) => Returns (mkResult false false 0 (Some e)) db noEffects
  | (ch, None) =>
  let deepFork := newCanonical && negb (N.eqb (ParentHash first) ch) in
  let batch := NewBatch db in
  match writeHeaders newCanonical deepFork headers (mkLoop parentTd 0 false 0 batch) with
  | inr r => Returns r db noEffects
  | inl st =>
  match (if deepFork then deepForkFix fuel (l_batch st) first
         else WalkDone (l_forkBlockNumber st) (l_batch st)) with
  | WalkReturn r => Returns r db noEffects
  | WalkPanic => Panics
  | WalkOutOfFuel => OutOfFuel
  | WalkDone forkBlockNumber batch1 =>
  let reorg := newCanonical && (forkBlockNumber <? headNumber) in
  match (if reorg
         then deleteAbove fuel batch1 (u64 (NumberU64 lastHeader + 1)) headNumber
         else CleanDone batch1) with
  | CleanReturn r => Returns r db noEffects
  | CleanOutOfFuel => OutOfFuel
  | CleanDone batch2 =>
  match (if newCanonical then writeHead batch2 lastHeader else inl batch2) with
  | inr r => Returns r db noEffects
  | inl batch3 =>
  match Commit batch3 with
  | Some e => Returns (mkResult false false 0 (Some e)) db noEffects
  | None =>
      Returns (mkResult newCanonical reorg forkBlockNumber None)
              (b_view batch3) (mkEffects (b_ops batch3) (l_ignored st))
  end end end end end end end end end end end end end.

End Stage.

(** ** [verifyHeaders]: answering an ancestor request (lines 353-399) *)

(** [consensus.HeaderRequest]. *)
Record HeaderRequest : Type := mkHeaderRequest {
  req_ID : Z;
  req_HighestHash : Hash;
  req_HighestBlockNumber : Z;
  req_Number : Z
}.

(** [consensus.BlockError]; [be_Err] is nil in the zero value. *)
Record BlockError : Type := mkBlockError {
  be_Hash : Hash;
  be_Number : Z;
  be_Err : option Error
}.

(** [consensus.HeaderResponse]. *)
Record HeaderResponse : Type := mkHeaderResponse {
  resp_ID : Z;
  resp_Headers : list Header;
  resp_BlockError : BlockError
}.

(** Where the ancestor loop stops: the headers appended so far, the hash and
    the number it was about to read, and the error it broke out with. *)
Record WalkBack : Type := mkWalkBack {
  wb_headers : list Header;
  wb_parentHash : Hash;
  wb_parentNumber : Z;
  wb_err : option Error
}.

(** Lines 370-383: [for parentNumber = ...; parentNumber >= lower; parentNumber--],
    on Go's [int]; [None] when the fuel is spent. *)
Fixpoint walkBack (fuel : nat) (db : DB) (lower : Z) (parentNumber : Z)
  (parentHash : Hash) (headers : list Header) : option WalkBack :=
  match fuel with
  | O => None
  | S fuel' =>
      if parentNumber >=? lower then
        match ReadHeader db parentHash (u64 parentNumber) with
        | None => Some (mkWalkBack headers parentHash parentNumber (Some ErrUnknownParent))
        | Some h =>
            walkBack fuel' db lower (int64 (parentNumber - 1)) (ParentHash h) (headers ++ [h])
        end
      else Some (mkWalkBack headers parentHash parentNumber None)
  end.

(** How the branch ends: a response on the channel, the panic of [make] on a
    capacity out of range, or fuel spent. *)
Inductive Answer : Type :=
| Responds (resp : HeaderResponse)
| AnswerPanics
| AnswerOutOfFuel.

(** [runtime.maxAlloc], the most bytes an allocation may ask for, on the
    64-bit platforms with 48 address bits that [int64] above stands for, and
    the size of a [*types.Header]. *)
Definition maxAlloc : Z := 2 ^ 48.
Definition ptrSize : Z := 8.

(** [make([]*types.Header, 0, length)] panics ([makeslice: cap out of
    range]) when the capacity is negative or its bytes exceed
    [maxAlloc]. *)
Definition capOutOfRange (length : Z) : bool :=
  (length <? 0) || (maxAlloc <? length * ptrSize).

(** The [case result := <-engine.HeaderRequest()] branch; the request tally
    is a debug counter and is left out.  The capacity is taken from
    [result.Number] before the clamp. *)
Definition answerHeaderRequest (fuel : nat) (db : DB) (result : HeaderRequest) : Answer :=
  let length := if req_Number result >? 0 then int64 (req_Number result) else 1 in
  if capOutOfRange length then AnswerPanics
  else
    let number :=
      if u64 (req_HighestBlockNumber result + 1) <? req_Number result
      then u64 (req_HighestBlockNumber result + 1)
      else req_Number result in
    let lower := int64 (int64 (u64 (req_HighestBlockNumber result + 1)) - int64 number) in
    match walkBack fuel db lower (int64 (req_HighestBlockNumber result))
                   (req_HighestHash result) [] with
    | None => AnswerOutOfFuel
    | Some wb =>
        match wb_err wb with
        | None =>
            Responds (mkHeaderResponse (req_ID result) (wb_headers wb)
                        (mkBlockError zeroHash 0 None))
        | Some e =>
            Responds (mkHeaderResponse (req_ID result) []
                        (mkBlockError (wb_parentHash wb)
                           (u64 (int64 (wb_parentNumber wb + 1))) (Some e)))
        end
    end.

(** ** [ChainReader] (lines 36-78) *)

(** [CurrentHeader]: the header under the head hash; the outer [None] is the
    dereference of a nil [*uint64] when the head hash has no number. *)
Definition CurrentHeader (db : DB) : option (option Header) :=
  let hash := ReadHeadHeaderHash db in
  match ReadHeaderNumber db hash with
  | None => None
  | Some number => Some (ReadHeader db hash number)
  end.

(** [GetHeader]. *)
Definition GetHeader (db : DB) (hash : Hash) (number : Z) : option Header :=
  ReadHeader db hash number.

(** [GetHeaderByNumber]: nil when the canonical hash cannot be read. *)
Definition GetHeaderByNumber (fault : IOp -> bool) (db : DB) (number : Z)
  : option Header :=
  match ReadCanonicalHash fault db number with
  | (_, Some _) => None
  | (hash, None) => ReadHeader db hash number
  end.

(** [GetHeaderByHash]; the outer [None] is the nil dereference, as in
    [CurrentHeader]. *)
Definition GetHeaderByHash (db : DB) (hash : Hash) : option (option Header) :=
  match ReadHeaderNumber db hash with
  | None => None
  | Some number => Some (ReadHeader db hash number)
  end.

(** ** [verifyHeaders]: the coordinator loop (lines 327-402) *)

(** The error an engine reports for a header. *)
Definition EngineError : Type := Z.

(** What the two inbound channels deliver, in the order the [select] takes
    them: a [consensus.VerifyHeaderResponse] or a header request. *)
Inductive EngineEvent : Type :=
| VerifyResult (hash : Hash) (err : option EngineError)
| HeaderRequested (req : HeaderRequest).

(** How the coordinator ends: it returns, with the responses it sent and the
    events it did not read; it is left waiting in the [select] when the
    events run out; or answering a request panics or runs out of fuel. *)
Inductive VerifyEnd : Type :=
| VerifyReturns (err : option EngineError) (responses : list HeaderResponse)
                (unread : list EngineEvent)
| VerifyWaits (responses : list HeaderResponse)
| VerifyPanics
| VerifyOutOfFuel.

(** Lines 337-401: the [for { select ... }] loop; [reqResponses] is the set
    of hashes seen, [responses] what went out on [HeaderResponse()]. *)
Fixpoint verifyLoop (fuel : nat) (db : DB) (toVerify : nat)
  (reqResponses : gset Hash) (responses : list HeaderResponse)
  (events : list EngineEvent) : VerifyEnd :=
  match events with
  | [] => VerifyWaits responses
  | VerifyResult hash (Some e) :: rest => VerifyReturns (Some e) responses rest
  | VerifyResult hash None :: rest =>
      if decide (hash ∈ reqResponses)
      then verifyLoop fuel db toVerify reqResponses responses rest
      else
        let reqResponses' := {[ hash ]} ∪ reqResponses in
        if decide (size reqResponses' = toVerify)
        then VerifyReturns None responses rest
        else verifyLoop fuel db toVerify reqResponses' responses rest
  | HeaderRequested req :: rest =>
      match answerHeaderRequest fuel db req with
      | Responds resp =>
          verifyLoop fuel db toVerify reqResponses (responses ++ [resp]) rest
      | AnswerPanics => VerifyPanics
      | AnswerOutOfFuel => VerifyOutOfFuel
      end
  end.

(** [verifyHeaders]: nothing to verify returns at once; otherwise the
    request with the headers and the seals goes to the engine and the loop
    runs. *)
Definition verifyHeaders (fuel : nat) (db : DB) (headers : list Header)
  (seals : list bool) (events : list EngineEvent) : VerifyEnd :=
  let toVerify := length headers in
  if Nat.eqb toVerify 0 then VerifyReturns None [] events
  else verifyLoop fuel db toVerify ∅ [] events.

(** [VerifyHeaders] (lines 80-97): the bitmap, then [verifyHeaders]. *)
Definition VerifyHeaders (fuel : nat) (db : DB) (headers : list Header)
  (checkFreq : Z) (events : list EngineEvent) : VerifyEnd :=
  match VerifyHeaders_seals (length headers) checkFreq with
  | None => VerifyPanics
  | Some seals => verifyHeaders fuel db headers seals events
  end.

(** ** [NotifyNewHeaders] *)

(** Modelled from the spec: [rawdb.ReadHeaderByNumber], the canonical header
    at a number (section 4.4), read as [GetHeaderByNumber] reads it. *)
Definition ReadHeaderByNumber (fault : IOp -> bool) (db : DB) (number : Z)
  : option Header :=
  GetHeaderByNumber fault db number.

(** How the notification ends: it returns, with the number it found no
    canonical header for (if any) and the headers handed to the notifier, in
    order; or the loop is still running when the fuel is spent. *)
Inductive NotifyEnd : Type :=
| NotifyReturns (missing : option Z) (delivered : list Header)
| NotifyOutOfFuel.

(** The loop [for i := from; i <= to; i++] on [uint64]. *)
Fixpoint notifyLoop (fuel : nat) (fault : IOp -> bool) (db : DB) (i to : Z)
  (delivered : list Header) : NotifyEnd :=
  match fuel with
  | O => NotifyOutOfFuel
  | S fuel' =>
      if i <=? to then
        match ReadHeaderByNumber fault db i with
        | None => NotifyReturns (Some i) delivered
        | Some header => notifyLoop fuel' fault db (u64 (i + 1)) to (delivered ++ [header])
        end
      else NotifyReturns None delivered
  end.

(** [NotifyNewHeaders]; [notifier] tells whether one is registered. *)
Definition NotifyNewHeaders (fuel : nat) (fault : IOp -> bool) (db : DB)
  (from to : Z) (notifier : bool) : NotifyEnd :=
  if negb notifier then NotifyReturns None []
  else notifyLoop fuel fault db from to [].

(** ** [newMultiIterator]: two block iterators merged (Otterscan search,
       [esitmated_ram.go] lines 423-469) *)

(** What a call of an iterator returns: the block number, whether the
    iterator has ended, and an error. *)
Definition IterResult : Type := Z * bool * option Error.

Section MultiIterator.

(** The iterators are closures over database cursors: here a state, and a
    call that gives a result and the state it leaves. *)
Variables SF ST : Type.
Variable fromIter : SF -> IterResult * SF.
Variable toIter : ST -> IterResult * ST.

(** The variables the returned closure captures, with the states of the two
    iterators. *)
Record MultiIter : Type := mkMultiIter {
  nextFrom : Z;
  fromEnd : bool;
  nextTo : Z;
  toEnd : bool;
  fromState : SF;
  toState : ST
}.

(** [newMultiIterator] up to the closure: one call of each iterator; an
    error is returned at once, with the states the iterators are left in. *)
Definition newMultiIterator (sf : SF) (st : ST) : Error * SF * ST + MultiIter :=
  let '(nextFrom, fromEnd, err, sf') := fromIter sf in
  match err with
  | Some e => inl (e, sf', st)
  | None =>
      let '(nextTo, toEnd, err, st') := toIter st in
      match err with
      | Some e => inl (e, sf', st')
      | None => inr (mkMultiIter nextFrom fromEnd nextTo toEnd sf' st')
      end
  end.

(** [nextFrom, fromEnd, err = fromIter()]. *)
Definition pullFrom (m : MultiIter) : MultiIter * option Error :=
  let '(next, ended, err, sf') := fromIter (fromState m) in
  (mkMultiIter next ended (nextTo m) (toEnd m) sf' (toState m), err).

(** [nextTo, toEnd, err = toIter()]. *)
Definition pullTo (m : MultiIter) : MultiIter * option Error :=
  let '(next, ended, err, st') := toIter (toState m) in
  (mkMultiIter (nextFrom m) (fromEnd m) next ended (fromState m) st', err).

(** The closure that [newMultiIterator] returns: the smaller (or the larger)
    of the two pending blocks, and each iterator that held it moves on. *)
Definition multiIter (smaller : bool) (m : MultiIter) : IterResult * MultiIter :=
  if fromEnd m && toEnd m then (0, true, None, m)
  else
    let blockNum := if negb (fromEnd m) then nextFrom m else 0 in
    let blockNum :=
      if negb (toEnd m) then
        if smaller
        then (if nextTo m <? blockNum then nextTo m else blockNum)
        else (if nextTo m >? blockNum then nextTo m else blockNum)
      else blockNum in
    let '(m1, err) :=
      if negb (fromEnd m) && (blockNum =? nextFrom m) then pullFrom m
      else (m, None) in
    match err with
    | Some e => (0, false, Some e, m1)
    | None =>
        let '(m2, err) :=
          if negb (toEnd m1) && (blockNum =? nextTo m1) then pullTo m1
          else (m1, None) in
        match err with
        | Some e => (0, false, Some e, m2)
        | None => (blockNum, false, None, m2)
        end
    end.

End MultiIterator.

Arguments mkMultiIter {SF ST}.
Arguments nextFrom {SF ST}.
Arguments fromEnd {SF ST}.
Arguments nextTo {SF ST}.
Arguments toEnd {SF ST}.
Arguments fromState {SF ST}.
Arguments toState {SF ST}.
Arguments newMultiIterator {SF ST}.
Arguments pullFrom {SF ST}.
Arguments pullTo {SF ST}.
Arguments multiIter {SF ST}.

(** ** The scenarios of the specification (section 8) *)

Definition noBadHashes : Hash -> bool := fun _ => false.
Definition noFault : IOp -> bool := fun _ => false.

Definition hashG : Hash := 1%N.
Definition hashH1 : Hash := 2%N.
Definition hashH2 : Hash := 3%N.
Definition hashH3 : Hash := 4%N.
Definition hashH1' : Hash := 5%N.

(** Genesis, with the configured total difficulty 1. *)
Definition G : Header := mkHeader zeroHash 0 1 0 hashG.
Definition H1 : Header := mkHeader hashG 1 2 0 hashH1.
Definition H2 : Header := mkHeader hashH1 2 2 0 hashH2.
Definition H3 : Header := mkHeader hashH2 3 2 0 hashH3.

(** The siblings of [H1] of scenarios 2 and 3. *)
Definition H1'_3 : Header := mkHeader hashG 1 3 0 hashH1'.
Definition H1'_4 : Header := mkHeader hashG 1 4 0 hashH1'.

(** The store whose head is genesis. *)
Definition genesisDB : DB :=
  mkDB {[ (0, hashG) := G ]} {[ (0, hashG) := 1 ]} {[ 0 := hashG ]}
       {[ hashG := 0 ]} (Some hashG).

(** The store a call leaves, the store it was given when it does not return. *)
Definition storeAfter (db : DB) (o : Outcome) : DB :=
  match o with
  | Returns _ db' _ => db'
  | _ => db
  end.

(** The results of a call, [false, false, 0, nil] when it does not return. *)
Definition resultOf (o : Outcome) : Result :=
  match o with
  | Returns r _ _ => r
  | _ => mkResult false false 0 None
  end.

(** The effects of a call, none when it does not return. *)
Definition effectsOf (o : Outcome) : Effects :=
  match o with
  | Returns _ _ eff => eff
  | _ => noEffects
  end.

(** State (1): genesis, then [H1; H2] inserted. *)
Definition state1 : DB :=
  storeAfter genesisDB
    (InsertHeaderChain noBadHashes noFault false 8 genesisDB [H1; H2]).

(** State (2): state (1), then the lighter sibling [H1'] inserted. *)
Definition state2 : DB :=
  storeAfter state1
    (InsertHeaderChain noBadHashes noFault false 8 state1 [H1'_3]).

(** A ban set holding one hash. *)
Definition banned (bad : Hash) : Hash -> bool := fun h => N.eqb h bad.

(** The empty store. *)
Definition emptyDB : DB := mkDB ∅ ∅ ∅ ∅ None.

(** The store after [H1; H2; H3] went in while the hash of [H3] is banned. *)
Definition stateBanned : DB :=
  storeAfter genesisDB
    (InsertHeaderChain (banned hashH3) noFault false 8 genesisDB [H1; H2; H3]).

(** State (3): state (1), then the equally heavy sibling [H1'] inserted. *)
Definition state3 : DB :=
  storeAfter state1
    (InsertHeaderChain noBadHashes noFault false 8 state1 [H1'_4]).

(** A lighter side chain on [G], and a heavy header on top of it. *)
Definition hashA1 : Hash := 11%N.
Definition hashA2 : Hash := 12%N.
Definition hashA3 : Hash := 13%N.
Definition A1 : Header := mkHeader hashG 1 1 0 hashA1.
Definition A2 : Header := mkHeader hashA1 2 1 0 hashA2.
Definition A3 : Header := mkHeader hashA2 3 9 0 hashA3.

(** State (1) with the side chain [A1; A2] stored beside the canonical
    chain. *)
Definition stateSide : DB :=
  storeAfter state1
    (InsertHeaderChain noBadHashes noFault false 8 state1 [A1; A2]).

(** An iterator over a list of blocks: one block per call, then the end. *)
Definition listIter (l : list Z) : IterResult * list Z :=
  match l with
  | [] => (0, true, None, [])
  | x :: l' => (x, false, None, l')
  end.

(** ** Vocabulary of the statements *)

(** The result that accompanies an error [e]. *)
Definition abortWith (e : Error) : Result := mkResult false false 0 (Some e).


(** The test of line 189: the hash-to-number table has an entry for the
    header's hash. *)
Definition knownNumber (db : DB) (h : Header) : bool :=
  bool_decide (ReadHeaderNumber db (HashCache h) <> None).

(** The sum of the difficulties of a run of headers. *)
Definition sumDifficulty (headers : list Header) : Z :=
  foldr (fun h acc => Difficulty h + acc) 0 headers.

(** [walked db hash number hs hash' number']: reading the store backwards
    from [(number, hash)] along the parent hashes finds the headers [hs], in
    that order, and stops about to read [(number', hash')]. *)
Inductive walked (db : DB) : Hash -> Z -> list Header -> Hash -> Z -> Prop :=
| walked_nil hash number : walked db hash number [] hash number
| walked_cons hash number h hs hash' number' :
    ReadHeader db hash number = Some h ->
    walked db (ParentHash h) (number - 1) hs hash' number' ->
    walked db hash number (h :: hs) hash' number'.

(** The two ways [InsertHeaderChain] returns without an error, with the
    values each step of the call produced: nothing is left after the
    canonical prefix, or the remainder went through the fork choice, the
    write loop, the deep-fork walk, the cleanup and the commit. *)
Inductive Inserted (BadHashes : Hash -> bool) (fault : IOp -> bool) (coin : bool)
  (fuel : nat) (db : DB) (headers : list Header) : Result -> DB -> Effects -> Prop :=
| inserted_nothing k :
    skipCanonical BadHashes fault db headers 0 = inl k ->
    drop k headers = [] ->
    Inserted BadHashes fault coin fuel db headers
             (mkResult false false 0 None) db noEffects
| inserted_batch k first rest parent parentTd externTd headNumber localTd ch
    lastHeader nc deepFork st fb batch1 batch2 batch3 :
    skipCanonical BadHashes fault db headers 0 = inl k ->
    drop k headers = first :: rest ->
    ReadHeader db (ParentHash first) (u64 (NumberU64 first - 1)) = Some parent ->
    ReadTd fault db (ParentHash first) (u64 (NumberU64 first - 1))
    = (Some parentTd, None) ->
    sumChain None (first :: rest) parentTd = inl externTd ->
    ReadHeaderNumber db (ReadHeadHeaderHash db) = Some headNumber ->
    ReadTd fault db (ReadHeadHeaderHash db) headNumber = (Some localTd, None) ->
    lastHeader = List.last (first :: rest) first ->
    nc = forkChoice coin externTd localTd (NumberU64 lastHeader) headNumber ->
    ReadCanonicalHash fault db (u64 (NumberU64 first - 1)) = (ch, None) ->
    deepFork = nc && negb (N.eqb (ParentHash first) ch) ->
    writeHeaders fault nc deepFork (first :: rest)
                 (mkLoop parentTd 0 false 0 (NewBatch db)) = inl st ->
    (if deepFork then deepForkFix fault fuel (l_batch st) first
     else WalkDone (l_forkBlockNumber st) (l_batch st)) = WalkDone fb batch1 ->
    (if nc && (fb <? headNumber)
     then deleteAbove fault fuel batch1 (u64 (NumberU64 lastHeader + 1)) headNumber
     else CleanDone batch1) = CleanDone batch2 ->
    (if nc then writeHead fault batch2 lastHeader else inl batch2) = inl batch3 ->
    Commit fault batch3 = None ->
    Inserted BadHashes fault coin fuel db headers
             (mkResult nc (nc && (fb <? headNumber)) fb None)
             (b_view batch3) (mkEffects (b_ops batch3) (l_ignored st)).

(** The hashes that a run of events reports as verified. *)
Definition resultHashes (events : list EngineEvent) : gset Hash :=
  list_to_set
    (omap (fun ev => match ev with
                     | VerifyResult hash None => Some hash
                     | _ => None
                     end) events).

(** The ids of the header requests in a run of events, in order. *)
Definition requestIDs (events : list EngineEvent) : list Z :=
  omap (fun ev => match ev with
                  | HeaderRequested req => Some (req_ID req)
                  | _ => None
                  end) events.

(** The event is a result that carries an error. *)
Definition reportsError (ev : EngineEvent) : Prop :=
  match ev with
  | VerifyResult _ (Some _) => True
  | _ => False
  end.

(** The event is not a header request whose answer panics or runs out of
    fuel. *)
Definition answered (fuel : nat) (db : DB) (ev : EngineEvent) : Prop :=
  match ev with
  | HeaderRequested req => exists resp, answerHeaderRequest fuel db req = Responds resp
  | _ => True
  end.

(** [sideChain fault db hash number hs hash' number']: the headers [hs] are
    stored under their own number and hash, one below the other from
    [(number, hash)] down along the parent hashes; the canonical pointer at
    the number of each of them names another hash and can be rewritten; and
    at [(number', hash')], just below them, the canonical pointer agrees. *)
Inductive sideChain (fault : IOp -> bool) (db : DB)
  : Hash -> Z -> list Header -> Hash -> Z -> Prop :=
| sideChain_joined hash number :
    ReadCanonicalHash fault db number = (hash, None) ->
    sideChain fault db hash number [] hash number
| sideChain_step hash number ch h hs hash' number' :
    ReadCanonicalHash fault db number = (ch, None) ->
    ch <> hash ->
    fault (IoWriteCanonicalHash hash number) = false ->
    ReadHeader db hash number = Some h ->
    NumberU64 h = number ->
    HashCache h = hash ->
    1 <= number ->
    sideChain fault db (ParentHash h) (number - 1) hs hash' number' ->
    sideChain fault db hash number (h :: hs) hash' number'.

(** The iterator in state [s] gives the blocks [l], one per call and
    without an error, and then reports its end. *)
Inductive gives {S : Type} (iter : S -> IterResult * S) : S -> list Z -> Prop :=
| gives_end s v s' :
    iter s = (v, true, None, s') -> gives iter s []
| gives_next s x s' l :
    iter s = (x, false, None, s') -> gives iter s' l -> gives iter s (x :: l).

(** The results of [n] calls, in order, and the state they leave. *)
Fixpoint multiRun {S : Type} (iter : S -> IterResult * S) (n : nat) (s : S)
  : list IterResult * S :=
  match n with
  | O => ([], s)
  | S n' =>
      let '(r, s') := iter s in
      let '(rs, s'') := multiRun iter n' s' in
      (r :: rs, s'')
  end.

(** Strictly descending, strictly ascending. *)
Fixpoint descending (l : list Z) : Prop :=
  match l with
  | [] => True
  | x :: l' => Forall (fun y => y < x) l' /\ descending l'
  end.

Fixpoint ascending (l : list Z) : Prop :=
  match l with
  | [] => True
  | x :: l' => Forall (fun y => x < y) l' /\ ascending l'
  end.

(** The pending block of an iterator and what it has yet to give: [pending
    ended next iter s l] when the blocks still to come out of the
    multi-iterator from this side are [l]. *)
Definition pending {S : Type} (iter : S -> IterResult * S)
  (ended : bool) (next : Z) (s : S) (l : list Z) : Prop :=
  match l with
  | [] => ended = true
  | x :: l' => ended = false /\ next = x /\ gives iter s l'
  end.

(** The block a call returns, and what it leaves pending on a side. *)
Definition pick (smaller : bool) (xs ys : list Z) : Z :=
  match xs, ys with
  | x :: _, y :: _ => if smaller then Z.min x y else Z.max x y
  | x :: _, [] => x
  | [], y :: _ => if smaller then 0 else y
  | [], [] => 0
  end.

Definition dropHead (b : Z) (l : list Z) : list Z :=
  match l with
  | x :: l' => if b =? x then l' else l
  | [] => []
  end.

(** * Properties *)

(** ** Machine integers *)

Lemma two64_eq : two64 = 18446744073709551616.
Proof. reflexivity. Qed.

Lemma two63_eq : two63 = 9223372036854775808.
Proof. reflexivity. Qed.

Lemma u64_range z : 0 <= u64 z < two64.
Proof. unfold u64. apply Z.mod_pos_bound. reflexivity. Qed.

Lemma u64_small z : 0 <= z < two64 -> u64 z = z.
Proof. intros. unfold u64. apply Z.mod_small. assumption. Qed.

Lemma int64_small z : - two63 <= z < two63 -> int64 z = z.
Proof.
  intros Hz. unfold int64. rewrite Z.mod_small; [lia|].
  rewrite two64_eq, two63_eq in *. lia.
Qed.

(** ** The seal bitmap *)

Lemma setSeal_in_range (seals : list bool) (index : Z) :
  0 <= index < Z.of_nat (length seals) ->
  setSeal seals index = Some (<[Z.to_nat index := true]> seals).
Proof.
  intros [Hlo Hhi]. unfold setSeal.
  apply Z.leb_le in Hlo. apply Z.ltb_lt in Hhi. rewrite Hlo, Hhi. reflexivity.
Qed.

Lemma lookup_set_true (seals : list bool) (n j : nat) :
  (n < length seals)%nat ->
  <[n := true]> seals !! j = Some true <-> seals !! j = Some true \/ j = n.
Proof.
  intros Hn. destruct (decide (n = j)) as [->|Hne].
  - rewrite list_lookup_insert_eq by assumption. tauto.
  - rewrite list_lookup_insert_ne by assumption. split; [tauto|].
    intros [H|H]; [assumption|congruence].
Qed.

(** With fuel for every iteration left, the loop sets exactly the multiples
    of [checkFreq] from [i * checkFreq] on and stays inside the slice. *)
Lemma sealLoop_marks (checkFreq : Z) (n : nat) :
  0 < checkFreq ->
  forall (i : Z) (seals : list bool),
    0 <= i ->
    Z.of_nat (length seals) / checkFreq - i <= Z.of_nat n ->
    exists seals',
      sealLoop n i checkFreq seals = Some seals'
      /\ length seals' = length seals
      /\ forall j : nat,
           seals' !! j = Some true <->
           (seals !! j = Some true
            \/ exists k, i <= k < Z.of_nat (length seals) / checkFreq
                         /\ Z.of_nat j = k * checkFreq).
Proof.
  intros Hcf. induction n as [|n IH]; intros i seals Hi Hfuel.
  - exists seals. simpl. repeat split; auto.
    intros [H|(k & Hk & _)]; [assumption|lia].
  - simpl. rewrite Z.quot_div_nonneg by lia.
    set (q := Z.of_nat (length seals) / checkFreq) in *.
    assert (Hq : q * checkFreq <= Z.of_nat (length seals)).
    { subst q. rewrite Z.mul_comm. apply Z.mul_div_le. assumption. }
    destruct (i <? q) eqn:Hlt.
    + apply Z.ltb_lt in Hlt.
      assert (Hidx : 0 <= i * checkFreq < Z.of_nat (length seals)) by nia.
      assert (Hge : (i * checkFreq >=? Z.of_nat (length seals)) = false).
      { rewrite Z.geb_leb. apply Z.leb_gt. lia. }
      rewrite Hge, setSeal_in_range by assumption.
      set (seals1 := <[Z.to_nat (i * checkFreq) := true]> seals).
      assert (Hlen : length seals1 = length seals) by apply length_insert.
      destruct (IH (i + 1) seals1) as (seals' & Hrun & Hlen' & Hmarks).
      { lia. }
      { rewrite Hlen. fold q. lia. }
      exists seals'. split; [assumption|]. split; [congruence|].
      intros j. rewrite Hmarks, Hlen. fold q. subst seals1.
      rewrite lookup_set_true by lia. split.
      * intros [[H|H]|(k & Hk & Hj)].
        -- left; assumption.
        -- right. exists i. split; [lia|]. lia.
        -- right. exists k. split; [lia|assumption].
      * intros [H|(k & Hk & Hj)].
        -- left; left; assumption.
        -- destruct (decide (k = i)) as [->|Hne].
           ++ left; right. lia.
           ++ right. exists k. split; [lia|assumption].
    + apply Z.ltb_ge in Hlt. exists seals. repeat split; auto.
      intros [H|(k & Hk & _)]; [assumption|lia].
Qed.

(** C7. For at least one header and a non-negative [checkFreq],
    [VerifyHeaders] builds a bitmap as long as the batch in which, when
    [checkFreq > 0], the entries at [i * checkFreq] for
    [0 <= i < len / checkFreq] and the last entry are true and every other
    entry is false, and in which every entry is false when [checkFreq = 0]. *)
Theorem VerifyHeaders_seal_bitmap (len : nat) (checkFreq : Z) :
  (1 <= len)%nat ->
  0 <= checkFreq ->
  exists seals,
    VerifyHeaders_seals len checkFreq = Some seals
    /\ length seals = len
    /\ forall (j : nat) (b : bool),
         seals !! j = Some b ->
         (b = true <->
          0 < checkFreq
          /\ (Z.of_nat j = Z.of_nat len - 1
              \/ exists i, 0 <= i < Z.of_nat len / checkFreq
                           /\ Z.of_nat j = i * checkFreq)).
Proof.
  intros Hlen Hcf. unfold VerifyHeaders_seals.
  destruct (checkFreq =? 0) eqn:Hz.
  - apply Z.eqb_eq in Hz. subst checkFreq.
    exists (replicate len false). split; [reflexivity|].
    split; [apply length_replicate|].
    intros j b Hj. apply lookup_replicate in Hj as [-> _].
    split; [discriminate|lia].
  - apply Z.eqb_neq in Hz. assert (Hpos : 0 < checkFreq) by lia.
    destruct (sealLoop_marks checkFreq (S len) Hpos 0 (replicate len false))
      as (seals1 & Hrun & Hlen1 & Hmarks).
    { lia. }
    { rewrite length_replicate.
      assert (Z.of_nat len / checkFreq <= Z.of_nat len).
      { apply Z.div_le_upper_bound; nia. }
      lia. }
    rewrite Hrun. rewrite length_replicate in Hlen1, Hmarks.
    rewrite setSeal_in_range by lia.
    eexists. split; [reflexivity|]. split; [rewrite length_insert; assumption|].
    intros j b Hj. split.
    + intros ->. split; [assumption|].
      apply lookup_set_true in Hj; [|lia].
      destruct Hj as [Hj| ->].
      * apply Hmarks in Hj as [Hj|Hj]; [|right; assumption].
        apply lookup_replicate in Hj as [? _]. discriminate.
      * left. lia.
    + intros [_ Hwhich].
      assert (Hset : <[Z.to_nat (Z.of_nat (length seals1) - 1) := true]> seals1 !! j
                     = Some true).
      { apply lookup_set_true; [lia|].
        destruct Hwhich as [Hlast|Hmult].
        - right. lia.
        - left. apply Hmarks. right. assumption. }
      congruence.
Qed.

(** ** Error returns of [InsertHeaderChain] *)

Section Aborts.

Variable BadHashes : Hash -> bool.
Variable fault : IOp -> bool.
Variable coin : bool.

Lemma ReadCanonicalHash_err db number ch e :
  ReadCanonicalHash fault db number = (ch, Some e) -> e = ErrStoreIO.
Proof. unfold ReadCanonicalHash. destruct (fault _); congruence. Qed.

Lemma ReadTd_err db hash number td e :
  ReadTd fault db hash number = (td, Some e) -> e = ErrStoreIO.
Proof. unfold ReadTd. destruct (fault _); congruence. Qed.

Lemma WriteCanonicalHash_err b hash number b' e :
  WriteCanonicalHash fault b hash number = (b', Some e) -> e = ErrStoreIO.
Proof. unfold WriteCanonicalHash. destruct (fault _); congruence. Qed.

Lemma WriteTd_err b hash number td b' e :
  WriteTd fault b hash number td = (b', Some e) -> e = ErrStoreIO.
Proof. unfold WriteTd. destruct (fault _); congruence. Qed.

Lemma PutHeader_err b number hash h b' e :
  PutHeader fault b number hash h = (b', Some e) -> e = ErrStoreIO.
Proof. unfold PutHeader. destruct (fault _); congruence. Qed.

Lemma DeleteCanonicalHash_err b number b' e :
  DeleteCanonicalHash fault b number = (b', Some e) -> e = ErrStoreIO.
Proof. unfold DeleteCanonicalHash. destruct (fault _); congruence. Qed.

Lemma PutHeaderNumber_err b hash number b' e :
  PutHeaderNumber fault b hash number = (b', Some e) -> e = ErrStoreIO.
Proof. unfold PutHeaderNumber. destruct (fault _); congruence. Qed.

Lemma WriteHeadHeaderHash_err b hash b' e :
  WriteHeadHeaderHash fault b hash = (b', Some e) -> e = ErrStoreIO.
Proof. unfold WriteHeadHeaderHash. destruct (fault _); congruence. Qed.

Lemma Commit_err b e : Commit fault b = Some e -> e = ErrStoreIO.
Proof. unfold Commit. destruct (fault _); congruence. Qed.

Lemma EncodeToBytes_err h e : EncodeToBytes fault h = Some e -> e = ErrStoreIO.
Proof. unfold EncodeToBytes. destruct (fault _); congruence. Qed.

Ltac io_err :=
  match goal with
  | H : ReadCanonicalHash _ _ _ = (_, Some _) |- _ => apply ReadCanonicalHash_err in H
  | H : ReadTd _ _ _ _ = (_, Some _) |- _ => apply ReadTd_err in H
  | H : WriteCanonicalHash _ _ _ _ = (_, Some _) |- _ => apply WriteCanonicalHash_err in H
  | H : WriteTd _ _ _ _ _ = (_, Some _) |- _ => apply WriteTd_err in H
  | H : PutHeader _ _ _ _ _ = (_, Some _) |- _ => apply PutHeader_err in H
  | H : DeleteCanonicalHash _ _ _ = (_, Some _) |- _ => apply DeleteCanonicalHash_err in H
  | H : PutHeaderNumber _ _ _ _ = (_, Some _) |- _ => apply PutHeaderNumber_err in H
  | H : WriteHeadHeaderHash _ _ _ = (_, Some _) |- _ => apply WriteHeadHeaderHash_err in H
  | H : Commit _ _ = Some _ |- _ => apply Commit_err in H
  | H : EncodeToBytes _ _ = Some _ |- _ => apply EncodeToBytes_err in H
  end.

Lemma skipCanonical_abort db headers k r :
  skipCanonical BadHashes fault db headers k = inr r ->
  r = abortWith ErrStoreIO \/ r = abortWith ErrBlacklistedHash.
Proof.
  revert k. induction headers as [|h rest IH]; intros k H; simpl in H.
  - discriminate.
  - destruct (ReadCanonicalHash fault db (NumberU64 h)) as [ch [e|]] eqn:Hch.
    + io_err. subst e. left. unfold abortWith. congruence.
    + destruct (N.eqb (HashCache h) ch); [|discriminate].
      destruct (BadHashes (HashCache h)).
      * right. unfold abortWith. congruence.
      * eapply IH; eassumption.
Qed.

Lemma sumChain_abort prev headers td r :
  sumChain prev headers td = inr r -> r = abortWith ErrBrokenChain.
Proof.
  revert prev td. induction headers as [|h rest IH]; intros prev td H; simpl in H.
  - discriminate.
  - destruct prev as [p|].
    + destruct (negb (N.eqb (ParentHash h) (HashCache p))).
      * unfold abortWith. congruence.
      * eapply IH; eassumption.
    + eapply IH; eassumption.
Qed.

Lemma writeHeaders_abort nc deepFork headers st r :
  writeHeaders fault nc deepFork headers st = inr r -> r = abortWith ErrStoreIO.
Proof.
  revert st. induction headers as [|h rest IH]; intros st H; simpl in H.
  - discriminate.
  - repeat case_match; simplify_eq; try (eapply IH; eassumption);
      repeat io_err; subst; reflexivity.
Qed.

Lemma forkWalk_abort fuel batch number hash r :
  forkWalk fault fuel batch number hash = WalkReturn r -> r = abortWith ErrStoreIO.
Proof.
  revert batch number hash. induction fuel as [|fuel IH]; intros batch number hash H;
    simpl in H.
  - discriminate.
  - repeat case_match; simplify_eq; try (eapply IH; eassumption);
      repeat io_err; subst; reflexivity.
Qed.

Lemma deepForkFix_abort fuel batch first r :
  deepForkFix fault fuel batch first = WalkReturn r -> r = abortWith ErrStoreIO.
Proof.
  unfold deepForkFix. intros H.
  repeat case_match; simplify_eq;
    try (eapply forkWalk_abort; eassumption);
    repeat io_err; subst; reflexivity.
Qed.

Lemma deleteAbove_abort fuel batch i headNumber r :
  deleteAbove fault fuel batch i headNumber = CleanReturn r -> r = abortWith ErrStoreIO.
Proof.
  revert batch i. induction fuel as [|fuel IH]; intros batch i H; simpl in H.
  - discriminate.
  - repeat case_match; simplify_eq; try (eapply IH; eassumption);
      repeat io_err; subst; reflexivity.
Qed.

Lemma writeHead_abort batch lastHeader r :
  writeHead fault batch lastHeader = inr r -> r = abortWith ErrStoreIO.
Proof.
  unfold writeHead. intros H.
  repeat case_match; simplify_eq; repeat io_err; subst; reflexivity.
Qed.

(** Every return that carries an error is [abortWith] that error, leaves
    the store as it was and commits nothing. *)
Lemma InsertHeaderChain_abort fuel db headers r db' eff :
  InsertHeaderChain BadHashes fault coin fuel db headers = Returns r db' eff ->
  err r <> None ->
  exists e, r = abortWith e /\ db' = db /\ eff = noEffects.
Proof.
  unfold InsertHeaderChain. intros H Herr.
  repeat case_match; simplify_eq;
    try (exfalso; apply Herr; reflexivity);
    try (eexists; split; [reflexivity|split; reflexivity]);
    repeat match goal with
    | H : skipCanonical _ _ _ _ _ = inr _ |- _ =>
        apply skipCanonical_abort in H; destruct H
    | H : sumChain _ _ _ = inr _ |- _ => apply sumChain_abort in H
    | H : writeHeaders _ _ _ _ _ = inr _ |- _ => apply writeHeaders_abort in H
    | H : deepForkFix _ _ _ _ = WalkReturn _ |- _ => apply deepForkFix_abort in H
    | H : deleteAbove _ _ _ _ _ = CleanReturn _ |- _ => apply deleteAbove_abort in H
    | H : writeHead _ _ _ = inr _ |- _ => apply writeHead_abort in H
    end; subst; eexists; split; try reflexivity; split; reflexivity.
Qed.

End Aborts.

(** Turns the error results of the steps of a call into their closed forms. *)
Ltac abort_forms :=
  repeat match goal with
  | H : skipCanonical _ _ _ _ _ = inr _ |- _ =>
      apply skipCanonical_abort in H; destruct H
  | H : sumChain _ _ _ = inr _ |- _ => apply sumChain_abort in H
  | H : writeHeaders _ _ _ _ _ = inr _ |- _ => apply writeHeaders_abort in H
  | H : deepForkFix _ _ _ _ = WalkReturn _ |- _ => apply deepForkFix_abort in H
  | H : deleteAbove _ _ _ _ _ = CleanReturn _ |- _ => apply deleteAbove_abort in H
  | H : writeHead _ _ _ = inr _ |- _ => apply writeHead_abort in H
  end; subst.

(** C10. Whenever [InsertHeaderChain] returns a non-nil error, the three
    values it returns with it are [false], [false] and [0]. *)
Theorem InsertHeaderChain_error_triple
  (BadHashes : Hash -> bool) (fault : IOp -> bool) (coin : bool) (fuel : nat)
  (db : DB) (headers : list Header) (r : Result) (db' : DB) (eff : Effects) :
  InsertHeaderChain BadHashes fault coin fuel db headers = Returns r db' eff ->
  err r <> None ->
  newCanonical r = false /\ reorg r = false /\ forkBlockNumber r = 0.
Proof.
  intros H Herr.
  destruct (InsertHeaderChain_abort _ _ _ _ _ _ _ _ _ H Herr) as (e & -> & _ & _).
  repeat split.
Qed.

(** ** Prefix de-duplication, ban check and linkage *)

Section Prechecks.

Variable BadHashes : Hash -> bool.
Variable fault : IOp -> bool.
Variable coin : bool.

Lemma ReadCanonicalHash_present db number hash :
  fault (IoReadCanonicalHash number) = false ->
  db_canonical db !! number = Some hash ->
  ReadCanonicalHash fault db number = (hash, None).
Proof. intros Hf Hc. unfold ReadCanonicalHash. rewrite Hf, Hc. reflexivity. Qed.

(** A batch of canonical, unbanned headers is skipped whole. *)
Lemma skipCanonical_all db headers k :
  (forall h, h ∈ headers ->
     fault (IoReadCanonicalHash (NumberU64 h)) = false
     /\ db_canonical db !! NumberU64 h = Some (HashCache h)
     /\ BadHashes (HashCache h) = false) ->
  skipCanonical BadHashes fault db headers k = inl (k + length headers)%nat.
Proof.
  revert k. induction headers as [|h rest IH]; intros k Hall; simpl.
  - f_equal. lia.
  - destruct (Hall h) as (Hf & Hc & Hb); [left|].
    rewrite (ReadCanonicalHash_present _ _ _ Hf Hc), N.eqb_refl, Hb.
    rewrite IH.
    + f_equal. lia.
    + intros h' Hin. apply Hall. right. assumption.
Qed.

(** A banned header met while the prefix is still canonical aborts the call. *)
Lemma skipCanonical_banned db pre h post k :
  (forall h', h' ∈ pre ++ [h] ->
     fault (IoReadCanonicalHash (NumberU64 h')) = false
     /\ db_canonical db !! NumberU64 h' = Some (HashCache h')) ->
  (forall h', h' ∈ pre -> BadHashes (HashCache h') = false) ->
  BadHashes (HashCache h) = true ->
  skipCanonical BadHashes fault db (pre ++ h :: post) k
  = inr (abortWith ErrBlacklistedHash).
Proof.
  revert k. induction pre as [|p pre IH]; intros k Hcan Hgood Hbad; simpl.
  - destruct (Hcan h) as (Hf & Hc); [left|].
    rewrite (ReadCanonicalHash_present _ _ _ Hf Hc), N.eqb_refl, Hbad. reflexivity.
  - destruct (Hcan p) as (Hf & Hc); [left|].
    rewrite (ReadCanonicalHash_present _ _ _ Hf Hc), N.eqb_refl.
    rewrite (Hgood p) by left. apply IH.
    + intros h' Hin. apply Hcan. right. assumption.
    + intros h' Hin. apply Hgood. right. assumption.
    + assumption.
Qed.

(** A broken link anywhere in the run stops the summation. *)
Lemma sumChain_broken headers :
  forall prev td (i : nat) a b,
    headers !! i = Some a ->
    headers !! S i = Some b ->
    ParentHash b <> HashCache a ->
    sumChain prev headers td = inr (abortWith ErrBrokenChain).
Proof.
  induction headers as [|h rest IH]; intros prev td i a b Ha Hb Hne.
  - discriminate.
  - assert (Hrec : forall td', sumChain (Some h) rest td'
                               = inr (abortWith ErrBrokenChain)).
    { intros td'. destruct i as [|i].
      - simpl in Ha, Hb. simplify_eq. destruct rest as [|b' rest']; simplify_eq.
        simpl in Hb. simplify_eq. simpl.
        apply N.eqb_neq in Hne. rewrite Hne. reflexivity.
      - simpl in Ha, Hb. apply (IH _ _ i a b); assumption. }
    simpl. destruct prev as [p|]; [|apply Hrec].
    destruct (negb (N.eqb (ParentHash h) (HashCache p))); [reflexivity|apply Hrec].
Qed.

(** C5. Once the canonical prefix is dropped and a header remains, the call
    fails with the unknown-parent error exactly when the store has no
    header at [(first.number - 1, first.parent_hash)]; with the parent and
    its total difficulty read, it fails with the broken-chain error when a
    header of the remainder does not name its predecessor as parent; both
    failures leave the store as it was and commit nothing. *)
Theorem InsertHeaderChain_linkage_errors
  (fuel : nat) (db : DB) (headers : list Header) (k : nat)
  (first : Header) (rest : list Header) :
  skipCanonical BadHashes fault db headers 0 = inl k ->
  drop k headers = first :: rest ->
  let parentNumber := u64 (NumberU64 first - 1) in
  let call := InsertHeaderChain BadHashes fault coin fuel db headers in
  (ReadHeader db (ParentHash first) parentNumber = None ->
   call = Returns (abortWith ErrUnknownParent) db noEffects)
  /\ (forall r db' eff,
        call = Returns r db' eff ->
        err r = Some ErrUnknownParent ->
        ReadHeader db (ParentHash first) parentNumber = None
        /\ db' = db /\ eff = noEffects)
  /\ (forall parent parentTd (i : nat) a b,
        ReadHeader db (ParentHash first) parentNumber = Some parent ->
        ReadTd fault db (ParentHash first) parentNumber = (Some parentTd, None) ->
        (first :: rest) !! i = Some a ->
        (first :: rest) !! S i = Some b ->
        ParentHash b <> HashCache a ->
        call = Returns (abortWith ErrBrokenChain) db noEffects).
Proof.
  intros Hskip Hdrop parentNumber call. subst call parentNumber.
  unfold InsertHeaderChain. rewrite Hskip. cbv zeta. rewrite Hdrop.
  split; [|split].
  - intros ->. reflexivity.
  - intros r db' eff Hret Herr.
    destruct (ReadHeader db (ParentHash first) (u64 (NumberU64 first - 1)))
      as [parent|] eqn:Hparent.
    + exfalso.
      repeat case_match; simplify_eq; try discriminate;
        repeat match goal with
        | H : sumChain _ _ _ = inr _ |- _ => apply sumChain_abort in H
        | H : writeHeaders _ _ _ _ _ = inr _ |- _ => apply writeHeaders_abort in H
        | H : deepForkFix _ _ _ _ = WalkReturn _ |- _ => apply deepForkFix_abort in H
        | H : deleteAbove _ _ _ _ _ = CleanReturn _ |- _ => apply deleteAbove_abort in H
        | H : writeHead _ _ _ = inr _ |- _ => apply writeHead_abort in H
        | H : ReadCanonicalHash _ _ _ = (_, Some _) |- _ =>
            apply ReadCanonicalHash_err in H
        | H : ReadTd _ _ _ _ = (_, Some _) |- _ => apply ReadTd_err in H
        | H : Commit _ _ = Some _ |- _ => apply Commit_err in H
        end; subst; discriminate.
    + simplify_eq. auto.
  - intros parent parentTd i a b Hparent Htd Ha Hb Hne.
    rewrite Hparent, Htd.
    rewrite (sumChain_broken _ None parentTd i a b Ha Hb Hne). reflexivity.
Qed.

(** The amended C4. A batch whose headers are all canonical at their
    numbers, none of them banned and with the canonical pointers readable,
    returns [false, false, 0] without an error and leaves the store as it
    was; the empty batch is one of them. *)
Theorem InsertHeaderChain_canonical_batch_noop
  (fuel : nat) (db : DB) (headers : list Header) :
  (forall h, h ∈ headers ->
     fault (IoReadCanonicalHash (NumberU64 h)) = false
     /\ db_canonical db !! NumberU64 h = Some (HashCache h)
     /\ BadHashes (HashCache h) = false) ->
  InsertHeaderChain BadHashes fault coin fuel db headers
  = Returns (mkResult false false 0 None) db noEffects.
Proof.
  intros Hall. unfold InsertHeaderChain.
  rewrite (skipCanonical_all _ _ _ Hall). cbv zeta.
  rewrite Nat.add_0_l, drop_all. reflexivity.
Qed.

End Prechecks.

(** ** Reorganisation cleanup *)

Section Cleanup.

Variable BadHashes : Hash -> bool.
Variable fault : IOp -> bool.
Variable coin : bool.








(** With the head at the largest [uint64] the cleanup loop never leaves. *)
Lemma deleteAbove_at_max fuel batch i batch' :
  0 <= i < two64 ->
  deleteAbove fault fuel batch i (two64 - 1) <> CleanDone batch'.
Proof.
  revert batch i. induction fuel as [|fuel IH]; intros batch i Hi H; simpl in H.
  - discriminate.
  - assert (Hle : (i <=? two64 - 1) = true) by (apply Z.leb_le; lia).
    rewrite Hle in H. repeat case_match; simplify_eq.
    eapply IH; [|eassumption]. apply u64_range.
Qed.


Lemma ReadHeaderNumber_range db hash number :
  ReadHeaderNumber db hash = Some number -> 0 <= number < two64.
Proof.
  unfold ReadHeaderNumber. intros H.
  destruct (db_headerNumber db !! hash); simplify_eq. simpl in H.
  simplify_eq. apply u64_range.
Qed.

Lemma last_default_irrelevant (h : Header) rest d1 d2 :
  List.last (h :: rest) d1 = List.last (h :: rest) d2.
Proof.
  revert h. induction rest as [|h' rest IH]; intros h; [reflexivity|].
  change (List.last (h' :: rest) d1 = List.last (h' :: rest) d2). apply IH.
Qed.

(** A return without an error went one of the two ways of [Inserted]. *)
Lemma InsertHeaderChain_success fuel db headers r db' eff :
  InsertHeaderChain BadHashes fault coin fuel db headers = Returns r db' eff ->
  err r = None ->
  Inserted BadHashes fault coin fuel db headers r db' eff.
Proof.
  unfold InsertHeaderChain. intros H Herr.
  destruct (skipCanonical BadHashes fault db headers 0) as [k|r0] eqn:Hskip;
    [|simplify_eq; abort_forms; discriminate].
  cbv zeta in H.
  destruct (drop k headers) as [|first rest] eqn:Hdrop.
  { simplify_eq. eapply inserted_nothing; eassumption. }
  destruct (ReadHeader db (ParentHash first) (u64 (NumberU64 first - 1)))
    as [parent|] eqn:Hparent; [|simplify_eq; discriminate].
  destruct (ReadTd fault db (ParentHash first) (u64 (NumberU64 first - 1)))
    as [[parentTd|] [e|]] eqn:Hptd; simplify_eq; try discriminate.
  destruct (sumChain None (first :: rest) parentTd) as [externTd|r0] eqn:Hsum;
    [|simplify_eq; abort_forms; discriminate].
  destruct (ReadHeaderNumber db (ReadHeadHeaderHash db)) as [headNumber|] eqn:Hhn;
    [|discriminate].
  destruct (ReadTd fault db (ReadHeadHeaderHash db) headNumber)
    as [[localTd|] [e|]] eqn:Hltd; simplify_eq; try discriminate.
  destruct (ReadCanonicalHash fault db (u64 (NumberU64 first - 1)))
    as [ch [e|]] eqn:Hch; simplify_eq; try discriminate.
  destruct (writeHeaders fault _ _ (first :: rest) _) as [st|r0] eqn:Hloop;
    [|simplify_eq; abort_forms; discriminate].
  match type of H with
  | match ?walk with _ => _ end = _ =>
      destruct walk as [fb batch1|r0| |] eqn:Hwalk
  end; simplify_eq.
  2:{ destruct (_ && negb _); simplify_eq. abort_forms. discriminate. }
  match type of H with
  | match ?clean with _ => _ end = _ =>
      destruct clean as [batch2|r0|] eqn:Hclean
  end; simplify_eq.
  2:{ destruct (_ && (_ <? _)); simplify_eq. abort_forms. discriminate. }
  match type of H with
  | match ?head with _ => _ end = _ =>
      destruct head as [batch3|r0] eqn:Hhead
  end; simplify_eq.
  2:{ destruct (forkChoice _ _ _ _ _); simplify_eq. abort_forms. discriminate. }
  destruct (Commit fault batch3) eqn:Hcommit; simplify_eq; try discriminate.
  eapply inserted_batch; try eassumption; reflexivity.
Qed.


End Cleanup.

(** ** Fork choice *)

Lemma sumChain_total headers :
  forall prev td externTd,
    sumChain prev headers td = inl externTd ->
    externTd = td + sumDifficulty headers.
Proof.
  induction headers as [|h rest IH]; intros prev td externTd H; simpl in H.
  - simplify_eq. simpl. lia.
  - assert (Hrec : sumChain (Some h) rest (td + Difficulty h) = inl externTd).
    { destruct prev as [p|]; [|assumption].
      destruct (negb (N.eqb (ParentHash h) (HashCache p))); [discriminate|assumption]. }
    apply IH in Hrec. simpl. lia.
Qed.

Lemma forkChoice_tie_lower coin td lastNumber headNumber :
  lastNumber < headNumber ->
  forkChoice coin td td lastNumber headNumber = true.
Proof.
  intros Hlt. unfold forkChoice.
  assert (Hgt : (td >? td) = false) by (rewrite Z.gtb_ltb; apply Z.ltb_irrefl).
  rewrite Hgt, Z.eqb_refl. simpl.
  apply Z.ltb_lt in Hlt. rewrite Hlt. reflexivity.
Qed.

(** The amended C1. When the total difficulty of the batch equals that of
    the current head and the last header's number is strictly below the
    head's number, a call that returns without an error judges the batch
    canonical: [new_canonical] is true. *)
Theorem InsertHeaderChain_tie_lower_number
  (BadHashes : Hash -> bool) (fault : IOp -> bool) (coin : bool) (fuel : nat)
  (db : DB) (headers : list Header) (k : nat) (first : Header)
  (rest : list Header) (parentTd headNumber localTd : Z)
  (r : Result) (db' : DB) (eff : Effects) :
  skipCanonical BadHashes fault db headers 0 = inl k ->
  drop k headers = first :: rest ->
  ReadTd fault db (ParentHash first) (u64 (NumberU64 first - 1))
  = (Some parentTd, None) ->
  ReadHeaderNumber db (ReadHeadHeaderHash db) = Some headNumber ->
  ReadTd fault db (ReadHeadHeaderHash db) headNumber = (Some localTd, None) ->
  parentTd + sumDifficulty (first :: rest) = localTd ->
  NumberU64 (List.last (first :: rest) first) < headNumber ->
  InsertHeaderChain BadHashes fault coin fuel db headers = Returns r db' eff ->
  err r = None ->
  newCanonical r = true.
Proof.
  intros Hskip Hdrop Hptd Hhn Hltd Htie Hlower Hret Herr.
  destruct (InsertHeaderChain_success _ _ _ _ _ _ _ _ _ Hret Herr)
    as [k' Hskip' Hdrop'
       |k' first' rest' parent parentTd' externTd headNumber' localTd' ch lastHeader
          nc deepFork st fb batch1 batch2 batch3
          Hskip' Hdrop' Hparent Hptd' Hsum Hhn' Hltd' Hlast Hnc Hch Hdeep
          Hloop Hwalk Hclean Hhead Hcommit].
  - congruence.
  - assert (k' = k) by congruence. subst k'.
    assert (first' = first /\ rest' = rest) as [-> ->] by (split; congruence).
    assert (headNumber' = headNumber) by congruence. subst headNumber'.
    assert (parentTd' = parentTd) by congruence. subst parentTd'.
    assert (localTd' = localTd) by congruence. subst localTd'.
    apply sumChain_total in Hsum.
    simpl. rewrite Hnc, Hlast, Hsum, Htie. apply forkChoice_tie_lower. assumption.
Qed.

(** ** The scenarios, run *)

(** The amended C3. On the store whose head is genesis with total
    difficulty 1, inserting [H1; H2] returns
    [new_canonical = true, reorg = false, fork_block = 0] without an error;
    afterwards the head is [H2], the canonical pointers 1 and 2 name [H1]
    and [H2], and the total difficulty of [H2] is 5. *)
Theorem genesis_insert_two_headers (coin : bool) (fuel : nat) :
  exists db' eff,
    InsertHeaderChain noBadHashes noFault coin fuel genesisDB [H1; H2]
    = Returns (mkResult true false 0 None) db' eff
    /\ ReadHeadHeaderHash db' = hashH2
    /\ ReadHeader db' hashH2 2 = Some H2
    /\ ReadTd noFault db' hashH2 2 = (Some 5, None)
    /\ ReadCanonicalHash noFault db' 1 = (hashH1, None)
    /\ ReadCanonicalHash noFault db' 2 = (hashH2, None).
Proof.
  eexists. eexists. split; [vm_compute; reflexivity|].
  repeat split; vm_compute; reflexivity.
Qed.

(** C3 as stated fails: the call does not return fork block 2. *)
Lemma genesis_insert_fork_block_not_2 :
  ReadHeadHeaderHash genesisDB = hashG
  /\ ReadTd noFault genesisDB hashG 0 = (Some 1, None)
  /\ ~ (exists db' eff,
          InsertHeaderChain noBadHashes noFault false 8 genesisDB [H1; H2]
          = Returns (mkResult true false 2 None) db' eff).
Proof.
  split; [reflexivity|]. split; [reflexivity|].
  intros (db' & eff & H). vm_compute in H. discriminate H.
Qed.

(** C1 as stated fails: in state (1), head [H2] at number 2 with total
    difficulty 5, the single header [H1'] with difficulty 4 reaches total
    difficulty 5 at number 1 and is judged canonical. *)
Lemma tie_lower_number_is_canonical :
  ReadHeadHeaderHash state1 = hashH2
  /\ ReadHeaderNumber state1 hashH2 = Some 2
  /\ ReadTd noFault state1 hashH2 2 = (Some 5, None)
  /\ ReadTd noFault state1 hashG 0 = (Some 1, None)
  /\ 1 + sumDifficulty [H1'_4] = 5
  /\ NumberU64 H1'_4 = 1
  /\ ~ (forall r db' eff,
          InsertHeaderChain noBadHashes noFault false 8 state1 [H1'_4]
          = Returns r db' eff ->
          newCanonical r = false).
Proof.
  repeat (split; [vm_compute; reflexivity|]).
  intros Hclaim.
  specialize (Hclaim (mkResult true true 0 None) state3
                (effectsOf (InsertHeaderChain noBadHashes noFault false 8
                              state1 [H1'_4]))).
  discriminate Hclaim. vm_compute. reflexivity.
Qed.

(** The failing input of C2: the hash of the header at index 2 is banned,
    no header of the batch is canonical yet, and the call inserts all three
    headers and makes the banned one the head. *)
Lemma banned_header_at_index_2_is_inserted :
  [H1; H2; H3] !! 2%nat = Some H3
  /\ banned hashH3 (HashCache H3) = true
  /\ exists db' eff,
       InsertHeaderChain (banned hashH3) noFault false 8 genesisDB [H1; H2; H3]
       = Returns (mkResult true false 0 None) db' eff
       /\ ReadHeader db' hashH3 3 = Some H3
       /\ ReadCanonicalHash noFault db' 3 = (hashH3, None)
       /\ ReadHeadHeaderHash db' = hashH3.
Proof.
  split; [reflexivity|]. split; [reflexivity|].
  eexists. eexists. split; [vm_compute; reflexivity|].
  repeat split; vm_compute; reflexivity.
Qed.

(** C4 as stated fails: the batch [H1; H2; H3] is canonical in the store it
    was applied to, and inserting it again returns the ban error. *)
Lemma canonical_batch_with_banned_header_fails :
  (forall h, h ∈ [H1; H2; H3] ->
     db_canonical stateBanned !! NumberU64 h = Some (HashCache h))
  /\ InsertHeaderChain (banned hashH3) noFault false 8 stateBanned [H1; H2; H3]
     = Returns (abortWith ErrBlacklistedHash) stateBanned noEffects.
Proof.
  split.
  - intros h Hin. repeat (apply elem_of_cons in Hin as [->|Hin]);
      [vm_compute; reflexivity ..|].
    inversion Hin.
  - vm_compute. reflexivity.
Qed.

(** ** The write loop off the canonical chain *)

Section WriteLoop.

Variable fault : IOp -> bool.
Variable deepFork : bool.

Lemma knownNumber_same_table db1 db2 h :
  db_headerNumber db1 = db_headerNumber db2 ->
  knownNumber db1 h = knownNumber db2 h.
Proof. intros Heq. unfold knownNumber, ReadHeaderNumber. rewrite Heq. reflexivity. Qed.

Lemma knownNumber_false db h :
  knownNumber db h = false <-> ReadHeaderNumber db (HashCache h) = None.
Proof.
  unfold knownNumber. rewrite bool_decide_eq_false.
  destruct (ReadHeaderNumber db (HashCache h)); split; try congruence.
  intros Hn. exfalso. apply Hn. discriminate.
Qed.

(** A header whose hash has a number on record costs one [ignored]. *)
Lemma writeHeaders_skip h rest st :
  knownNumber (b_view (l_batch st)) h = true ->
  writeHeaders fault false deepFork (h :: rest) st
  = writeHeaders fault false deepFork rest
      (mkLoop (l_td st + Difficulty h) (l_forkBlockNumber st) (l_fork st)
              (S (l_ignored st)) (l_batch st)).
Proof. intros Hk. unfold knownNumber in Hk. simpl. rewrite Hk. reflexivity. Qed.

(** Any other header has its total difficulty and itself written. *)
Lemma writeHeaders_write h rest st st' :
  knownNumber (b_view (l_batch st)) h = false ->
  writeHeaders fault false deepFork (h :: rest) st = inl st' ->
  exists batch',
    b_ops batch'
    = b_ops (l_batch st)
      ++ [OpWriteTd (HashCache h) (NumberU64 h) (l_td st + Difficulty h);
          OpPutHeader (NumberU64 h) (HashCache h) h]
    /\ db_headerNumber (b_view batch') = db_headerNumber (b_view (l_batch st))
    /\ writeHeaders fault false deepFork rest
         (mkLoop (l_td st + Difficulty h) (l_forkBlockNumber st) (l_fork st)
                 (l_ignored st) batch') = inl st'.
Proof.
  intros Hk H. unfold knownNumber in Hk. simpl in H. rewrite Hk in H. simpl in H.
  destruct (ReadCanonicalHash fault (b_view (l_batch st)) (NumberU64 h))
    as [ch [e|]]; [discriminate|].
  destruct (EncodeToBytes fault h); [discriminate|].
  unfold WriteTd, PutHeader in H.
  destruct (fault (IoWriteTd _ _)); [discriminate|].
  destruct (fault (IoPutHeader _ _)); [discriminate|].
  eexists. split; [|split; [|exact H]].
  - simpl. rewrite <- app_assoc. reflexivity.
  - reflexivity.
Qed.

(** The loop with [newCanonical = false], from any state. *)
Lemma writeHeaders_off_chain headers :
  forall st st',
    writeHeaders fault false deepFork headers st = inl st' ->
    l_td st' = l_td st + sumDifficulty headers
    /\ l_ignored st'
       = (l_ignored st
          + length (List.filter (knownNumber (b_view (l_batch st))) headers))%nat
    /\ exists new,
         b_ops (l_batch st') = b_ops (l_batch st) ++ new
         /\ forall op,
              op ∈ new <->
              exists (i : nat) h,
                headers !! i = Some h
                /\ knownNumber (b_view (l_batch st)) h = false
                /\ (op = OpWriteTd (HashCache h) (NumberU64 h)
                            (l_td st + sumDifficulty (take (S i) headers))
                    \/ op = OpPutHeader (NumberU64 h) (HashCache h) h).
Proof.
  induction headers as [|h rest IH]; intros st st' H.
  - simpl in H. simplify_eq. simpl. split; [lia|]. split; [lia|].
    exists []. split; [rewrite app_nil_r; reflexivity|].
    intros op. split; [intros Hin; inversion Hin|].
    intros (i & h & Hi & _). discriminate.
  - destruct (knownNumber (b_view (l_batch st)) h) eqn:Hk.
    + rewrite writeHeaders_skip in H by assumption.
      apply IH in H as (Htd & Hign & new & Hops & Hnew). simpl in *.
      rewrite Hk. split; [lia|]. split; [simpl; lia|].
      exists new. split; [assumption|].
      intros op. rewrite Hnew. split.
      * intros (i & h' & Hi & Hk' & Hop).
        exists (S i), h'. split; [assumption|]. split; [assumption|].
        replace (l_td st + (Difficulty h + sumDifficulty (take (S i) rest)))
          with (l_td st + Difficulty h + sumDifficulty (take (S i) rest)) by lia.
        assumption.
      * intros (i & h' & Hi & Hk' & Hop). destruct i as [|i].
        -- simpl in Hi. simplify_eq. congruence.
        -- exists i, h'. split; [assumption|]. split; [assumption|].
           replace (l_td st + Difficulty h + sumDifficulty (take (S i) rest))
             with (l_td st + (Difficulty h + sumDifficulty (take (S i) rest)))
             by lia.
           assumption.
    + destruct (writeHeaders_write _ _ _ _ Hk H) as (batch' & Hops' & Htable & Hrest).
      apply IH in Hrest as (Htd & Hign & new & Hops & Hnew). simpl in *.
      rewrite Hk.
      assert (Hsame : forall h', knownNumber (b_view batch') h'
                                 = knownNumber (b_view (l_batch st)) h').
      { intros h'. apply knownNumber_same_table. assumption. }
      rewrite (List.filter_ext _ _ Hsame) in Hign.
      split; [lia|]. split; [assumption|].
      eexists. split; [rewrite Hops, Hops', <- app_assoc; reflexivity|].
      intros op. rewrite elem_of_app, Hnew. split.
      * intros [Hin|(i & h' & Hi & Hk' & Hop)].
        -- exists 0%nat, h. split; [reflexivity|]. split; [assumption|].
           simpl. rewrite Z.add_0_r.
           apply elem_of_cons in Hin as [->|Hin]; [left; reflexivity|].
           apply elem_of_cons in Hin as [->|Hin]; [right; reflexivity|].
           inversion Hin.
        -- exists (S i), h'. split; [assumption|]. rewrite Hsame in Hk'.
           split; [assumption|].
           replace (l_td st + (Difficulty h + sumDifficulty (take (S i) rest)))
             with (l_td st + Difficulty h + sumDifficulty (take (S i) rest)) by lia.
           assumption.
      * intros (i & h' & Hi & Hk' & Hop). destruct i as [|i].
        -- left. simpl in Hi. simplify_eq. simpl in Hop. rewrite Z.add_0_r in Hop.
           destruct Hop as [-> | ->]; [left|right; left].
        -- right. exists i, h'. split; [assumption|]. rewrite Hsame.
           split; [assumption|].
           replace (l_td st + Difficulty h + sumDifficulty (take (S i) rest))
             with (l_td st + (Difficulty h + sumDifficulty (take (S i) rest)))
             by lia.
           assumption.
Qed.

End WriteLoop.

(** The amended C9. In the write loop with [new_canonical = false], a header
    whose hash already has an entry in the hash-to-number table gets neither
    its total difficulty nor itself written and is counted in [ignored];
    every other header gets both written; and each total difficulty written
    is [parent_td] plus the difficulties of all headers of the batch up to
    and including that header, the ignored ones among them. *)
Theorem writeHeaders_ignores_known_numbers
  (fault : IOp -> bool) (deepFork : bool) (db : DB) (parentTd : Z)
  (headers : list Header) (st' : LoopState) :
  writeHeaders fault false deepFork headers (mkLoop parentTd 0 false 0 (NewBatch db))
  = inl st' ->
  l_ignored st' = length (List.filter (knownNumber db) headers)
  /\ (forall h, h ∈ headers -> knownNumber db h = true ->
        forall number td header,
          (OpWriteTd (HashCache h) number td ∉ b_ops (l_batch st'))
          /\ (OpPutHeader number (HashCache h) header ∉ b_ops (l_batch st')))
  /\ (forall (i : nat) h, headers !! i = Some h -> knownNumber db h = false ->
        OpWriteTd (HashCache h) (NumberU64 h)
                  (parentTd + sumDifficulty (take (S i) headers))
          ∈ b_ops (l_batch st')
        /\ OpPutHeader (NumberU64 h) (HashCache h) h ∈ b_ops (l_batch st'))
  /\ (forall hash number td,
        OpWriteTd hash number td ∈ b_ops (l_batch st') ->
        exists (i : nat) h,
          headers !! i = Some h /\ hash = HashCache h /\ number = NumberU64 h
          /\ td = parentTd + sumDifficulty (take (S i) headers)).
Proof.
  intros H.
  apply writeHeaders_off_chain in H as (_ & Hign & new & Hops & Hnew).
  simpl in Hign, Hops, Hnew. subst new.
  split; [assumption|]. split; [|split].
  - intros h Hin Hk number td header. split; intros Hop;
      apply Hnew in Hop as (i & h' & Hi & Hk' & [Hop|Hop]); simplify_eq;
      unfold knownNumber in Hk, Hk';
      match goal with Heq : HashCache _ = HashCache _ |- _ => rewrite Heq in * end;
      congruence.
  - intros i h Hi Hk. split; apply Hnew; exists i, h; auto.
  - intros hash number td Hop.
    apply Hnew in Hop as (i & h & Hi & Hk & [Hop|Hop]); simplify_eq.
    exists i, h. auto.
Qed.

(** C9 as stated fails: in state (2) the header [H1'] is stored at its
    number and hash, the batch is not canonical, and still the call writes
    its total difficulty and the header again and ignores nothing. *)
Lemma stored_header_is_written_again :
  ReadHeader state2 hashH1' 1 = Some H1'_3
  /\ exists db',
       InsertHeaderChain noBadHashes noFault false 8 state2 [H1'_3]
       = Returns (mkResult false false 0 None) db'
           (mkEffects [OpWriteTd hashH1' 1 4; OpPutHeader 1 hashH1' H1'_3] 0).
Proof.
  split; [vm_compute; reflexivity|].
  eexists. vm_compute. reflexivity.
Qed.

(** ** Ancestor requests *)

Section Ancestors.

Variable db : DB.

(** The loop finds the headers of a walk and stops at the lower bound or at
    the first header the store lacks. *)
Lemma walkBack_walk (lower : Z) (fuel : nat) :
  0 <= lower ->
  forall parentNumber parentHash headers,
    lower - 1 <= parentNumber < two63 ->
    parentNumber - lower + 1 < Z.of_nat fuel ->
    exists hs hash' number',
      walked db parentHash parentNumber hs hash' number'
      /\ number' = parentNumber - Z.of_nat (length hs)
      /\ ((number' = lower - 1
           /\ walkBack fuel db lower parentNumber parentHash headers
              = Some (mkWalkBack (headers ++ hs) hash' number' None))
          \/ (lower <= number'
              /\ ReadHeader db hash' number' = None
              /\ walkBack fuel db lower parentNumber parentHash headers
                 = Some (mkWalkBack (headers ++ hs) hash' number'
                                    (Some ErrUnknownParent)))).
Proof.
  intros Hlower. induction fuel as [|fuel IH];
    intros parentNumber parentHash headers Hrange Hfuel.
  - lia.
  - simpl. destruct (parentNumber >=? lower) eqn:Hge.
    + rewrite Z.geb_leb in Hge. apply Z.leb_le in Hge.
      assert (Hu : u64 parentNumber = parentNumber).
      { apply u64_small. rewrite two64_eq. rewrite two63_eq in Hrange. lia. }
      rewrite Hu.
      destruct (ReadHeader db parentHash parentNumber) as [h|] eqn:Hread.
      * rewrite int64_small by (rewrite two63_eq in *; lia).
        destruct (IH (parentNumber - 1) (ParentHash h) (headers ++ [h]))
          as (hs & hash' & number' & Hwalk & Hnum & Hend); [lia|lia|].
        exists (h :: hs), hash', number'.
        split; [econstructor; eassumption|].
        split; [simpl length; lia|].
        rewrite <- app_assoc in Hend. exact Hend.
      * exists [], parentHash, parentNumber.
        split; [constructor|]. split; [simpl; lia|].
        right. rewrite app_nil_r. auto.
    + rewrite Z.geb_leb in Hge. apply Z.leb_gt in Hge.
      exists [], parentHash, parentNumber.
      split; [constructor|]. split; [simpl; lia|].
      left. rewrite app_nil_r. split; [lia|reflexivity].
Qed.

(** C8, as amended.  What the branch answers to a request within the range
    of Go's [int] that asks for no more headers than [make] can allocate: it
    caps [number_wanted] at [highest_number + 1] and reads the store
    backwards from [highest_hash] along the parent hashes, at the numbers
    [highest_number], [highest_number - 1], ...; when every header is there
    it answers with exactly these headers, in that order, and when one is
    missing it answers with no headers and an unknown-parent block error
    whose hash is the missing header's and whose number is one above the
    number at which the header was looked up. *)
Theorem answerHeaderRequest_walk (fuel : nat) (result : HeaderRequest) :
  0 <= req_HighestBlockNumber result ->
  req_HighestBlockNumber result + 1 < two63 ->
  0 <= req_Number result ->
  req_Number result * ptrSize <= maxAlloc ->
  let wanted := Z.min (req_HighestBlockNumber result + 1) (req_Number result) in
  wanted < Z.of_nat fuel ->
  exists hs hash' number',
    walked db (req_HighestHash result) (req_HighestBlockNumber result)
           hs hash' number'
    /\ number' = req_HighestBlockNumber result - Z.of_nat (length hs)
    /\ ((Z.of_nat (length hs) = wanted
         /\ answerHeaderRequest fuel db result
            = Responds (mkHeaderResponse (req_ID result) hs
                          (mkBlockError zeroHash 0 None)))
        \/ (Z.of_nat (length hs) < wanted
            /\ ReadHeader db hash' number' = None
            /\ answerHeaderRequest fuel db result
               = Responds (mkHeaderResponse (req_ID result) []
                             (mkBlockError hash' (number' + 1)
                                           (Some ErrUnknownParent))))).
Proof.
  intros Hhigh Hhigh' Hnum0 Hcap wanted Hfuel.
  pose proof two63_eq as E63. pose proof two64_eq as E64.
  assert (Hnum : 0 <= req_Number result < two63).
  { unfold maxAlloc, ptrSize in Hcap. lia. }
  unfold answerHeaderRequest.
  assert (Hlen : capOutOfRange
                   (if req_Number result >? 0 then int64 (req_Number result) else 1)
                 = false).
  { unfold capOutOfRange, maxAlloc, ptrSize in *. apply orb_false_intro.
    - apply Z.ltb_ge. destruct (req_Number result >? 0); [|lia].
      rewrite int64_small by lia. lia.
    - apply Z.ltb_ge. destruct (req_Number result >? 0); [|lia].
      rewrite int64_small by lia. lia. }
  rewrite Hlen.
  rewrite (u64_small (req_HighestBlockNumber result + 1)) by lia.
  assert (Hclamp : (if req_HighestBlockNumber result + 1 <? req_Number result
                    then req_HighestBlockNumber result + 1
                    else req_Number result) = wanted).
  { subst wanted.
    destruct (req_HighestBlockNumber result + 1 <? req_Number result) eqn:Hlt.
    - apply Z.ltb_lt in Hlt. lia.
    - apply Z.ltb_ge in Hlt. lia. }
  rewrite Hclamp.
  assert (Hw : 0 <= wanted <= req_HighestBlockNumber result + 1) by lia.
  rewrite (int64_small (req_HighestBlockNumber result + 1)) by lia.
  rewrite (int64_small wanted) by lia.
  rewrite (int64_small (req_HighestBlockNumber result + 1 - wanted)) by lia.
  rewrite (int64_small (req_HighestBlockNumber result)) by lia.
  destruct (walkBack_walk (req_HighestBlockNumber result + 1 - wanted) fuel
              ltac:(lia) (req_HighestBlockNumber result) (req_HighestHash result) [])
    as (hs & hash' & number' & Hwalk & Hnumber & Hend); [lia|lia|].
  exists hs, hash', number'. split; [assumption|]. split; [assumption|].
  simpl in Hend. destruct Hend as [(Hstop & ->)|(Hstop & Hmiss & ->)]; simpl.
  - left. split; [lia|reflexivity].
  - right. split; [lia|]. split; [assumption|].
    rewrite (int64_small (number' + 1)) by lia.
    rewrite (u64_small (number' + 1)) by lia. reflexivity.
Qed.

End Ancestors.

(** C8 as stated fails.  The store lacks the header at number 5 that the
    request starts from: the answer has no headers and an unknown-parent
    block error with the missing header's hash, but with the number 6.  And
    in state (1), where [H2], [H1] and [G] are stored, a request for [2^62]
    ancestors of [H2] gets no answer: the capacity is taken from the number
    wanted before the clamp, and [make] panics on it. *)
Lemma ancestor_request_not_as_claimed :
  (ReadHeader emptyDB 9%N 5 = None
   /\ exists resp,
        answerHeaderRequest 8 emptyDB (mkHeaderRequest 7 9%N 5 1) = Responds resp
        /\ resp_Headers resp = []
        /\ be_Err (resp_BlockError resp) = Some ErrUnknownParent
        /\ be_Hash (resp_BlockError resp) = 9%N
        /\ be_Number (resp_BlockError resp) = 6)
  /\ (walked state1 hashH2 2 [H2; H1; G] zeroHash (-1)
      /\ answerHeaderRequest 8 state1 (mkHeaderRequest 7 hashH2 2 (2 ^ 62))
         = AnswerPanics).
Proof.
  split.
  - split; [reflexivity|].
    eexists. split; [vm_compute; reflexivity|].
    simpl. repeat split.
  - split.
    + repeat (eapply walked_cons; [vm_compute; reflexivity|]). apply walked_nil.
    + vm_compute. reflexivity.
Qed.

(** ** The statements at concrete inputs *)

(** Five headers, every second seal checked. *)
Lemma VerifyHeaders_seal_bitmap_witness :
  exists seals,
    VerifyHeaders_seals 5 2 = Some seals
    /\ length seals = 5%nat
    /\ forall (j : nat) (b : bool),
         seals !! j = Some b ->
         (b = true <->
          0 < 2
          /\ (Z.of_nat j = Z.of_nat 5 - 1
              \/ exists i, 0 <= i < Z.of_nat 5 / 2 /\ Z.of_nat j = i * 2)).
Proof. apply (VerifyHeaders_seal_bitmap 5 2); lia. Defined.

(** The banned canonical batch: the error comes with [false, false, 0]. *)
Lemma InsertHeaderChain_error_triple_witness :
  newCanonical (abortWith ErrBlacklistedHash) = false
  /\ reorg (abortWith ErrBlacklistedHash) = false
  /\ forkBlockNumber (abortWith ErrBlacklistedHash) = 0.
Proof.
  apply (InsertHeaderChain_error_triple (banned hashH3) noFault false 8
           stateBanned [H1; H2; H3] (abortWith ErrBlacklistedHash)
           stateBanned noEffects).
  - vm_compute. reflexivity.
  - discriminate.
Defined.

(** [H2] on the genesis store has no parent; [H1; H3] does not link. *)
Lemma InsertHeaderChain_linkage_errors_witness :
  InsertHeaderChain noBadHashes noFault false 8 genesisDB [H2]
  = Returns (abortWith ErrUnknownParent) genesisDB noEffects
  /\ InsertHeaderChain noBadHashes noFault false 8 genesisDB [H1; H3]
     = Returns (abortWith ErrBrokenChain) genesisDB noEffects.
Proof.
  split.
  - apply (InsertHeaderChain_linkage_errors noBadHashes noFault false 8
             genesisDB [H2] 0 H2 []); vm_compute; reflexivity.
  - apply (InsertHeaderChain_linkage_errors noBadHashes noFault false 8
             genesisDB [H1; H3] 0 H1 [H3]
             ltac:(vm_compute; reflexivity) ltac:(vm_compute; reflexivity))
      with (parent := G) (parentTd := 1) (i := 0%nat) (a := H1) (b := H3);
      try (vm_compute; reflexivity).
    vm_compute. discriminate.
Defined.

(** The canonical batch [H1; H2] on state (1). *)
Lemma InsertHeaderChain_canonical_batch_noop_witness :
  InsertHeaderChain noBadHashes noFault false 8 state1 [H1; H2]
  = Returns (mkResult false false 0 None) state1 noEffects.
Proof.
  apply (InsertHeaderChain_canonical_batch_noop noBadHashes noFault false 8
           state1 [H1; H2]).
  intros h Hin.
  apply elem_of_cons in Hin as [->|Hin]; [repeat split; vm_compute; reflexivity|].
  apply elem_of_cons in Hin as [->|Hin]; [repeat split; vm_compute; reflexivity|].
  inversion Hin.
Defined.


(** The equally heavy, shorter sibling on state (1). *)
Lemma InsertHeaderChain_tie_lower_number_witness :
  newCanonical (resultOf
    (InsertHeaderChain noBadHashes noFault false 8 state1 [H1'_4])) = true.
Proof.
  apply (InsertHeaderChain_tie_lower_number noBadHashes noFault false 8
           state1 [H1'_4] 0 H1'_4 [] 1 2 5
           (resultOf (InsertHeaderChain noBadHashes noFault false 8 state1 [H1'_4]))
           state3
           (effectsOf (InsertHeaderChain noBadHashes noFault false 8 state1 [H1'_4])));
    vm_compute; reflexivity.
Defined.

(** [H1; H2] on state (3): [H2] was once the head and has a number on
    record, [H1] has none. *)
Lemma writeHeaders_ignores_known_numbers_witness :
  exists st',
    writeHeaders noFault false false [H1; H2] (mkLoop 1 0 false 0 (NewBatch state3))
    = inl st'
    /\ l_ignored st' = 1%nat
    /\ OpWriteTd hashH1 1 3 ∈ b_ops (l_batch st').
Proof.
  eexists. split; [vm_compute; reflexivity|].
  match goal with
  | |- l_ignored ?st = _ /\ _ =>
      destruct (writeHeaders_ignores_known_numbers noFault false state3 1
                  [H1; H2] st ltac:(vm_compute; reflexivity))
        as (Hign & _ & Hwritten & _)
  end.
  split; [exact Hign|].
  exact (proj1 (Hwritten 0%nat H1 ltac:(reflexivity) ltac:(vm_compute; reflexivity))).
Defined.

(** Five ancestors wanted from [H2] at number 2: three are there to give. *)
Lemma answerHeaderRequest_walk_witness :
  exists hs hash' number',
    walked state1 hashH2 2 hs hash' number'
    /\ number' = 2 - Z.of_nat (length hs)
    /\ ((Z.of_nat (length hs) = Z.min (2 + 1) 5
         /\ answerHeaderRequest 8 state1 (mkHeaderRequest 7 hashH2 2 5)
            = Responds (mkHeaderResponse 7 hs (mkBlockError zeroHash 0 None)))
        \/ (Z.of_nat (length hs) < Z.min (2 + 1) 5
            /\ ReadHeader state1 hash' number' = None
            /\ answerHeaderRequest 8 state1 (mkHeaderRequest 7 hashH2 2 5)
               = Responds (mkHeaderResponse 7 []
                             (mkBlockError hash' (number' + 1)
                                           (Some ErrUnknownParent))))).
Proof.
  apply (answerHeaderRequest_walk state1 8 (mkHeaderRequest 7 hashH2 2 5));
    vm_compute; (reflexivity || discriminate).
Defined.

(** * Further properties of the stage *)

(** ** What the writes leave in the view of a batch *)

Section Frames.

Variable fault : IOp -> bool.

Lemma WriteCanonicalHash_ok b hash number b' :
  WriteCanonicalHash fault b hash number = (b', None) ->
  b' = record b (setCanonical (b_view b) number hash)
              (OpWriteCanonicalHash hash number).
Proof. unfold WriteCanonicalHash. destruct (fault _); congruence. Qed.

Lemma WriteTd_ok b hash number td b' :
  WriteTd fault b hash number td = (b', None) ->
  b' = record b (setTd (b_view b) number hash td) (OpWriteTd hash number td).
Proof. unfold WriteTd. destruct (fault _); congruence. Qed.

Lemma PutHeader_ok b number hash h b' :
  PutHeader fault b number hash h = (b', None) ->
  b' = record b (setHeader (b_view b) number hash h) (OpPutHeader number hash h).
Proof. unfold PutHeader. destruct (fault _); congruence. Qed.

Lemma DeleteCanonicalHash_ok b number b' :
  DeleteCanonicalHash fault b number = (b', None) ->
  b' = record b (delCanonical (b_view b) number) (OpDeleteCanonicalHash number).
Proof. unfold DeleteCanonicalHash. destruct (fault _); congruence. Qed.

Lemma PutHeaderNumber_ok b hash number b' :
  PutHeaderNumber fault b hash number = (b', None) ->
  b' = record b (setHeaderNumber (b_view b) hash number)
              (OpPutHeaderNumber hash number).
Proof. unfold PutHeaderNumber. destruct (fault _); congruence. Qed.

Lemma WriteHeadHeaderHash_ok b hash b' :
  WriteHeadHeaderHash fault b hash = (b', None) ->
  b' = record b (setHeadHash (b_view b) hash) (OpWriteHeadHeaderHash hash).
Proof. unfold WriteHeadHeaderHash. destruct (fault _); congruence. Qed.

(** One turn of the write loop: the header is ignored, or its canonical
    pointer (on the canonical chain), its total difficulty and the header
    itself are written, in this order. *)
Lemma writeHeaders_cons nc deepFork h rest st st' :
  writeHeaders fault nc deepFork (h :: rest) st = inl st' ->
  (nc = false
   /\ knownNumber (b_view (l_batch st)) h = true
   /\ writeHeaders fault nc deepFork rest
        (mkLoop (l_td st + Difficulty h) (l_forkBlockNumber st) (l_fork st)
                (S (l_ignored st)) (l_batch st)) = inl st')
  \/ ((nc = true \/ knownNumber (b_view (l_batch st)) h = false)
      /\ exists fb fork batch',
           b_view batch'
           = setHeader
               (setTd (if nc
                       then setCanonical (b_view (l_batch st)) (NumberU64 h)
                                         (HashCache h)
                       else b_view (l_batch st))
                      (NumberU64 h) (HashCache h) (l_td st + Difficulty h))
               (NumberU64 h) (HashCache h) h
           /\ writeHeaders fault nc deepFork rest
                (mkLoop (l_td st + Difficulty h) fb fork (l_ignored st) batch')
              = inl st').
Proof.
  intros H. simpl in H. fold (knownNumber (b_view (l_batch st)) h) in H.
  destruct nc; simpl in H.
  - right. split; [left; reflexivity|].
    destruct (ReadCanonicalHash fault (b_view (l_batch st)) (NumberU64 h))
      as [ch [e|]]; [discriminate|].
    destruct (WriteCanonicalHash fault (l_batch st) (HashCache h) (NumberU64 h))
      as [b1 [e|]] eqn:Hc; [repeat case_match; discriminate|].
    destruct (EncodeToBytes fault h); [repeat case_match; discriminate|].
    destruct (WriteTd fault b1 (HashCache h) (NumberU64 h) (l_td st + Difficulty h))
      as [b2 [e|]] eqn:Ht; [repeat case_match; discriminate|].
    destruct (PutHeader fault b2 (NumberU64 h) (HashCache h) h)
      as [b3 [e|]] eqn:Hp; [repeat case_match; discriminate|].
    apply WriteCanonicalHash_ok in Hc. apply WriteTd_ok in Ht.
    apply PutHeader_ok in Hp. subst b1 b2 b3.
    repeat case_match; simplify_eq; eexists _, _, _; (split; [|eassumption]);
      reflexivity.
  - destruct (knownNumber (b_view (l_batch st)) h) eqn:Hk.
    + left. auto.
    + right. split; [right; reflexivity|].
      destruct (ReadCanonicalHash fault (b_view (l_batch st)) (NumberU64 h))
        as [ch [e|]]; [discriminate|].
      destruct (EncodeToBytes fault h); [discriminate|].
      destruct (WriteTd fault (l_batch st) (HashCache h) (NumberU64 h)
                        (l_td st + Difficulty h)) as [b2 [e|]] eqn:Ht;
        [discriminate|].
      destruct (PutHeader fault b2 (NumberU64 h) (HashCache h) h)
        as [b3 [e|]] eqn:Hp; [discriminate|].
      apply WriteTd_ok in Ht. apply PutHeader_ok in Hp. subst b2 b3.
      eexists _, _, _. split; [|eassumption]. reflexivity.
Qed.

(** A property of the store that every write of the loop keeps is kept by
    the loop. *)
Lemma writeHeaders_invariant (P : DB -> Prop) nc deepFork :
  (nc = true -> forall v number hash, P v -> P (setCanonical v number hash)) ->
  (forall v number hash td, P v -> P (setTd v number hash td)) ->
  (forall v number hash h, P v -> P (setHeader v number hash h)) ->
  forall headers st st',
    writeHeaders fault nc deepFork headers st = inl st' ->
    P (b_view (l_batch st)) -> P (b_view (l_batch st')).
Proof.
  intros Hcan Htd Hhd. induction headers as [|h rest IH]; intros st st' H HP.
  - simpl in H. simplify_eq. assumption.
  - apply writeHeaders_cons in H
      as [(_ & _ & H)|(_ & fb & fork & batch' & Hview & H)];
      apply IH in H; try assumption.
    simpl. rewrite Hview. apply Hhd, Htd.
    destruct nc; [apply Hcan; [reflexivity|assumption]|assumption].
Qed.

Lemma forkWalk_invariant (P : DB -> Prop) :
  (forall v number hash, P v -> P (setCanonical v number hash)) ->
  forall fuel batch number hash fb batch',
    forkWalk fault fuel batch number hash = WalkDone fb batch' ->
    P (b_view batch) -> P (b_view batch').
Proof.
  intros Hcan. induction fuel as [|fuel IH]; intros batch number hash fb batch' H HP;
    simpl in H; [discriminate|].
  destruct (ReadCanonicalHash fault (b_view batch) number) as [ch [e|]];
    [discriminate|].
  destruct (N.eqb hash ch); [simplify_eq; assumption|].
  destruct (WriteCanonicalHash fault batch hash number) as [b1 [e|]] eqn:Hc;
    [discriminate|].
  apply WriteCanonicalHash_ok in Hc. subst b1.
  destruct (ReadHeader _ hash number); [|discriminate].
  apply IH in H; [assumption|]. simpl. apply Hcan. assumption.
Qed.

Lemma deepForkFix_invariant (P : DB -> Prop) :
  (forall v number hash, P v -> P (setCanonical v number hash)) ->
  forall fuel batch first fb batch',
    deepForkFix fault fuel batch first = WalkDone fb batch' ->
    P (b_view batch) -> P (b_view batch').
Proof.
  intros Hcan fuel batch first fb batch' H HP. unfold deepForkFix in H.
  destruct (ReadHeader _ _ _) as [forkHeader|]; [|discriminate].
  destruct (forkWalk fault fuel batch _ _) as [fb1 b1| | |] eqn:Hwalk;
    try discriminate.
  destruct (WriteCanonicalHash fault b1 _ _) as [b2 [e|]] eqn:Hc; [discriminate|].
  apply WriteCanonicalHash_ok in Hc. simplify_eq. simpl. apply Hcan.
  eapply forkWalk_invariant; eassumption.
Qed.

Lemma deleteAbove_invariant (P : DB -> Prop) :
  (forall v number, P v -> P (delCanonical v number)) ->
  forall fuel batch i headNumber batch',
    deleteAbove fault fuel batch i headNumber = CleanDone batch' ->
    P (b_view batch) -> P (b_view batch').
Proof.
  intros Hdel. induction fuel as [|fuel IH]; intros batch i headNumber batch' H HP;
    simpl in H; [discriminate|].
  destruct (i <=? headNumber); [|simplify_eq; assumption].
  destruct (DeleteCanonicalHash fault batch i) as [b1 [e|]] eqn:Hd; [discriminate|].
  apply DeleteCanonicalHash_ok in Hd. subst b1.
  apply IH in H; [assumption|]. simpl. apply Hdel. assumption.
Qed.

(** The view after the head is recorded. *)
Lemma writeHead_ok batch lastHeader batch' :
  writeHead fault batch lastHeader = inl batch' ->
  b_view batch'
  = setHeadHash (setHeaderNumber (b_view batch) (HashCache lastHeader)
                                 (NumberU64 lastHeader))
                (HashCache lastHeader).
Proof.
  unfold writeHead. intros H.
  destruct (PutHeaderNumber fault batch _ _) as [b1 [e|]] eqn:Hn; [discriminate|].
  destruct (WriteHeadHeaderHash fault b1 _) as [b2 [e|]] eqn:Hh; [discriminate|].
  apply PutHeaderNumber_ok in Hn. apply WriteHeadHeaderHash_ok in Hh.
  simplify_eq. reflexivity.
Qed.

End Frames.

(** ** What a call leaves in the store *)

Section Store.

Variable BadHashes : Hash -> bool.
Variable fault : IOp -> bool.
Variable coin : bool.

(** A property of the store that every kind of write keeps is kept by a
    call, however it returns. *)
Lemma InsertHeaderChain_invariant (P : DB -> Prop) :
  (forall v number hash, P v -> P (setCanonical v number hash)) ->
  (forall v number hash td, P v -> P (setTd v number hash td)) ->
  (forall v number hash h, P v -> P (setHeader v number hash h)) ->
  (forall v number, P v -> P (delCanonical v number)) ->
  (forall v hash number, P v -> P (setHeaderNumber v hash number)) ->
  (forall v hash, P v -> P (setHeadHash v hash)) ->
  forall fuel db headers r db' eff,
    InsertHeaderChain BadHashes fault coin fuel db headers = Returns r db' eff ->
    P db -> P db'.
Proof.
  intros Hcan Htd Hhd Hdel Hnum Hhead fuel db headers r db' eff Hret HP.
  destruct (err r) as [e|] eqn:Herr.
  - destruct (InsertHeaderChain_abort _ _ _ _ _ _ _ _ _ Hret) as (e' & _ & -> & _);
      [congruence|assumption].
  - destruct (InsertHeaderChain_success _ _ _ _ _ _ _ _ _ Hret Herr)
      as [k Hskip Hdrop
         |k first rest parent parentTd externTd headNumber localTd ch lastHeader
            nc deepFork st fb batch1 batch2 batch3
            Hskip Hdrop Hparent Hptd Hsum Hhn Hltd Hlast Hnc Hch Hdeep
            Hloop Hwalk Hclean Hhead' Hcommit]; [assumption|].
    assert (P1 : P (b_view (l_batch st))).
    { eapply (writeHeaders_invariant fault P); try eassumption; auto. }
    assert (P2 : P (b_view batch1)).
    { destruct deepFork; [|congruence].
      eapply (deepForkFix_invariant fault P); eassumption. }
    assert (P3 : P (b_view batch2)).
    { destruct (nc && (fb <? headNumber)); [|congruence].
      eapply (deleteAbove_invariant fault P); eassumption. }
    destruct nc; [|congruence].
    apply writeHead_ok in Hhead'. rewrite Hhead'. auto.
Qed.

Lemma forkChoice_true_iff externTd localTd lastNumber headNumber :
  forkChoice coin externTd localTd lastNumber headNumber = true <->
  externTd > localTd
  \/ (externTd = localTd
      /\ (lastNumber < headNumber \/ (lastNumber = headNumber /\ coin = true))).
Proof.
  unfold forkChoice. rewrite Z.gtb_ltb.
  destruct (Z.ltb_spec localTd externTd) as [Hgt|Hle]; simpl.
  - split; [intros _; left; lia|reflexivity].
  - destruct (Z.eqb_spec externTd localTd) as [Heq|Hne].
    + destruct (Z.ltb_spec lastNumber headNumber) as [Hlt|Hge].
      * split; [intros _; right; auto|reflexivity].
      * destruct (Z.eqb_spec lastNumber headNumber) as [Hsame|Hdiff].
        -- split; [intros ->; right; auto|].
           intros [?|(_ & [?|(_ & ->)])]; (lia || reflexivity).
        -- split; [discriminate|]. intros [?|(_ & [?|(? & _)])]; lia.
    + split; [discriminate|]. intros [?|(? & _)]; lia.
Qed.

End Store.

(** X1. A call that returns an error leaves the store exactly as it was and
    commits no write of its batch. *)
Theorem InsertHeaderChain_error_atomic
  (BadHashes : Hash -> bool) (fault : IOp -> bool) (coin : bool) (fuel : nat)
  (db : DB) (headers : list Header) (r : Result) (db' : DB) (eff : Effects) :
  InsertHeaderChain BadHashes fault coin fuel db headers = Returns r db' eff ->
  err r <> None ->
  db' = db /\ committed eff = [].
Proof.
  intros Hret Herr.
  destruct (InsertHeaderChain_abort _ _ _ _ _ _ _ _ _ Hret Herr) as (e & _ & -> & ->).
  split; reflexivity.
Qed.

(** X2. No call removes a stored header, a stored total difficulty or an
    entry of the hash-to-number table, and none unsets the head hash. *)
Theorem InsertHeaderChain_keeps_records
  (BadHashes : Hash -> bool) (fault : IOp -> bool) (coin : bool) (fuel : nat)
  (db : DB) (headers : list Header) (r : Result) (db' : DB) (eff : Effects) :
  InsertHeaderChain BadHashes fault coin fuel db headers = Returns r db' eff ->
  (forall hash number, is_Some (ReadHeader db hash number) ->
                       is_Some (ReadHeader db' hash number))
  /\ (forall hash number, is_Some (db_td db !! (number, hash)) ->
                          is_Some (db_td db' !! (number, hash)))
  /\ (forall hash, is_Some (ReadHeaderNumber db hash) ->
                   is_Some (ReadHeaderNumber db' hash))
  /\ (is_Some (db_headHash db) -> is_Some (db_headHash db')).
Proof.
  intros Hret. repeat split.
  - intros hash number.
    apply (InsertHeaderChain_invariant BadHashes fault coin
             (fun v => is_Some (ReadHeader v hash number)))
      with (fuel := fuel) (headers := headers) (r := r) (eff := eff);
      try assumption; unfold ReadHeader; simpl; intros; try assumption.
    rewrite lookup_insert_is_Some. destruct (decide ((number0, hash0) = (number, hash)));
      auto.
  - intros hash number.
    apply (InsertHeaderChain_invariant BadHashes fault coin
             (fun v => is_Some (db_td v !! (number, hash))))
      with (fuel := fuel) (headers := headers) (r := r) (eff := eff);
      try assumption; simpl; intros; try assumption.
    rewrite lookup_insert_is_Some. destruct (decide ((number0, hash0) = (number, hash)));
      auto.
  - intros hash.
    apply (InsertHeaderChain_invariant BadHashes fault coin
             (fun v => is_Some (ReadHeaderNumber v hash)))
      with (fuel := fuel) (headers := headers) (r := r) (eff := eff);
      try assumption; unfold ReadHeaderNumber; simpl; intros; try assumption.
    rewrite fmap_is_Some in *. rewrite lookup_insert_is_Some.
    destruct (decide (hash0 = hash)); auto.
  - apply (InsertHeaderChain_invariant BadHashes fault coin
             (fun v => is_Some (db_headHash v)))
      with (fuel := fuel) (headers := headers) (r := r) (eff := eff);
      try assumption; simpl; intros; try assumption. eexists. reflexivity.
Qed.

(** ** Off and on the canonical chain *)

Section Chains.

Variable BadHashes : Hash -> bool.
Variable fault : IOp -> bool.
Variable coin : bool.

Lemma knownNumber_false_lookup db h :
  knownNumber db h = false -> db_headerNumber db !! HashCache h = None.
Proof.
  intros Hk. apply knownNumber_false in Hk. unfold ReadHeaderNumber in Hk.
  apply fmap_None in Hk. assumption.
Qed.

(** Off the canonical chain the loop touches neither the canonical
    pointers, the head hash and the number table, nor the records of a hash
    that has a number. *)
Lemma writeHeaders_off_chain_view deepFork headers :
  forall st st',
    writeHeaders fault false deepFork headers st = inl st' ->
    db_canonical (b_view (l_batch st')) = db_canonical (b_view (l_batch st))
    /\ db_headHash (b_view (l_batch st')) = db_headHash (b_view (l_batch st))
    /\ db_headerNumber (b_view (l_batch st')) = db_headerNumber (b_view (l_batch st))
    /\ forall hash number,
         db_headerNumber (b_view (l_batch st)) !! hash <> None ->
         db_headers (b_view (l_batch st')) !! (number, hash)
         = db_headers (b_view (l_batch st)) !! (number, hash)
         /\ db_td (b_view (l_batch st')) !! (number, hash)
            = db_td (b_view (l_batch st)) !! (number, hash).
Proof.
  induction headers as [|h rest IH]; intros st st' H.
  - simpl in H. simplify_eq. auto.
  - apply writeHeaders_cons in H
      as [(_ & _ & H)|([Hnc|Hk] & fb & fork & batch' & Hview & H)];
      [apply IH in H; assumption|discriminate|].
    apply IH in H as (Hcan & Hhead & Hnum & Hrec). simpl in *.
    rewrite Hview in *. simpl in *.
    repeat split; try assumption;
      destruct (Hrec hash number) as [Hh Ht]; try assumption;
      [rewrite Hh|rewrite Ht]; apply lookup_insert_ne;
      intros Heq; simplify_eq; apply knownNumber_false_lookup in Hk; congruence.
Qed.

(** On the canonical chain the loop leaves the last header of the batch and
    its total difficulty under the header's number and hash. *)
Lemma writeHeaders_on_chain_last deepFork pre last :
  forall st st',
    writeHeaders fault true deepFork (pre ++ [last]) st = inl st' ->
    db_headers (b_view (l_batch st')) !! (NumberU64 last, HashCache last) = Some last
    /\ db_td (b_view (l_batch st')) !! (NumberU64 last, HashCache last)
       = Some (l_td st + sumDifficulty (pre ++ [last])).
Proof.
  induction pre as [|p pre IH]; intros st st' H.
  - apply writeHeaders_cons in H
      as [(Hnc & _)|(_ & fb & fork & batch' & Hview & H)]; [discriminate|].
    simpl in H. simplify_eq. simpl. rewrite Hview. simpl.
    rewrite !lookup_insert_eq. split; [reflexivity|]. f_equal. lia.
  - change ((p :: pre) ++ [last]) with (p :: (pre ++ [last])) in *.
    apply writeHeaders_cons in H
      as [(Hnc & _)|(_ & fb & fork & batch' & Hview & H)]; [discriminate|].
    apply IH in H as (Hh & Ht). simpl in Ht. split; [assumption|].
    rewrite Ht. simpl. f_equal. lia.
Qed.

Lemma last_split (first : Header) rest :
  exists pre, first :: rest = pre ++ [List.last (first :: rest) first].
Proof.
  exists (removelast (first :: rest)). apply app_removelast_last. discriminate.
Qed.

(** The tables after a call that does not make its batch canonical. *)
Lemma InsertHeaderChain_off_chain fuel db headers r db' eff :
  InsertHeaderChain BadHashes fault coin fuel db headers = Returns r db' eff ->
  newCanonical r = false ->
  db_canonical db' = db_canonical db
  /\ db_headHash db' = db_headHash db
  /\ db_headerNumber db' = db_headerNumber db
  /\ forall hash number,
       db_headerNumber db !! hash <> None ->
       db_headers db' !! (number, hash) = db_headers db !! (number, hash)
       /\ db_td db' !! (number, hash) = db_td db !! (number, hash).
Proof.
  intros Hret Hnc.
  destruct (err r) as [e|] eqn:Herr.
  - destruct (InsertHeaderChain_abort _ _ _ _ _ _ _ _ _ Hret)
      as (e' & _ & -> & _); [congruence|auto].
  - destruct (InsertHeaderChain_success _ _ _ _ _ _ _ _ _ Hret Herr)
      as [k Hskip Hdrop
         |k first rest parent parentTd externTd headNumber localTd ch lastHeader
            nc deepFork st fb batch1 batch2 batch3
            Hskip Hdrop Hparent Hptd Hsum Hhn Hltd Hlast Hnc' Hch Hdeep
            Hloop Hwalk Hclean Hhead Hcommit]; [auto|].
    simpl in Hnc. rewrite Hnc in *. simpl in Hdeep. subst deepFork.
    simpl in Hwalk, Hclean, Hhead. simplify_eq.
    apply writeHeaders_off_chain_view in Hloop. exact Hloop.
Qed.

(** The tables after a call that makes its batch canonical, and the fork
    choice that made it so. *)
Lemma InsertHeaderChain_on_chain fuel db headers r db' eff k first rest parentTd :
  InsertHeaderChain BadHashes fault coin fuel db headers = Returns r db' eff ->
  newCanonical r = true ->
  skipCanonical BadHashes fault db headers 0 = inl k ->
  drop k headers = first :: rest ->
  ReadTd fault db (ParentHash first) (u64 (NumberU64 first - 1))
  = (Some parentTd, None) ->
  let lastHeader := List.last (first :: rest) first in
  let key := (NumberU64 lastHeader, HashCache lastHeader) in
  db_headHash db' = Some (HashCache lastHeader)
  /\ db_headerNumber db' !! HashCache lastHeader = Some (NumberU64 lastHeader)
  /\ db_headers db' !! key = Some lastHeader
  /\ db_td db' !! key = Some (parentTd + sumDifficulty (first :: rest))
  /\ exists headNumber localTd,
       ReadHeaderNumber db (ReadHeadHeaderHash db) = Some headNumber
       /\ ReadTd fault db (ReadHeadHeaderHash db) headNumber = (Some localTd, None)
       /\ forkChoice coin (parentTd + sumDifficulty (first :: rest)) localTd
                     (NumberU64 lastHeader) headNumber = true.
Proof.
  intros Hret Hnc Hskip Hdrop Hptd lastHeader key.
  assert (Herr : err r = None).
  { destruct (err r) eqn:Herr; [|reflexivity].
    destruct (InsertHeaderChain_abort _ _ _ _ _ _ _ _ _ Hret) as (e' & -> & _);
      [congruence|discriminate]. }
  destruct (InsertHeaderChain_success _ _ _ _ _ _ _ _ _ Hret Herr)
    as [k' Hskip' Hdrop'
       |k' first' rest' parent parentTd' externTd headNumber localTd ch lastHeader'
          nc deepFork st fb batch1 batch2 batch3
          Hskip' Hdrop' Hparent Hptd' Hsum Hhn Hltd Hlast Hnc' Hch Hdeep
          Hloop Hwalk Hclean Hhead Hcommit]; [discriminate|].
  assert (k' = k) by congruence. subst k'.
  assert (first' = first /\ rest' = rest) as [-> ->] by (split; congruence).
  assert (parentTd' = parentTd) by congruence. subst parentTd'.
  simpl in Hnc. rewrite Hnc in *.
  assert (lastHeader' = lastHeader) by (subst; reflexivity). subst lastHeader'.
  apply sumChain_total in Hsum. subst externTd.
  destruct (last_split first rest) as [pre Hpre]. fold lastHeader in Hpre.
  rewrite Hpre in Hloop. apply writeHeaders_on_chain_last in Hloop.
  rewrite <- Hpre in Hloop. simpl in Hloop. fold key in Hloop.
  set (P := fun v : DB =>
              db_headers v !! key = Some lastHeader
              /\ db_td v !! key = Some (parentTd + sumDifficulty (first :: rest))).
  assert (P1 : P (b_view batch1)).
  { destruct deepFork; [|simplify_eq; exact Hloop].
    eapply (deepForkFix_invariant fault P); [|eassumption|exact Hloop]. auto. }
  assert (P2 : P (b_view batch2)).
  { destruct (true && (fb <? headNumber)); [|simplify_eq; exact P1].
    eapply (deleteAbove_invariant fault P); [|eassumption|exact P1]. auto. }
  apply writeHead_ok in Hhead. destruct P2 as [Hh Ht].
  rewrite Hhead. simpl. rewrite lookup_insert_eq.
  repeat split; try assumption; try reflexivity.
  exists headNumber, localTd. auto.
Qed.

(** X3. A call that judges its batch not canonical (and any call that
    returns an error) leaves every canonical pointer, the head hash and the
    hash-to-number table as they were, and does not touch the header or the
    total difficulty of any hash that has a number; so the current header
    stays what it was. *)
Theorem InsertHeaderChain_off_chain_frame
  (fuel : nat) (db : DB) (headers : list Header) (r : Result) (db' : DB)
  (eff : Effects) :
  InsertHeaderChain BadHashes fault coin fuel db headers = Returns r db' eff ->
  newCanonical r = false ->
  db_canonical db' = db_canonical db
  /\ db_headHash db' = db_headHash db
  /\ db_headerNumber db' = db_headerNumber db
  /\ (forall hash number,
        ReadHeaderNumber db hash <> None ->
        ReadHeader db' hash number = ReadHeader db hash number
        /\ db_td db' !! (number, hash) = db_td db !! (number, hash))
  /\ CurrentHeader db' = CurrentHeader db.
Proof.
  intros Hret Hnc.
  destruct (InsertHeaderChain_off_chain _ _ _ _ _ _ Hret Hnc)
    as (Hcan & Hhead & Hnum & Hrec).
  repeat split; try assumption.
  - unfold ReadHeader. apply Hrec. unfold ReadHeaderNumber in H.
    intros Hnone. apply H. rewrite Hnone. reflexivity.
  - apply Hrec. unfold ReadHeaderNumber in H.
    intros Hnone. apply H. rewrite Hnone. reflexivity.
  - unfold CurrentHeader, ReadHeadHeaderHash, ReadHeaderNumber.
    rewrite Hhead, Hnum.
    destruct (db_headerNumber db !! default zeroHash (db_headHash db)) as [n|] eqn:Hn;
      [|reflexivity].
    simpl. f_equal. unfold ReadHeader. apply Hrec. congruence.
Qed.

(** X4. A call that judges its batch canonical makes the last header of the
    batch the head: afterwards the head hash is its hash, the hash has its
    number, the header is stored under them, so that [CurrentHeader] returns
    it, and its total difficulty is the parent's plus the difficulties of
    the remainder of the batch. *)
Theorem InsertHeaderChain_new_head
  (fuel : nat) (db : DB) (headers : list Header) (r : Result) (db' : DB)
  (eff : Effects) (k : nat) (first : Header) (rest : list Header) (parentTd : Z) :
  InsertHeaderChain BadHashes fault coin fuel db headers = Returns r db' eff ->
  newCanonical r = true ->
  skipCanonical BadHashes fault db headers 0 = inl k ->
  drop k headers = first :: rest ->
  ReadTd fault db (ParentHash first) (u64 (NumberU64 first - 1))
  = (Some parentTd, None) ->
  let lastHeader := List.last (first :: rest) first in
  ReadHeadHeaderHash db' = HashCache lastHeader
  /\ ReadHeaderNumber db' (HashCache lastHeader) = Some (NumberU64 lastHeader)
  /\ CurrentHeader db' = Some (Some lastHeader)
  /\ db_td db' !! (NumberU64 lastHeader, HashCache lastHeader)
     = Some (parentTd + sumDifficulty (first :: rest)).
Proof.
  intros Hret Hnc Hskip Hdrop Hptd lastHeader.
  destruct (InsertHeaderChain_on_chain _ _ _ _ _ _ _ _ _ _ Hret Hnc Hskip Hdrop Hptd)
    as (Hhead & Hnum & Hh & Ht & _). fold lastHeader in Hhead, Hnum, Hh, Ht.
  assert (Hhash : ReadHeadHeaderHash db' = HashCache lastHeader).
  { unfold ReadHeadHeaderHash. rewrite Hhead. reflexivity. }
  assert (Hnumber : ReadHeaderNumber db' (HashCache lastHeader)
                    = Some (NumberU64 lastHeader)).
  { unfold ReadHeaderNumber. rewrite Hnum. simpl. f_equal.
    unfold NumberU64, u64. apply Z.mod_mod. discriminate. }
  split; [assumption|]. split; [assumption|]. split; [|assumption].
  unfold CurrentHeader. rewrite Hhash, Hnumber. do 2 f_equal. exact Hh.
Qed.

Lemma ReadTd_some db hash number td :
  ReadTd fault db hash number = (Some td, None) ->
  db_td db !! (number, hash) = Some td.
Proof. unfold ReadTd. destruct (fault _); congruence. Qed.

(** X5. The total difficulty of the head never decreases: when the head of
    the store has a number and a total difficulty, then after any call that
    returns the head has a number and a total difficulty that is at least
    the old one. *)
Theorem InsertHeaderChain_head_td_monotone
  (fuel : nat) (db : DB) (headers : list Header) (r : Result) (db' : DB)
  (eff : Effects) (headNumber localTd : Z) :
  InsertHeaderChain BadHashes fault coin fuel db headers = Returns r db' eff ->
  ReadHeaderNumber db (ReadHeadHeaderHash db) = Some headNumber ->
  db_td db !! (headNumber, ReadHeadHeaderHash db) = Some localTd ->
  exists headNumber' td',
    ReadHeaderNumber db' (ReadHeadHeaderHash db') = Some headNumber'
    /\ db_td db' !! (headNumber', ReadHeadHeaderHash db') = Some td'
    /\ localTd <= td'.
Proof.
  intros Hret Hhn Hltd.
  destruct (newCanonical r) eqn:Hnc.
  - assert (Herr : err r = None).
    { destruct (err r) eqn:Herr; [|reflexivity].
      destruct (InsertHeaderChain_abort _ _ _ _ _ _ _ _ _ Hret) as (e' & -> & _);
        [congruence|discriminate]. }
    destruct (InsertHeaderChain_success _ _ _ _ _ _ _ _ _ Hret Herr)
      as [k Hskip Hdrop
         |k first rest parent parentTd externTd headNumber0 localTd0 ch lastHeader
            nc deepFork st fb batch1 batch2 batch3
            Hskip Hdrop Hparent Hptd Hsum Hhn0 Hltd0 Hlast Hnc' Hch Hdeep
            Hloop Hwalk Hclean Hhead Hcommit]; [discriminate|].
    destruct (InsertHeaderChain_on_chain _ _ _ _ _ _ _ _ _ _ Hret Hnc Hskip Hdrop Hptd)
      as (Hhead' & Hnum & _ & Ht & hn1 & ltd1 & Hhn1 & Hltd1 & Hchoice).
    exists (NumberU64 (List.last (first :: rest) first)),
           (parentTd + sumDifficulty (first :: rest)).
    assert (Hhash : ReadHeadHeaderHash (b_view batch3)
                    = HashCache (List.last (first :: rest) first)).
    { unfold ReadHeadHeaderHash. rewrite Hhead'. reflexivity. }
    rewrite Hhash. split; [|split; [exact Ht|]].
    + unfold ReadHeaderNumber. rewrite Hnum. simpl. f_equal.
      unfold NumberU64, u64. apply Z.mod_mod. discriminate.
    + assert (hn1 = headNumber) by congruence. subst hn1.
      apply ReadTd_some in Hltd1.
      assert (ltd1 = localTd) by congruence. subst ltd1.
      apply forkChoice_true_iff in Hchoice. lia.
  - destruct (InsertHeaderChain_off_chain _ _ _ _ _ _ Hret Hnc)
      as (_ & Hhead & Hnum & Hrec).
    exists headNumber, localTd.
    assert (Hhash : ReadHeadHeaderHash db' = ReadHeadHeaderHash db).
    { unfold ReadHeadHeaderHash. rewrite Hhead. reflexivity. }
    rewrite Hhash. split; [|split; [|lia]].
    + unfold ReadHeaderNumber in *. rewrite Hnum. assumption.
    + rewrite <- Hltd. apply Hrec. unfold ReadHeaderNumber in Hhn.
      intros Hnone. rewrite Hnone in Hhn. discriminate.
Qed.

(** X6. The fork choice of a call that returns without an error, with a
    header left after the canonical prefix: the batch is judged canonical
    exactly when its total difficulty is above the head's, or equals it
    while its last number is below the head's number, or equals it at the
    same number and the coin falls for it. *)
Theorem InsertHeaderChain_fork_choice
  (fuel : nat) (db : DB) (headers : list Header) (k : nat) (first : Header)
  (rest : list Header) (parentTd headNumber localTd : Z)
  (r : Result) (db' : DB) (eff : Effects) :
  skipCanonical BadHashes fault db headers 0 = inl k ->
  drop k headers = first :: rest ->
  ReadTd fault db (ParentHash first) (u64 (NumberU64 first - 1))
  = (Some parentTd, None) ->
  ReadHeaderNumber db (ReadHeadHeaderHash db) = Some headNumber ->
  ReadTd fault db (ReadHeadHeaderHash db) headNumber = (Some localTd, None) ->
  InsertHeaderChain BadHashes fault coin fuel db headers = Returns r db' eff ->
  err r = None ->
  let externTd := parentTd + sumDifficulty (first :: rest) in
  let lastNumber := NumberU64 (List.last (first :: rest) first) in
  newCanonical r = true <->
  externTd > localTd
  \/ (externTd = localTd
      /\ (lastNumber < headNumber \/ (lastNumber = headNumber /\ coin = true))).
Proof.
  intros Hskip Hdrop Hptd Hhn Hltd Hret Herr externTd lastNumber.
  destruct (InsertHeaderChain_success _ _ _ _ _ _ _ _ _ Hret Herr)
    as [k' Hskip' Hdrop'
       |k' first' rest' parent parentTd' externTd' headNumber' localTd' ch lastHeader
          nc deepFork st fb batch1 batch2 batch3
          Hskip' Hdrop' Hparent Hptd' Hsum Hhn' Hltd' Hlast Hnc Hch Hdeep
          Hloop Hwalk Hclean Hhead Hcommit]; [congruence|].
  assert (k' = k) by congruence. subst k'.
  assert (first' = first /\ rest' = rest) as [-> ->] by (split; congruence).
  assert (headNumber' = headNumber) by congruence. subst headNumber'.
  assert (parentTd' = parentTd) by congruence. subst parentTd'.
  assert (localTd' = localTd) by congruence. subst localTd'.
  apply sumChain_total in Hsum. simpl newCanonical.
  rewrite Hnc, Hlast, Hsum. apply forkChoice_true_iff.
Qed.

End Chains.

(** ** Canonical pointers after a call *)

Section Pointers.

Variable BadHashes : Hash -> bool.
Variable fault : IOp -> bool.
Variable coin : bool.

(** X7. A banned header that is reached while every header before it in the
    batch is canonical and not banned, and that is canonical itself, aborts
    the call with the ban error; the store stays as it was. *)
Theorem InsertHeaderChain_banned_canonical
  (fuel : nat) (db : DB) (pre : list Header) (h : Header) (post : list Header) :
  (forall h', h' ∈ pre ++ [h] ->
     fault (IoReadCanonicalHash (NumberU64 h')) = false
     /\ db_canonical db !! NumberU64 h' = Some (HashCache h')) ->
  (forall h', h' ∈ pre -> BadHashes (HashCache h') = false) ->
  BadHashes (HashCache h) = true ->
  InsertHeaderChain BadHashes fault coin fuel db (pre ++ h :: post)
  = Returns (abortWith ErrBlacklistedHash) db noEffects.
Proof.
  intros Hcan Hgood Hbad. unfold InsertHeaderChain.
  rewrite (skipCanonical_banned BadHashes fault db pre h post 0 Hcan Hgood Hbad).
  reflexivity.
Qed.

(** The canonical pointers after the cleanup loop. *)
Lemma deleteAbove_canonical fuel :
  forall batch i headNumber batch',
    0 <= i < two64 ->
    0 <= headNumber < two64 ->
    deleteAbove fault fuel batch i headNumber = CleanDone batch' ->
    forall n,
      db_canonical (b_view batch') !! n
      = if bool_decide (i <= n <= headNumber) then None
        else db_canonical (b_view batch) !! n.
Proof.
  induction fuel as [|fuel IH]; intros batch i headNumber batch' Hi Hhead H n;
    simpl in H; [discriminate|].
  destruct (i <=? headNumber) eqn:Hle.
  - apply Z.leb_le in Hle.
    destruct (DeleteCanonicalHash fault batch i) as [batch1 [e|]] eqn:Hdel;
      [discriminate|].
    apply DeleteCanonicalHash_ok in Hdel. subst batch1.
    destruct (decide (i + 1 < two64)) as [Hin|Hout].
    + rewrite u64_small in H by lia.
      assert (Hi' : 0 <= i + 1 < two64) by lia.
      rewrite (IH _ _ _ _ Hi' Hhead H n). simpl.
      repeat case_bool_decide; try lia; try reflexivity.
      * assert (n = i) by lia. subst n. apply lookup_delete_eq.
      * apply lookup_delete_ne. lia.
    + exfalso. assert (headNumber = two64 - 1) by lia. subst headNumber.
      eapply deleteAbove_at_max; [|eassumption]. apply u64_range.
  - apply Z.leb_gt in Hle. simplify_eq.
    case_bool_decide; [lia|reflexivity].
Qed.

(** X8. After a call that reports a reorganisation, no canonical pointer is
    left at a number above the new head's number up to the old head's
    number (the new head's number being short of the largest [uint64]). *)
Theorem InsertHeaderChain_reorg_clears_pointers
  (fuel : nat) (db : DB) (headers : list Header) (r : Result) (db' : DB)
  (eff : Effects) (k : nat) (headNumber : Z) (d : Header) :
  InsertHeaderChain BadHashes fault coin fuel db headers = Returns r db' eff ->
  reorg r = true ->
  skipCanonical BadHashes fault db headers 0 = inl k ->
  ReadHeaderNumber db (ReadHeadHeaderHash db) = Some headNumber ->
  let lastNumber := NumberU64 (List.last (drop k headers) d) in
  lastNumber + 1 < two64 ->
  forall n, lastNumber < n <= headNumber -> db_canonical db' !! n = None.
Proof.
  intros Hret Hreorg Hskip Hhn lastNumber Hnowrap n Hn.
  assert (Herr : err r = None).
  { destruct (err r) eqn:Herr; [|reflexivity].
    destruct (InsertHeaderChain_abort _ _ _ _ _ _ _ _ _ Hret) as (e' & -> & _);
      [congruence|discriminate]. }
  destruct (InsertHeaderChain_success _ _ _ _ _ _ _ _ _ Hret Herr)
    as [k' Hskip' Hdrop
       |k' first rest parent parentTd externTd headNumber' localTd ch lastHeader
          nc deepFork st fb batch1 batch2 batch3
          Hskip' Hdrop Hparent Hptd Hsum Hhn' Hltd Hlast Hnc Hch Hdeep
          Hloop Hwalk Hclean Hhead Hcommit]; [discriminate|].
  assert (k' = k) by congruence. subst k'.
  assert (headNumber' = headNumber) by congruence. subst headNumber'.
  simpl in Hreorg. rewrite Hreorg in Hclean.
  apply andb_true_iff in Hreorg as [Hnc' _]. rewrite Hnc' in Hhead.
  subst lastNumber. rewrite Hdrop in *.
  rewrite (last_default_irrelevant first rest d first), <- Hlast in *.
  pose proof (u64_range (Number lastHeader)) as Hlastrange.
  fold (NumberU64 lastHeader) in Hlastrange.
  apply deleteAbove_canonical with (n := n) in Hclean;
    [|apply u64_range|eapply ReadHeaderNumber_range; eassumption].
  rewrite u64_small in Hclean by lia.
  rewrite bool_decide_eq_true_2 in Hclean by lia.
  apply writeHead_ok in Hhead. rewrite Hhead. simpl. exact Hclean.
Qed.

(** On the canonical chain the loop does not touch what is stored under a
    number that no header of the batch has. *)
Lemma writeHeaders_on_chain_other deepFork n headers :
  forall st st',
    writeHeaders fault true deepFork headers st = inl st' ->
    (forall h, h ∈ headers -> NumberU64 h <> n) ->
    db_canonical (b_view (l_batch st')) !! n = db_canonical (b_view (l_batch st)) !! n
    /\ forall hash,
         db_headers (b_view (l_batch st')) !! (n, hash)
         = db_headers (b_view (l_batch st)) !! (n, hash).
Proof.
  induction headers as [|h rest IH]; intros st st' H Hother.
  - simpl in H. simplify_eq. auto.
  - apply writeHeaders_cons in H
      as [(Hnc & _)|(_ & fb & fork & batch' & Hview & H)]; [discriminate|].
    apply IH in H as (Hcan & Hhd).
    2:{ intros h' Hin. apply Hother. right. assumption. }
    simpl in Hcan, Hhd. rewrite Hview in Hcan, Hhd. simpl in Hcan, Hhd.
    assert (Hne : NumberU64 h <> n) by (apply Hother; left).
    split.
    + rewrite Hcan. apply lookup_insert_ne. assumption.
    + intros hash. rewrite Hhd. apply lookup_insert_ne. congruence.
Qed.

(** On the canonical chain the loop leaves each header of the batch
    canonical at its number and stored under it, unless a later header of
    the batch has the same number. *)
Lemma writeHeaders_on_chain_each deepFork headers :
  forall st st' (i : nat) h,
    writeHeaders fault true deepFork headers st = inl st' ->
    headers !! i = Some h ->
    (forall (j : nat) h', headers !! j = Some h' -> (i < j)%nat ->
                          NumberU64 h' <> NumberU64 h) ->
    db_canonical (b_view (l_batch st')) !! NumberU64 h = Some (HashCache h)
    /\ db_headers (b_view (l_batch st')) !! (NumberU64 h, HashCache h) = Some h.
Proof.
  induction headers as [|h0 rest IH]; intros st st' i h H Hi Hlater.
  - discriminate.
  - apply writeHeaders_cons in H
      as [(Hnc & _)|(_ & fb & fork & batch' & Hview & H)]; [discriminate|].
    destruct i as [|i].
    + simpl in Hi. simplify_eq.
      apply writeHeaders_on_chain_other with (n := NumberU64 h) in H as (Hcan & Hhd).
      2:{ intros h' Hin. apply list_elem_of_lookup in Hin as [j Hj].
          apply (Hlater (S j) h'); [exact Hj|lia]. }
      simpl in Hcan, Hhd. rewrite Hview in Hcan, Hhd. simpl in Hcan, Hhd.
      rewrite Hcan, Hhd, !lookup_insert_eq. auto.
    + simpl in Hi. eapply IH; [exact H|exact Hi|].
      intros j h' Hj Hlt. apply (Hlater (S j) h'); [exact Hj|lia].
Qed.

(** What a shallow canonical insert leaves under each header of the
    remainder. *)
Lemma InsertHeaderChain_shallow_each
  (fuel : nat) (db : DB) (headers : list Header) (r : Result) (db' : DB)
  (eff : Effects) (k : nat) (first : Header) (rest : list Header) :
  InsertHeaderChain BadHashes fault coin fuel db headers = Returns r db' eff ->
  newCanonical r = true ->
  skipCanonical BadHashes fault db headers 0 = inl k ->
  drop k headers = first :: rest ->
  ReadCanonicalHash fault db (u64 (NumberU64 first - 1)) = (ParentHash first, None) ->
  (forall (i j : nat) hi hj,
     (first :: rest) !! i = Some hi -> (first :: rest) !! j = Some hj ->
     (i < j)%nat -> NumberU64 hi < NumberU64 hj) ->
  NumberU64 (List.last (first :: rest) first) + 1 < two64 ->
  forall (i : nat) h,
    (first :: rest) !! i = Some h ->
    db_canonical db' !! NumberU64 h = Some (HashCache h)
    /\ ReadHeader db' (HashCache h) (NumberU64 h) = Some h.
Proof.
  intros Hret Hnc Hskip Hdrop Hparentcan Hasc Hnowrap i h Hi.
  assert (Herr : err r = None).
  { destruct (err r) eqn:Herr; [|reflexivity].
    destruct (InsertHeaderChain_abort _ _ _ _ _ _ _ _ _ Hret) as (e' & -> & _);
      [congruence|discriminate]. }
  destruct (InsertHeaderChain_success _ _ _ _ _ _ _ _ _ Hret Herr)
    as [k' Hskip' Hdrop'
       |k' first' rest' parent parentTd externTd headNumber localTd ch lastHeader
          nc deepFork st fb batch1 batch2 batch3
          Hskip' Hdrop' Hparent Hptd Hsum Hhn Hltd Hlast Hnc' Hch Hdeep
          Hloop Hwalk Hclean Hhead Hcommit]; [discriminate|].
  assert (k' = k) by congruence. subst k'.
  assert (first' = first /\ rest' = rest) as [-> ->] by (split; congruence).
  simpl in Hnc. rewrite Hnc in *.
  assert (ch = ParentHash first) by congruence. subst ch.
  rewrite N.eqb_refl in Hdeep. simpl in Hdeep. subst deepFork. simplify_eq.
  assert (Hle : NumberU64 h <= NumberU64 (List.last (first :: rest) first)).
  { destruct (last_split first rest) as [pre Hpre].
    assert (Hlastidx : (first :: rest) !! length pre
                       = Some (List.last (first :: rest) first)).
    { rewrite Hpre at 1. rewrite lookup_app_r by lia.
      rewrite Nat.sub_diag. reflexivity. }
    assert (Hbound : (i < length (first :: rest))%nat).
    { apply lookup_lt_Some in Hi. assumption. }
    rewrite Hpre in Hbound at 1. rewrite length_app in Hbound. simpl in Hbound.
    destruct (decide (i = length pre)) as [->|Hne].
    - assert (h = List.last (first :: rest) first) by congruence. subst h. lia.
    - assert (NumberU64 h < NumberU64 (List.last (first :: rest) first));
        [|lia].
      apply (Hasc i (length pre)); [assumption|assumption|lia]. }
  apply writeHeaders_on_chain_each with (i := i) (h := h) in Hloop
    as (Hcan & Hhd); [|assumption|].
  2:{ intros j h' Hj Hlt Heq.
      pose proof (Hasc i j h h' Hi Hj Hlt). lia. }
  set (lastHeader := List.last (first :: rest) first) in *.
  assert (Hcan2 : db_canonical (b_view batch2) !! NumberU64 h = Some (HashCache h)).
  { destruct (true && (_ <? headNumber)); [|simplify_eq; exact Hcan].
    apply deleteAbove_canonical with (n := NumberU64 h) in Hclean;
      [|apply u64_range|eapply ReadHeaderNumber_range; eassumption].
    pose proof (u64_range (Number lastHeader)) as Hr.
    fold (NumberU64 lastHeader) in Hr.
    rewrite u64_small in Hclean by lia.
    rewrite bool_decide_eq_false_2 in Hclean by lia. congruence. }
  assert (Hhd2 : db_headers (b_view batch2) !! (NumberU64 h, HashCache h) = Some h).
  { destruct (true && (_ <? headNumber)); [|simplify_eq; exact Hhd].
    eapply (deleteAbove_invariant fault
              (fun v => db_headers v !! (NumberU64 h, HashCache h) = Some h));
      [|eassumption|exact Hhd]. auto. }
  apply writeHead_ok in Hhead. rewrite Hhead. simpl. unfold ReadHeader. simpl. auto.
Qed.

(** X9. A call that judges its batch canonical and finds the batch's parent
    canonical (no deep fork), on a remainder whose numbers strictly ascend
    and stop short of the largest [uint64], leaves every header of the
    remainder canonical at its number, so that [GetHeaderByNumber] returns
    the header at its number when the pointer can be read. *)
Theorem InsertHeaderChain_batch_canonical
  (fuel : nat) (db : DB) (headers : list Header) (r : Result) (db' : DB)
  (eff : Effects) (k : nat) (first : Header) (rest : list Header) :
  InsertHeaderChain BadHashes fault coin fuel db headers = Returns r db' eff ->
  newCanonical r = true ->
  skipCanonical BadHashes fault db headers 0 = inl k ->
  drop k headers = first :: rest ->
  ReadCanonicalHash fault db (u64 (NumberU64 first - 1)) = (ParentHash first, None) ->
  (forall (i j : nat) hi hj,
     (first :: rest) !! i = Some hi -> (first :: rest) !! j = Some hj ->
     (i < j)%nat -> NumberU64 hi < NumberU64 hj) ->
  NumberU64 (List.last (first :: rest) first) + 1 < two64 ->
  forall (i : nat) h,
    (first :: rest) !! i = Some h ->
    db_canonical db' !! NumberU64 h = Some (HashCache h)
    /\ (fault (IoReadCanonicalHash (NumberU64 h)) = false ->
        GetHeaderByNumber fault db' (NumberU64 h) = Some h).
Proof.
  intros Hret Hnc Hskip Hdrop Hparent Hasc Hnowrap i h Hi.
  destruct (InsertHeaderChain_shallow_each _ _ _ _ _ _ _ _ _
              Hret Hnc Hskip Hdrop Hparent Hasc Hnowrap i h Hi) as [Hcan Hhd].
  split; [assumption|]. intros Hf.
  unfold GetHeaderByNumber.
  rewrite (ReadCanonicalHash_present fault db' _ _ Hf Hcan). exact Hhd.
Qed.

End Pointers.

(** ** The hash-to-number table after a call *)

Section Numbers.

Variable BadHashes : Hash -> bool.
Variable fault : IOp -> bool.
Variable coin : bool.

(** X25. A call gives a number to no hash but the new head's: at every hash
    other than the head hash it leaves, the hash-to-number table is what it
    was.  A header of the batch that is not the new head and had no number
    before has none afterwards, so [GetHeaderByHash] on its hash
    dereferences nil. *)
Theorem InsertHeaderChain_numbers_only_head
  (fuel : nat) (db : DB) (headers : list Header) (r : Result) (db' : DB)
  (eff : Effects) (hash : Hash) :
  InsertHeaderChain BadHashes fault coin fuel db headers = Returns r db' eff ->
  hash <> ReadHeadHeaderHash db' ->
  ReadHeaderNumber db' hash = ReadHeaderNumber db hash
  /\ (ReadHeaderNumber db hash = None -> GetHeaderByHash db' hash = None).
Proof.
  intros Hret Hne.
  assert (Hnum : db_headerNumber db' !! hash = db_headerNumber db !! hash).
  { destruct (newCanonical r) eqn:Hnc.
    - assert (Herr : err r = None).
      { destruct (err r) eqn:Herr; [|reflexivity].
        destruct (InsertHeaderChain_abort _ _ _ _ _ _ _ _ _ Hret)
          as (e' & -> & _); [congruence|discriminate]. }
      destruct (InsertHeaderChain_success _ _ _ _ _ _ _ _ _ Hret Herr)
        as [k Hskip Hdrop
           |k first rest parent parentTd externTd headNumber localTd ch lastHeader
              nc deepFork st fb batch1 batch2 batch3
              Hskip Hdrop Hparent Hptd Hsum Hhn Hltd Hlast Hnc' Hch Hdeep
              Hloop Hwalk Hclean Hhead Hcommit]; [discriminate|].
      simpl in Hnc. rewrite Hnc in *.
      set (P := fun v : DB => db_headerNumber v !! hash = db_headerNumber db !! hash).
      assert (P0 : P (b_view (l_batch st))).
      { eapply (writeHeaders_invariant fault P); [| | |eassumption|]; auto.
        reflexivity. }
      assert (P1 : P (b_view batch1)).
      { destruct deepFork; [|simplify_eq; exact P0].
        eapply (deepForkFix_invariant fault P); [|eassumption|exact P0]. auto. }
      assert (P2 : P (b_view batch2)).
      { destruct (true && (fb <? headNumber)); [|simplify_eq; exact P1].
        eapply (deleteAbove_invariant fault P); [|eassumption|exact P1]. auto. }
      apply writeHead_ok in Hhead. rewrite Hhead in Hne |- *.
      unfold ReadHeadHeaderHash in Hne. simpl in Hne |- *.
      rewrite lookup_insert_ne by congruence. exact P2.
    - destruct (InsertHeaderChain_off_chain _ _ _ _ _ _ _ _ _ Hret Hnc)
        as (_ & _ & -> & _). reflexivity. }
  assert (Hsame : ReadHeaderNumber db' hash = ReadHeaderNumber db hash).
  { unfold ReadHeaderNumber. rewrite Hnum. reflexivity. }
  split; [assumption|].
  intros Hnone. unfold GetHeaderByHash. rewrite Hsame, Hnone. reflexivity.
Qed.

End Numbers.

(** ** More on the seal bitmap *)

Lemma sealLoop_idle n checkFreq seals :
  Z.quot (Z.of_nat (length seals)) checkFreq <= 0 ->
  sealLoop n 0 checkFreq seals = Some seals.
Proof.
  intros Hq. destruct n as [|n]; [reflexivity|]. simpl.
  assert (Hlt : (0 <? Z.quot (Z.of_nat (length seals)) checkFreq) = false)
    by (apply Z.ltb_ge; assumption).
  rewrite Hlt. reflexivity.
Qed.

Lemma set_last_of_false (len : nat) :
  <[len := true]> (replicate (S len) false) = replicate len false ++ [true].
Proof. induction len as [|len IH]; [reflexivity|]. simpl. f_equal. exact IH. Qed.

(** X10. With a negative [checkFreq], or one above the number of headers,
    only the seal of the last header is checked. *)
Theorem VerifyHeaders_seals_only_last (len : nat) (checkFreq : Z) :
  checkFreq < 0 \/ Z.of_nat (S len) < checkFreq ->
  VerifyHeaders_seals (S len) checkFreq = Some (replicate len false ++ [true]).
Proof.
  intros Hcf. unfold VerifyHeaders_seals.
  assert (Hnz : (checkFreq =? 0) = false) by (apply Z.eqb_neq; lia).
  rewrite Hnz. rewrite sealLoop_idle.
  - rewrite length_replicate, setSeal_in_range by (rewrite length_replicate; lia).
    replace (Z.to_nat (Z.of_nat (S len) - 1)) with len by lia.
    rewrite set_last_of_false. reflexivity.
  - rewrite length_replicate. destruct Hcf as [Hneg|Hbig].
    + replace checkFreq with (- (- checkFreq)) by lia.
      rewrite Z.quot_opp_r by lia.
      assert (0 <= Z.quot (Z.of_nat (S len)) (- checkFreq))
        by (apply Z.quot_pos; lia).
      lia.
    + rewrite Z.quot_small by lia. lia.
Qed.

(** X11. With [checkFreq = 1] every seal is checked. *)
Theorem VerifyHeaders_seals_every (len : nat) :
  VerifyHeaders_seals (S len) 1 = Some (replicate (S len) true).
Proof.
  unfold VerifyHeaders_seals. change (1 =? 0) with false. cbv iota.
  destruct (sealLoop_marks 1 (S (S len)) ltac:(lia) 0 (replicate (S len) false))
    as (seals1 & Hrun & Hlen1 & Hmarks).
  { lia. }
  { rewrite length_replicate, Z.div_1_r. lia. }
  rewrite Hrun. rewrite length_replicate in Hlen1, Hmarks.
  rewrite setSeal_in_range by lia. f_equal.
  apply list_eq. intros j.
  destruct (decide (j < S len)%nat) as [Hj|Hj].
  - rewrite lookup_replicate_2 by assumption.
    apply lookup_set_true; [lia|]. left. apply Hmarks. right.
    exists (Z.of_nat j). rewrite Z.div_1_r. lia.
  - rewrite !lookup_ge_None_2; [reflexivity| |].
    + rewrite length_replicate. lia.
    + rewrite length_insert. lia.
Qed.

(** ** The coordinator *)

Section Coordinator.

Variable db : DB.
Variable fuel : nat.

(** X12. With no headers and a [checkFreq] other than zero [VerifyHeaders]
    panics on the last seal, before [verifyHeaders] could return at once;
    with [checkFreq = 0] it returns nil without reading an event. *)
Theorem VerifyHeaders_no_headers (checkFreq : Z) (events : list EngineEvent) :
  VerifyHeaders fuel db [] checkFreq events
  = if checkFreq =? 0 then VerifyReturns None [] events else VerifyPanics.
Proof.
  unfold VerifyHeaders, VerifyHeaders_seals. simpl length.
  destruct (checkFreq =? 0) eqn:Hz; [reflexivity|].
  apply Z.eqb_neq in Hz.
  rewrite sealLoop_idle; [reflexivity|].
  simpl. rewrite Z.quot_0_l by assumption. lia.
Qed.

Lemma answerHeaderRequest_id req resp :
  answerHeaderRequest fuel db req = Responds resp -> resp_ID resp = req_ID req.
Proof.
  unfold answerHeaderRequest. intros H.
  repeat case_match; simplify_eq; reflexivity.
Qed.

Lemma resultHashes_cons_ok hash events :
  resultHashes (VerifyResult hash None :: events)
  = {[ hash ]} ∪ resultHashes events.
Proof. reflexivity. Qed.

Lemma resultHashes_app events1 events2 :
  resultHashes (events1 ++ events2) = resultHashes events1 ∪ resultHashes events2.
Proof.
  unfold resultHashes. rewrite omap_app, list_to_set_app_L. reflexivity.
Qed.

(** How the loop returns: on the first result with an error, or on the
    result that brings the hashes seen to the number wanted. *)
Lemma verifyLoop_returns toVerify events :
  forall seen responses e responses' unread,
    verifyLoop fuel db toVerify seen responses events
    = VerifyReturns e responses' unread ->
    exists consumed last,
      events = consumed ++ last :: unread
      /\ Forall (fun ev => ~ reportsError ev) consumed
      /\ map resp_ID responses'
         = map resp_ID responses ++ requestIDs consumed
      /\ match e with
         | Some e' =>
             exists hash, last = VerifyResult hash (Some e')
         | None =>
             exists hash,
               last = VerifyResult hash None
               /\ (hash ∉ seen ∪ resultHashes consumed)
               /\ size ({[ hash ]} ∪ (seen ∪ resultHashes consumed)) = toVerify
         end.
Proof.
  induction events as [|ev rest IH]; intros seen responses e responses' unread H;
    simpl in H; [discriminate|].
  destruct ev as [hash [e0|]|req].
  - simplify_eq. exists [], (VerifyResult hash (Some e0)).
    split; [reflexivity|]. split; [constructor|].
    split; [simpl; rewrite app_nil_r; reflexivity|]. eexists. reflexivity.
  - destruct (decide (hash ∈ seen)) as [Hin|Hnew].
    + apply IH in H as (consumed & last & -> & Hok & Hids & Hend).
      exists (VerifyResult hash None :: consumed), last.
      split; [reflexivity|]. split; [constructor; [simpl; tauto|assumption]|].
      split; [exact Hids|].
      rewrite resultHashes_cons_ok.
      replace (seen ∪ ({[hash]} ∪ resultHashes consumed))
        with (seen ∪ resultHashes consumed) by set_solver.
      exact Hend.
    + simpl in H.
      destruct (decide (size ({[hash]} ∪ seen) = toVerify)) as [Hsize|Hmore].
      * simplify_eq. exists [], (VerifyResult hash None).
        split; [reflexivity|]. split; [constructor|].
        split; [simpl; rewrite app_nil_r; reflexivity|].
        exists hash. split; [reflexivity|].
        replace (seen ∪ resultHashes []) with seen by set_solver.
        split; [assumption|reflexivity].
      * apply IH in H as (consumed & last & -> & Hok & Hids & Hend).
        exists (VerifyResult hash None :: consumed), last.
        split; [reflexivity|]. split; [constructor; [simpl; tauto|assumption]|].
        split; [exact Hids|].
        rewrite resultHashes_cons_ok.
        replace (seen ∪ ({[hash]} ∪ resultHashes consumed))
          with ({[hash]} ∪ seen ∪ resultHashes consumed) by set_solver.
        exact Hend.
  - destruct (answerHeaderRequest fuel db req) as [resp| |] eqn:Hanswer;
      try discriminate.
    apply IH in H as (consumed & last & -> & Hok & Hids & Hend).
    exists (HeaderRequested req :: consumed), last.
    split; [reflexivity|]. split; [constructor; [simpl; tauto|assumption]|].
    split.
    + rewrite Hids, map_app. simpl.
      rewrite (answerHeaderRequest_id _ _ Hanswer), <- app_assoc. reflexivity.
    + replace (resultHashes (HeaderRequested req :: consumed))
        with (resultHashes consumed) by reflexivity.
      exact Hend.
Qed.

(** How the loop goes on events that carry no error and whose header
    requests are all answered: it waits while the distinct hashes stay
    below the number wanted, and returns nil once they reach it. *)
Lemma verifyLoop_progress toVerify events :
  forall seen responses,
    Forall (fun ev => ~ reportsError ev) events ->
    Forall (answered fuel db) events ->
    (size seen < toVerify)%nat ->
    ((size (seen ∪ resultHashes events) < toVerify)%nat ->
     exists responses',
       verifyLoop fuel db toVerify seen responses events = VerifyWaits responses')
    /\ ((toVerify <= size (seen ∪ resultHashes events))%nat ->
        exists responses' unread,
          verifyLoop fuel db toVerify seen responses events
          = VerifyReturns None responses' unread).
Proof.
  induction events as [|ev rest IH]; intros seen responses Hok Hans Hseen.
  - split.
    + intros _. eexists. reflexivity.
    + intros Hge. exfalso.
      replace (seen ∪ resultHashes []) with seen in Hge by set_solver. lia.
  - inversion Hok as [|? ? Hev Hok']; subst. inversion Hans as [|? ? Hav Hans']; subst.
    destruct ev as [hash [e0|]|req]; simpl.
    + exfalso. apply Hev. exact I.
    + rewrite resultHashes_cons_ok.
      destruct (decide (hash ∈ seen)) as [Hin|Hnew].
      * replace (seen ∪ ({[hash]} ∪ resultHashes rest))
          with (seen ∪ resultHashes rest) by set_solver.
        apply IH; assumption.
      * assert (Hsize : size ({[hash]} ∪ seen) = S (size seen)).
        { rewrite size_union by set_solver. rewrite size_singleton. reflexivity. }
        replace (seen ∪ ({[hash]} ∪ resultHashes rest))
          with ({[hash]} ∪ seen ∪ resultHashes rest) by set_solver.
        destruct (decide (size ({[hash]} ∪ seen) = toVerify)) as [Hfull|Hmore].
        -- split.
           ++ intros Hlt. exfalso.
              assert (size ({[hash]} ∪ seen)
                      <= size ({[hash]} ∪ seen ∪ resultHashes rest))%nat
                by (apply subseteq_size; set_solver).
              lia.
           ++ intros _. eexists _, _. reflexivity.
        -- apply IH; try assumption. lia.
    + destruct Hav as [resp Hresp]. rewrite Hresp.
      replace (resultHashes (HeaderRequested req :: rest))
        with (resultHashes rest) by reflexivity.
      apply IH; assumption.
Qed.

(** X13. [verifyHeaders] returns nil for a non-empty batch only after
    results without an error have reported as many distinct hashes as there
    are headers, whichever hashes they are; it has then answered each header
    request it read, in order, under the request's id, and has read nothing
    after the result that completed the count. *)
Theorem verifyHeaders_success
  (headers : list Header) (seals : list bool) (events : list EngineEvent)
  (responses : list HeaderResponse) (unread : list EngineEvent) :
  headers <> [] ->
  verifyHeaders fuel db headers seals events = VerifyReturns None responses unread ->
  exists consumed,
    events = consumed ++ unread
    /\ Forall (fun ev => ~ reportsError ev) consumed
    /\ size (resultHashes consumed) = length headers
    /\ map resp_ID responses = requestIDs consumed.
Proof.
  intros Hne H. unfold verifyHeaders in H.
  destruct headers as [|h0 headers0]; [congruence|]. simpl Nat.eqb in H. cbv iota in H.
  apply verifyLoop_returns in H
    as (consumed & last & -> & Hok & Hids & hash & -> & Hfresh & Hsize).
  exists (consumed ++ [VerifyResult hash None]).
  split; [rewrite <- app_assoc; reflexivity|].
  split; [apply Forall_app; split; [assumption|constructor; [simpl; tauto|constructor]]|].
  split.
  - rewrite resultHashes_app. rewrite <- Hsize. f_equal.
    change (resultHashes [VerifyResult hash None]) with ({[hash]} ∪ (∅ : gset Hash)).
    set_solver.
  - rewrite Hids. unfold requestIDs. rewrite omap_app. simpl.
    rewrite app_nil_r. reflexivity.
Qed.

(** X14. [verifyHeaders] returns an error only at the first result that
    carries one, and returns that error: the events before it carry none,
    the header requests among them have been answered under their ids, and
    what comes after it is not read. *)
Theorem verifyHeaders_error
  (headers : list Header) (seals : list bool) (events : list EngineEvent)
  (e : EngineError) (responses : list HeaderResponse) (unread : list EngineEvent) :
  verifyHeaders fuel db headers seals events = VerifyReturns (Some e) responses unread ->
  exists consumed hash,
    events = consumed ++ VerifyResult hash (Some e) :: unread
    /\ Forall (fun ev => ~ reportsError ev) consumed
    /\ map resp_ID responses = requestIDs consumed.
Proof.
  intros H. unfold verifyHeaders in H.
  destruct (Nat.eqb (length headers) 0); [discriminate|].
  apply verifyLoop_returns in H
    as (consumed & last & -> & Hok & Hids & hash & ->).
  exists consumed, hash. auto.
Qed.

(** X15. With no error among the results and every header request answered,
    [verifyHeaders] on a non-empty batch returns nil as soon as the events
    report as many distinct hashes as there are headers, and is left waiting
    when they report fewer: repeated hashes do not count. *)
Theorem verifyHeaders_counts_distinct
  (headers : list Header) (seals : list bool) (events : list EngineEvent) :
  headers <> [] ->
  Forall (fun ev => ~ reportsError ev) events ->
  Forall (answered fuel db) events ->
  ((size (resultHashes events) < length headers)%nat ->
   exists responses,
     verifyHeaders fuel db headers seals events = VerifyWaits responses)
  /\ ((length headers <= size (resultHashes events))%nat ->
      exists responses unread,
        verifyHeaders fuel db headers seals events
        = VerifyReturns None responses unread).
Proof.
  intros Hne Hok Hans. unfold verifyHeaders.
  destruct headers as [|h0 headers0]; [congruence|]. simpl Nat.eqb. cbv iota.
  destruct (verifyLoop_progress (length (h0 :: headers0)) events ∅ [] Hok Hans)
    as [Hwait Hret].
  { rewrite size_empty. simpl. lia. }
  replace (∅ ∪ resultHashes events) with (resultHashes events) in * by set_solver.
  split; assumption.
Qed.

End Coordinator.

(** ** Notifications *)

Section Notifier.

Variable fault : IOp -> bool.
Variable db : DB.

(** With the bound short of the largest [uint64] and fuel for every number,
    the loop hands over the canonical headers in ascending order until it
    passes the bound or misses one. *)
Lemma notifyLoop_run (to : Z) (fuel : nat) :
  to < two64 - 1 ->
  forall i delivered,
    0 <= i ->
    Z.max 0 (to - i + 1) < Z.of_nat fuel ->
    exists hs,
      (forall (j : nat) h,
         hs !! j = Some h -> ReadHeaderByNumber fault db (i + Z.of_nat j) = Some h)
      /\ ((Z.of_nat (length hs) = Z.max 0 (to - i + 1)
           /\ notifyLoop fuel fault db i to delivered
              = NotifyReturns None (delivered ++ hs))
          \/ (exists n,
                i <= n <= to
                /\ ReadHeaderByNumber fault db n = None
                /\ Z.of_nat (length hs) = n - i
                /\ notifyLoop fuel fault db i to delivered
                   = NotifyReturns (Some n) (delivered ++ hs))).
Proof.
  intros Hto. induction fuel as [|fuel IH]; intros i delivered Hi Hfuel.
  - lia.
  - simpl. destruct (i <=? to) eqn:Hle.
    + apply Z.leb_le in Hle.
      destruct (ReadHeaderByNumber fault db i) as [header|] eqn:Hread.
      * rewrite u64_small by (rewrite two64_eq in *; lia).
        destruct (IH (i + 1) (delivered ++ [header])) as (hs & Hall & Hend);
          [lia|lia|].
        exists (header :: hs). split.
        { intros [|j] h Hj; simpl in Hj.
          - simplify_eq. rewrite Z.add_0_r. assumption.
          - apply Hall in Hj. rewrite <- Hj. f_equal. lia. }
        rewrite <- app_assoc in Hend. simpl in Hend.
        destruct Hend as [(Hlen & ->)|(n & Hn & Hmiss & Hlen & ->)].
        -- left. split; [simpl length; lia|reflexivity].
        -- right. exists n. repeat split; try assumption; try lia.
           simpl length. lia.
      * exists []. split; [intros j h Hj; discriminate|].
        right. exists i. rewrite app_nil_r.
        repeat split; try assumption; try reflexivity; simpl; lia.
    + apply Z.leb_gt in Hle. exists []. split; [intros j h Hj; discriminate|].
      left. rewrite app_nil_r. split; [simpl; lia|reflexivity].
Qed.

(** X16. With a notifier registered, a bound short of the largest [uint64]
    and fuel for every number, [NotifyNewHeaders] hands the notifier the
    canonical headers of the numbers from [from] on, in ascending order: all
    of them up to [to], returning nil, or those before the first number
    without a canonical header, returning the error for that number with
    the earlier headers already handed over. *)
Theorem NotifyNewHeaders_delivers (fuel : nat) (from to : Z) :
  0 <= from ->
  to < two64 - 1 ->
  Z.max 0 (to - from + 1) < Z.of_nat fuel ->
  exists delivered,
    (forall (j : nat) h,
       delivered !! j = Some h ->
       ReadHeaderByNumber fault db (from + Z.of_nat j) = Some h)
    /\ ((Z.of_nat (length delivered) = Z.max 0 (to - from + 1)
         /\ NotifyNewHeaders fuel fault db from to true
            = NotifyReturns None delivered)
        \/ (exists n,
              from <= n <= to
              /\ ReadHeaderByNumber fault db n = None
              /\ Z.of_nat (length delivered) = n - from
              /\ NotifyNewHeaders fuel fault db from to true
                 = NotifyReturns (Some n) delivered)).
Proof.
  intros Hfrom Hto Hfuel. unfold NotifyNewHeaders. simpl.
  destruct (notifyLoop_run to fuel Hto from [] Hfrom Hfuel) as (hs & Hall & Hend).
  exists hs. split; [assumption|exact Hend].
Qed.

(** X17. With [to] the largest [uint64] the loop condition [i <= to] never
    fails: [NotifyNewHeaders] with a notifier cannot return nil, whatever the
    fuel; it ends only at a number without a canonical header. *)
Theorem NotifyNewHeaders_never_done_at_max (fuel : nat) (from : Z)
  (delivered : list Header) :
  0 <= from < two64 ->
  NotifyNewHeaders fuel fault db from (two64 - 1) true <> NotifyReturns None delivered.
Proof.
  unfold NotifyNewHeaders. simpl. generalize (@nil Header).
  revert from. induction fuel as [|fuel IH]; intros from acc Hfrom H; simpl in H.
  - discriminate.
  - assert (Hle : (from <=? two64 - 1) = true) by (apply Z.leb_le; lia).
    rewrite Hle in H.
    destruct (ReadHeaderByNumber fault db from); [|discriminate].
    eapply IH; [|eassumption]. apply u64_range.
Qed.


End Notifier.

(** ** Insertion, then notification *)



(** ** The fork block of a shallow insert *)

Section ForkBlock.

Variable BadHashes : Hash -> bool.
Variable fault : IOp -> bool.
Variable coin : bool.

(** The header at which the canonical prefix stops is not canonical. *)
Lemma skipCanonical_stops db headers :
  forall idx k first rest,
    skipCanonical BadHashes fault db headers idx = inl k ->
    drop (k - idx) headers = first :: rest ->
    (idx <= k)%nat ->
    exists ch,
      ReadCanonicalHash fault db (NumberU64 first) = (ch, None)
      /\ ch <> HashCache first.
Proof.
  induction headers as [|h tl IH]; intros idx k first rest H Hdrop Hle.
  - rewrite drop_nil in Hdrop. discriminate.
  - simpl in H.
    destruct (ReadCanonicalHash fault db (NumberU64 h)) as [ch [e|]] eqn:Hch;
      [discriminate|].
    destruct (N.eqb (HashCache h) ch) eqn:Heq.
    + destruct (BadHashes (HashCache h)); [discriminate|].
      assert (Hmono : forall l i k', skipCanonical BadHashes fault db l i = inl k' ->
                                     (i <= k')%nat).
      { clear. induction l as [|x l IHl]; intros i k' H; simpl in H.
        - simplify_eq. lia.
        - repeat case_match; simplify_eq; try lia.
          apply IHl in H. lia. }
      pose proof (Hmono _ _ _ H) as Hk.
      apply (IH (S idx) k first rest H); [|lia].
      replace (k - idx)%nat with (S (k - S idx)) in Hdrop by lia.
      exact Hdrop.
    + simplify_eq. rewrite Nat.sub_diag in Hdrop. simpl in Hdrop. simplify_eq.
      exists ch. split; [assumption|]. apply N.eqb_neq in Heq. congruence.
Qed.

Lemma ReadCanonicalHash_other db number hash n :
  n <> number ->
  ReadCanonicalHash fault (setCanonical db number hash) n
  = ReadCanonicalHash fault db n.
Proof.
  intros Hne. unfold ReadCanonicalHash. simpl.
  rewrite lookup_insert_ne by congruence. reflexivity.
Qed.

(** On the canonical chain, without a deep fork and with no header already
    canonical at its number, the loop fixes the fork block at the first
    header it sees: one below that header's number. *)
Lemma writeHeaders_shallow_fork headers :
  forall st st',
    writeHeaders fault true false headers st = inl st' ->
    (forall h, h ∈ headers ->
       fst (ReadCanonicalHash fault (b_view (l_batch st)) (NumberU64 h))
       <> HashCache h) ->
    (forall (i j : nat) hi hj,
       headers !! i = Some hi -> headers !! j = Some hj -> i <> j ->
       NumberU64 hi <> NumberU64 hj) ->
    l_forkBlockNumber st'
    = if l_fork st then l_forkBlockNumber st
      else match headers with
           | [] => l_forkBlockNumber st
           | h :: _ => u64 (NumberU64 h - 1)
           end.
Proof.
  induction headers as [|h rest IH]; intros st st' H Hnot Hdistinct.
  - simpl in H. simplify_eq. destruct (l_fork _); reflexivity.
  - simpl in H.
    destruct (ReadCanonicalHash fault (b_view (l_batch st)) (NumberU64 h))
      as [ch [e|]] eqn:Hch; [discriminate|].
    assert (Hmiss : N.eqb (HashCache h) ch = false).
    { apply N.eqb_neq. intros Heq. apply (Hnot h); [left|].
      rewrite Hch. simpl. congruence. }
    rewrite Hmiss in H. simpl in H.
    destruct (WriteCanonicalHash fault (l_batch st) (HashCache h) (NumberU64 h))
      as [b1 [e|]] eqn:Hc; [repeat case_match; discriminate|].
    destruct (EncodeToBytes fault h); [repeat case_match; discriminate|].
    destruct (WriteTd fault b1 (HashCache h) (NumberU64 h) (l_td st + Difficulty h))
      as [b2 [e|]] eqn:Ht; [repeat case_match; discriminate|].
    destruct (PutHeader fault b2 (NumberU64 h) (HashCache h) h)
      as [b3 [e|]] eqn:Hp; [repeat case_match; discriminate|].
    apply WriteCanonicalHash_ok in Hc. apply WriteTd_ok in Ht.
    apply PutHeader_ok in Hp. subst b1 b2 b3.
    assert (Hrest : forall h', h' ∈ rest ->
              fst (ReadCanonicalHash fault
                     (setHeader
                        (setTd (setCanonical (b_view (l_batch st)) (NumberU64 h)
                                             (HashCache h))
                               (NumberU64 h) (HashCache h) (l_td st + Difficulty h))
                        (NumberU64 h) (HashCache h) h) (NumberU64 h'))
              <> HashCache h').
    { intros h' Hin.
      assert (Hne : NumberU64 h' <> NumberU64 h).
      { apply list_elem_of_lookup in Hin as [j Hj].
        apply (Hdistinct (S j) 0%nat h' h); [exact Hj|reflexivity|lia]. }
      change (fst (ReadCanonicalHash fault
                     (setCanonical (b_view (l_batch st)) (NumberU64 h) (HashCache h))
                     (NumberU64 h')) <> HashCache h').
      rewrite ReadCanonicalHash_other by assumption.
      apply Hnot. right. assumption. }
    assert (Hdist : forall (i j : nat) hi hj,
              rest !! i = Some hi -> rest !! j = Some hj -> i <> j ->
              NumberU64 hi <> NumberU64 hj).
    { intros i j hi hj Hi Hj Hij. apply (Hdistinct (S i) (S j)); auto. }
    destruct (l_fork st) eqn:Hfork; simpl in H;
      apply IH in H; simpl in H; try assumption; exact H.
Qed.

(** X19. A call that makes its batch canonical on top of a canonical parent,
    where the numbers of the remainder are pairwise different and no later
    header of the remainder is already canonical at its number, reports as
    fork block the number below the first header of the remainder, and
    reports a reorganisation exactly when that number is below the old
    head's number: extending the head is not a reorganisation. *)
Theorem InsertHeaderChain_shallow_fork_block
  (fuel : nat) (db : DB) (headers : list Header) (r : Result) (db' : DB)
  (eff : Effects) (k : nat) (first : Header) (rest : list Header)
  (headNumber : Z) :
  InsertHeaderChain BadHashes fault coin fuel db headers = Returns r db' eff ->
  newCanonical r = true ->
  skipCanonical BadHashes fault db headers 0 = inl k ->
  drop k headers = first :: rest ->
  ReadCanonicalHash fault db (u64 (NumberU64 first - 1)) = (ParentHash first, None) ->
  (forall (i j : nat) hi hj,
     (first :: rest) !! i = Some hi -> (first :: rest) !! j = Some hj -> i <> j ->
     NumberU64 hi <> NumberU64 hj) ->
  (forall h, h ∈ rest ->
     fst (ReadCanonicalHash fault db (NumberU64 h)) <> HashCache h) ->
  ReadHeaderNumber db (ReadHeadHeaderHash db) = Some headNumber ->
  forkBlockNumber r = u64 (NumberU64 first - 1)
  /\ reorg r = (u64 (NumberU64 first - 1) <? headNumber).
Proof.
  intros Hret Hnc Hskip Hdrop Hparentcan Hdistinct Hfresh Hhead.
  assert (Herr : err r = None).
  { destruct (err r) eqn:Herr; [|reflexivity].
    destruct (InsertHeaderChain_abort _ _ _ _ _ _ _ _ _ Hret) as (e' & -> & _);
      [congruence|discriminate]. }
  destruct (InsertHeaderChain_success _ _ _ _ _ _ _ _ _ Hret Herr)
    as [k' Hskip' Hdrop'
       |k' first' rest' parent parentTd externTd headNumber' localTd ch lastHeader
          nc deepFork st fb batch1 batch2 batch3
          Hskip' Hdrop' Hparent Hptd Hsum Hhn Hltd Hlast Hnc' Hch Hdeep
          Hloop Hwalk Hclean Hhead' Hcommit]; [discriminate|].
  assert (k' = k) by congruence. subst k'.
  assert (first' = first /\ rest' = rest) as [-> ->] by (split; congruence).
  assert (headNumber' = headNumber) by congruence. subst headNumber'.
  simpl in Hnc. rewrite Hnc in *.
  assert (ch = ParentHash first) by congruence. subst ch.
  rewrite N.eqb_refl in Hdeep. simpl in Hdeep. subst deepFork.
  simpl in Hwalk. simplify_eq.
  apply writeHeaders_shallow_fork in Hloop; [|simpl|assumption].
  - simpl in Hloop. simpl. rewrite Hloop. split; reflexivity.
  - intros h Hin. apply elem_of_cons in Hin as [->|Hin]; [|apply Hfresh; assumption].
    destruct (skipCanonical_stops db headers 0 k first rest Hskip) as (ch & Hch' & Hne);
      [rewrite Nat.sub_0_r; assumption|lia|].
    rewrite Hch'. simpl. assumption.
Qed.

End ForkBlock.

(** ** Deep-fork reconciliation *)

Section DeepFork.

Variable fault : IOp -> bool.

Lemma sideChain_numbers db hash number hs hash' number' :
  sideChain fault db hash number hs hash' number' ->
  number' = number - Z.of_nat (length hs)
  /\ forall h, h ∈ hs -> number' < NumberU64 h <= number.
Proof.
  induction 1 as [hash number Hread
                 |hash number ch h hs hash' number' Hread Hne Hw Hh Hnum Hhash Hpos
                    Hrest [IHn IHall]].
  - split; [simpl; lia|]. intros h Hin. inversion Hin.
  - split; [simpl length; lia|].
    intros h0 Hin. apply elem_of_cons in Hin as [->|Hin]; [lia|].
    apply IHall in Hin. lia.
Qed.

(** A pointer written above a side chain does not change the side chain. *)
Lemma sideChain_setCanonical db hash number hs hash' number' m x :
  sideChain fault db hash number hs hash' number' ->
  number < m ->
  sideChain fault (setCanonical db m x) hash number hs hash' number'.
Proof.
  induction 1 as [hash number Hread
                 |hash number ch h hs hash' number' Hread Hne Hw Hh Hnum Hhash Hpos
                    Hrest IH]; intros Hm.
  - constructor. rewrite ReadCanonicalHash_other by lia. assumption.
  - econstructor; try eassumption.
    + rewrite ReadCanonicalHash_other by lia. eassumption.
    + apply IH. lia.
Qed.

(** The walk rewrites the pointers of a side chain and stops where the
    chains join. *)
Lemma forkWalk_sideChain (fuel : nat) :
  forall batch hash number hs hash' number',
    sideChain fault (b_view batch) hash number hs hash' number' ->
    number < two64 ->
    (length hs < fuel)%nat ->
    exists batch',
      forkWalk fault fuel batch number hash = WalkDone number' batch'
      /\ (forall h, h ∈ hs ->
            db_canonical (b_view batch') !! NumberU64 h = Some (HashCache h))
      /\ (forall n, n <= number' \/ number < n ->
            db_canonical (b_view batch') !! n = db_canonical (b_view batch) !! n).
Proof.
  induction fuel as [|fuel IH]; intros batch hash number hs hash' number' Hchain
    Hmax Hfuel; [lia|].
  inversion Hchain as [hash0 number0 Hread
                      |hash0 number0 ch h tl hash0' number0' Hread Hne Hw Hh Hnum
                         Hhash Hpos Hrest]; subst.
  - simpl. rewrite Hread, N.eqb_refl. eexists. split; [reflexivity|].
    split; [intros h Hin; inversion Hin|reflexivity].
  - simpl. rewrite Hread.
    assert (Hneq : N.eqb (HashCache h) ch = false) by (apply N.eqb_neq; congruence).
    rewrite Hneq. unfold WriteCanonicalHash. rewrite Hw. simpl.
    unfold ReadHeader in *. simpl. rewrite Hh.
    rewrite u64_small by lia.
    apply (sideChain_setCanonical _ _ _ _ _ _ (NumberU64 h) (HashCache h)) in Hrest;
      [|lia].
    destruct (sideChain_numbers _ _ _ _ _ _ Hrest) as [Hlow Hbounds].
    destruct (IH (record batch (setCanonical (b_view batch) (NumberU64 h) (HashCache h))
                         (OpWriteCanonicalHash (HashCache h) (NumberU64 h)))
                 (ParentHash h) (NumberU64 h - 1) tl hash' number' Hrest)
      as (batch' & Hwalk & Hset & Hkeep); [lia|simpl in Hfuel; lia|].
    exists batch'. split; [exact Hwalk|]. split.
    + intros h0 Hin. apply elem_of_cons in Hin as [->|Hin]; [|apply Hset; assumption].
      rewrite Hkeep by lia. simpl. apply lookup_insert_eq.
    + intros n Hn. rewrite Hkeep by (simpl length in *; lia). simpl.
      apply lookup_insert_ne. simpl length in *. lia.
Qed.

(** X20. Deep-fork reconciliation on a well-formed side chain: when the
    parent of the batch and the headers below it down to the point where the
    canonical chain is joined are stored under their numbers and hashes, the
    reconciliation ends with the number of the joining point as fork block
    and leaves the parent and every header of the side chain canonical at
    its number, while the pointers at and below the joining point and above
    the parent stay as they were. *)
Theorem deepForkFix_sideChain
  (fuel : nat) (batch : Batch) (first parent : Header) (hs : list Header)
  (hash' : Hash) (number' : Z) :
  ReadHeader (b_view batch) (ParentHash first) (u64 (NumberU64 first - 1))
  = Some parent ->
  NumberU64 parent = u64 (NumberU64 first - 1) ->
  HashCache parent = ParentHash first ->
  1 <= NumberU64 parent ->
  fault (IoWriteCanonicalHash (HashCache parent) (NumberU64 parent)) = false ->
  sideChain fault (b_view batch) (ParentHash parent) (NumberU64 parent - 1)
            hs hash' number' ->
  (length hs < fuel)%nat ->
  exists batch',
    deepForkFix fault fuel batch first = WalkDone number' batch'
    /\ (forall h, h ∈ parent :: hs ->
          db_canonical (b_view batch') !! NumberU64 h = Some (HashCache h))
    /\ (forall n, n <= number' \/ NumberU64 parent < n ->
          db_canonical (b_view batch') !! n = db_canonical (b_view batch) !! n).
Proof.
  intros Hparent Hnum Hhash Hpos Hw Hchain Hfuel.
  pose proof (u64_range (Number parent)) as Hrange.
  fold (NumberU64 parent) in Hrange.
  destruct (sideChain_numbers _ _ _ _ _ _ Hchain) as [Hlow Hbounds].
  destruct (forkWalk_sideChain fuel batch _ _ _ _ _ Hchain ltac:(lia) Hfuel)
    as (batch1 & Hwalk & Hset & Hkeep).
  unfold deepForkFix. rewrite Hparent.
  rewrite (u64_small (NumberU64 parent - 1)) by lia. rewrite Hwalk.
  unfold WriteCanonicalHash. rewrite <- Hnum, <- Hhash, Hw.
  eexists. split; [reflexivity|]. simpl. split.
  - intros h Hin. apply elem_of_cons in Hin as [->|Hin].
    + apply lookup_insert_eq.
    + rewrite lookup_insert_ne by (apply Hbounds in Hin; lia).
      apply Hset. assumption.
  - intros n Hn. rewrite lookup_insert_ne by lia. apply Hkeep. lia.
Qed.

End DeepFork.

(** ** Calls that complete *)

Lemma sumChain_linked headers :
  forall prev td,
    (forall p h, prev = Some p -> headers !! 0%nat = Some h ->
                 ParentHash h = HashCache p) ->
    (forall (i : nat) a b, headers !! i = Some a -> headers !! S i = Some b ->
                           ParentHash b = HashCache a) ->
    sumChain prev headers td = inl (td + sumDifficulty headers).
Proof.
  induction headers as [|h rest IH]; intros prev td Hprev Hlinks; simpl.
  - f_equal. lia.
  - assert (Hrec : sumChain (Some h) rest (td + Difficulty h)
                   = inl (td + Difficulty h + sumDifficulty rest)).
    { apply IH.
      - intros p h' Hp Hh'. simplify_eq. apply (Hlinks 0%nat p h'); auto.
      - intros i a b Ha Hb. apply (Hlinks (S i) a b); auto. }
    rewrite Z.add_assoc.
    destruct prev as [p|]; [|exact Hrec].
    rewrite (Hprev p h eq_refl eq_refl), N.eqb_refl. simpl. exact Hrec.
Qed.

Lemma writeHeaders_total nc deepFork headers :
  forall st, exists st', writeHeaders noFault nc deepFork headers st = inl st'.
Proof.
  induction headers as [|h rest IH]; intros st; simpl.
  - eexists. reflexivity.
  - destruct (negb nc && bool_decide _); [apply IH|].
    unfold ReadCanonicalHash, EncodeToBytes, WriteCanonicalHash, WriteTd, PutHeader.
    simpl.
    destruct (nc && negb deepFork && negb (l_fork st) && negb _);
      [destruct nc; apply IH|].
    destruct (nc && _); destruct nc; apply IH.
Qed.

Lemma deleteAbove_total headNumber (fuel : nat) :
  headNumber < two64 - 1 ->
  forall batch i,
    0 <= i ->
    Z.max 0 (headNumber - i + 1) < Z.of_nat fuel ->
    exists batch', deleteAbove noFault fuel batch i headNumber = CleanDone batch'.
Proof.
  intros Hhead. induction fuel as [|fuel IH]; intros batch i Hi Hfuel; [lia|].
  simpl. destruct (i <=? headNumber) eqn:Hle.
  - apply Z.leb_le in Hle. unfold DeleteCanonicalHash. simpl.
    rewrite u64_small by (rewrite two64_eq in *; lia).
    apply IH; lia.
  - eexists. reflexivity.
Qed.

Lemma ReadTd_noFault db hash number :
  ReadTd noFault db hash number = (db_td db !! (number, hash), None).
Proof. reflexivity. Qed.

Lemma ReadCanonicalHash_noFault db number :
  ReadCanonicalHash noFault db number
  = (default zeroHash (db_canonical db !! number), None).
Proof. reflexivity. Qed.

(** X21. A call completes: without I/O faults, when a header is left after
    the canonical prefix, its parent and the parent's total difficulty are
    stored, the remainder is linked, the head has a number below the largest
    [uint64] and a total difficulty, and the parent is canonical (no deep
    fork), the call returns without an error, given fuel for the cleanup. *)
Theorem InsertHeaderChain_completes
  (BadHashes : Hash -> bool) (coin : bool) (fuel : nat) (db : DB)
  (headers : list Header) (k : nat) (first : Header) (rest : list Header)
  (parent : Header) (parentTd headNumber localTd : Z) :
  skipCanonical BadHashes noFault db headers 0 = inl k ->
  drop k headers = first :: rest ->
  ReadHeader db (ParentHash first) (u64 (NumberU64 first - 1)) = Some parent ->
  db_td db !! (u64 (NumberU64 first - 1), ParentHash first) = Some parentTd ->
  (forall (i : nat) a b,
     (first :: rest) !! i = Some a -> (first :: rest) !! S i = Some b ->
     ParentHash b = HashCache a) ->
  ReadHeaderNumber db (ReadHeadHeaderHash db) = Some headNumber ->
  db_td db !! (headNumber, ReadHeadHeaderHash db) = Some localTd ->
  default zeroHash (db_canonical db !! u64 (NumberU64 first - 1)) = ParentHash first ->
  headNumber < two64 - 1 ->
  headNumber + 1 < Z.of_nat fuel ->
  exists r db' eff,
    InsertHeaderChain BadHashes noFault coin fuel db headers = Returns r db' eff
    /\ err r = None.
Proof.
  intros Hskip Hdrop Hparent Hptd Hlinks Hhn Hltd Hshallow Hmax Hfuel.
  pose proof (ReadHeaderNumber_range _ _ _ Hhn) as Hrange.
  unfold InsertHeaderChain. rewrite Hskip. cbv zeta. rewrite Hdrop, Hparent.
  rewrite ReadTd_noFault, Hptd.
  rewrite (sumChain_linked (first :: rest) None parentTd); [|discriminate|assumption].
  rewrite Hhn, ReadTd_noFault, Hltd.
  rewrite ReadCanonicalHash_noFault, Hshallow, N.eqb_refl.
  cbv zeta. rewrite andb_false_r.
  match goal with
  | |- context [writeHeaders noFault ?nc false ?hs ?st] =>
      destruct (writeHeaders_total nc false hs st) as [st' Hst]; rewrite Hst
  end.
  match goal with
  | |- context [if ?c then deleteAbove noFault fuel ?b ?i headNumber else _] =>
      assert (Hi : 0 <= i < two64) by apply u64_range;
      destruct c;
      [destruct (deleteAbove_total headNumber fuel Hmax b i) as [b' Hb];
       [lia|lia|rewrite Hb]|]
  end;
  unfold writeHead, PutHeaderNumber, WriteHeadHeaderHash, Commit; simpl;
  match goal with
  | |- context [if ?c then _ else _] => destruct c
  end; simpl; eexists _, _, _; split; reflexivity.
Qed.

(** ** Merged iterators *)

Section Merge.

Context {SF ST : Type}.
Variable fromIter : SF -> IterResult * SF.
Variable toIter : ST -> IterResult * ST.

Local Notation "'pendingFrom' m" :=
  (pending fromIter (fromEnd m) (nextFrom m) (fromState m)) (at level 10, m at level 9).
Local Notation "'pendingTo' m" :=
  (pending toIter (toEnd m) (nextTo m) (toState m)) (at level 10, m at level 9).

Local Ltac multi_fields :=
  cbn [negb andb fromEnd toEnd nextFrom nextTo fromState toState].

Lemma pullFrom_pending (m : MultiIter SF ST) (l : list Z) :
  gives fromIter (fromState m) l ->
  exists m',
    pullFrom fromIter m = (m', None)
    /\ pendingFrom m' l
    /\ nextTo m' = nextTo m /\ toEnd m' = toEnd m /\ toState m' = toState m.
Proof.
  intros Hg. unfold pullFrom.
  inversion Hg as [s v s' Hcall|s x s' l' Hcall Hrest]; subst; rewrite Hcall;
    eexists; (split; [reflexivity|]); simpl; auto.
Qed.

Lemma pullTo_pending (m : MultiIter SF ST) (l : list Z) :
  gives toIter (toState m) l ->
  exists m',
    pullTo toIter m = (m', None)
    /\ pendingTo m' l
    /\ nextFrom m' = nextFrom m /\ fromEnd m' = fromEnd m
    /\ fromState m' = fromState m.
Proof.
  intros Hg. unfold pullTo.
  inversion Hg as [s v s' Hcall|s x s' l' Hcall Hrest]; subst; rewrite Hcall;
    eexists; (split; [reflexivity|]); simpl; auto.
Qed.

(** With both sides at their end the closure reports the end and calls
    neither iterator. *)
Lemma multiIter_ended (smaller : bool) (m : MultiIter SF ST) :
  pendingFrom m [] -> pendingTo m [] ->
  multiIter fromIter toIter smaller m = (0, true, None, m).
Proof.
  simpl. intros Hf Ht. unfold multiIter. rewrite Hf, Ht. reflexivity.
Qed.

(** One call with a block pending: the block returned and what stays
    pending. *)
Lemma multiIter_step (smaller : bool) (m : MultiIter SF ST) (xs ys : list Z) :
  pendingFrom m xs -> pendingTo m ys ->
  Forall (fun y => 0 <= y) ys ->
  xs <> [] \/ ys <> [] ->
  exists m',
    multiIter fromIter toIter smaller m = (pick smaller xs ys, false, None, m')
    /\ pendingFrom m' (dropHead (pick smaller xs ys) xs)
    /\ pendingTo m' (dropHead (pick smaller xs ys) ys).
Proof.
  intros Hf Ht Hpos Hsome. unfold multiIter.
  destruct m as [nf fe nt te sf st].
  destruct xs as [|x xs'], ys as [|y ys']; simpl in Hf, Ht.
  - destruct Hsome; congruence.
  - destruct Ht as (-> & -> & Hg). subst fe. multi_fields.
    apply Forall_cons in Hpos as [Hy0 _].
    assert (Hb : (if smaller
                  then (if y <? 0 then y else 0)
                  else (if y >? 0 then y else 0)) = pick smaller [] (y :: ys')).
    { simpl. destruct smaller.
      - destruct (y <? 0) eqn:E; [apply Z.ltb_lt in E; lia|reflexivity].
      - rewrite Z.gtb_ltb. destruct (0 <? y) eqn:E; [reflexivity|].
        apply Z.ltb_ge in E. lia. }
    rewrite Hb. set (b := pick smaller [] (y :: ys')).
    simpl dropHead.
    destruct (b =? y) eqn:Eb.
    + destruct (pullTo_pending (mkMultiIter nf true y false sf st) ys' Hg)
        as (m' & -> & Hp & Hnf & Hfe & Hfs).
      exists m'. split; [reflexivity|]. split; [|assumption].
      simpl. rewrite Hfe. reflexivity.
    + eexists. split; [reflexivity|]. simpl. auto.
  - destruct Hf as (-> & -> & Hg). subst te. multi_fields.
    simpl pick. simpl dropHead. rewrite Z.eqb_refl.
    destruct (pullFrom_pending (mkMultiIter x false nt true sf st) xs' Hg)
      as (m' & -> & Hp & Hnt & Hte & Hts).
    rewrite Hte. multi_fields.
    exists m'. split; [reflexivity|]. split; [assumption|]. simpl.
    rewrite Hte. reflexivity.
  - destruct Hf as (-> & -> & Hgf). destruct Ht as (-> & -> & Hgt). multi_fields.
    assert (Hb : (if smaller
                  then (if y <? x then y else x)
                  else (if y >? x then y else x)) = pick smaller (x :: xs') (y :: ys')).
    { simpl. destruct smaller.
      - destruct (y <? x) eqn:E; [apply Z.ltb_lt in E|apply Z.ltb_ge in E]; lia.
      - rewrite Z.gtb_ltb.
        destruct (x <? y) eqn:E; [apply Z.ltb_lt in E|apply Z.ltb_ge in E]; lia. }
    rewrite Hb. set (b := pick smaller (x :: xs') (y :: ys')).
    simpl dropHead.
    destruct (b =? x) eqn:Ex.
    + destruct (pullFrom_pending (mkMultiIter x false y false sf st) xs' Hgf)
        as (m1 & -> & Hp1 & Hnt & Hte & Hts).
      multi_fields. simpl in Hnt, Hte, Hts. rewrite Hte, Hnt. multi_fields.
      destruct (b =? y) eqn:Ey.
      * assert (Hgt1 : gives toIter (toState m1) ys') by (rewrite Hts; assumption).
        destruct (pullTo_pending m1 ys' Hgt1) as (m2 & -> & Hp2 & Hnf & Hfe & Hfs).
        exists m2. split; [reflexivity|]. split; [|assumption].
        rewrite Hnf, Hfe, Hfs. assumption.
      * exists m1. split; [reflexivity|]. split; [assumption|].
        simpl. rewrite Hte, Hnt, Hts. auto.
    + multi_fields. destruct (b =? y) eqn:Ey.
      * destruct (pullTo_pending (mkMultiIter x false y false sf st) ys' Hgt)
          as (m2 & Hpull & Hp2 & Hnf & Hfe & Hfs).
        rewrite Hpull. multi_fields.
        exists m2. split; [reflexivity|]. split; [|assumption].
        simpl. rewrite Hnf, Hfe, Hfs. auto.
      * eexists. split; [reflexivity|]. simpl. auto.
Qed.

(** The first two calls of [newMultiIterator] leave pending what the two
    iterators give. *)
Lemma newMultiIterator_pending (sf : SF) (st : ST) (xs ys : list Z) :
  gives fromIter sf xs -> gives toIter st ys ->
  exists m,
    newMultiIterator fromIter toIter sf st = inr m
    /\ pendingFrom m xs /\ pendingTo m ys.
Proof.
  intros Hf Ht. unfold newMultiIterator.
  inversion Hf as [s v s' Hcf|s x s' l' Hcf Hrf]; subst; rewrite Hcf;
    inversion Ht as [t w t' Hct|t y t' k' Hct Hrt]; subst; rewrite Hct;
    eexists; (split; [reflexivity|]); simpl; auto.
Qed.

(** What one call does to two descending lists, in the mode that takes the
    larger block. *)
Lemma pick_larger (xs ys : list Z) :
  descending xs -> descending ys ->
  xs <> [] \/ ys <> [] ->
  let b := pick false xs ys in
  (length (dropHead b xs) + length (dropHead b ys) < length xs + length ys)%nat
  /\ descending (dropHead b xs) /\ descending (dropHead b ys)
  /\ Forall (fun z => z < b) (dropHead b xs)
  /\ Forall (fun z => z < b) (dropHead b ys)
  /\ (forall z, z ∈ xs \/ z ∈ ys <-> z = b \/ z ∈ dropHead b xs \/ z ∈ dropHead b ys).
Proof.
  intros Hxs Hys Hsome.
  destruct xs as [|x xs'], ys as [|y ys']; simpl in *.
  - destruct Hsome; congruence.
  - rewrite Z.eqb_refl. destruct Hys as [Hlt Hys].
    split; [lia|]. split; [exact I|]. split; [assumption|].
    split; [constructor|]. split; [assumption|]. set_solver.
  - rewrite Z.eqb_refl. destruct Hxs as [Hlt Hxs].
    split; [lia|]. split; [assumption|]. split; [exact I|].
    split; [assumption|]. split; [constructor|]. set_solver.
  - destruct Hxs as [Hltx Hxs], Hys as [Hlty Hys].
    destruct (Z.lt_trichotomy x y) as [Hlt|[Heq|Hgt]].
    + rewrite Z.max_r by lia. rewrite Z.eqb_refl.
      destruct (y =? x) eqn:E; [apply Z.eqb_eq in E; lia|].
      simpl. repeat split; try assumption; try lia.
      * constructor; [lia|]. eapply Forall_impl; [exact Hltx|]. simpl. lia.
      * set_solver.
      * set_solver.
    + subst y. rewrite Z.max_id, Z.eqb_refl.
      repeat split; try assumption; try lia; set_solver.
    + rewrite Z.max_l by lia. rewrite Z.eqb_refl.
      destruct (x =? y) eqn:E; [apply Z.eqb_eq in E; lia|].
      simpl. repeat split; try assumption; try lia.
      * constructor; [lia|]. eapply Forall_impl; [exact Hlty|]. simpl. lia.
      * set_solver.
      * set_solver.
Qed.

Lemma dropHead_Forall (P : Z -> Prop) (b : Z) (l : list Z) :
  Forall P l -> Forall P (dropHead b l).
Proof.
  destruct l as [|x l']; simpl; [auto|].
  intros H. destruct (b =? x); [|assumption].
  apply Forall_cons in H as [_ H]. assumption.
Qed.

Lemma merge_larger (n : nat) :
  forall (m : MultiIter SF ST) (xs ys : list Z),
    (length xs + length ys <= n)%nat ->
    pendingFrom m xs -> pendingTo m ys ->
    descending xs -> descending ys ->
    Forall (fun y => 0 <= y) ys ->
    exists zs,
      gives (multiIter fromIter toIter false) m zs
      /\ descending zs
      /\ forall z, z ∈ zs <-> z ∈ xs \/ z ∈ ys.
Proof.
  induction n as [|n IH]; intros m xs ys Hn Hf Ht Hxs Hys Hpos.
  - destruct xs, ys; simpl in Hn; try lia.
    exists []. split; [|split; [exact I|set_solver]].
    eapply gives_end. apply multiIter_ended; assumption.
  - destruct (decide (xs = [] /\ ys = [])) as [[-> ->]|Hsome].
    + exists []. split; [|split; [exact I|set_solver]].
      eapply gives_end. apply multiIter_ended; assumption.
    + assert (Hsome' : xs <> [] \/ ys <> []).
      { destruct xs, ys; try (left; congruence); try (right; congruence).
        exfalso. apply Hsome. auto. }
      destruct (multiIter_step false m xs ys Hf Ht Hpos Hsome')
        as (m' & Hcall & Hf' & Ht').
      destruct (pick_larger xs ys Hxs Hys Hsome')
        as (Hlen & Hxs' & Hys' & Hbx & Hby & Hmem).
      cbv zeta in Hlen.
      assert (Hn' : (length (dropHead (pick false xs ys) xs)
                     + length (dropHead (pick false xs ys) ys) <= n)%nat) by lia.
      destruct (IH m' _ _ Hn' Hf' Ht' Hxs' Hys'
                   (dropHead_Forall _ _ _ Hpos))
        as (zs & Hgives & Hdesc & Hzs).
      exists (pick false xs ys :: zs).
      split; [eapply gives_next; eassumption|].
      split.
      * simpl. split; [|assumption].
        apply Forall_forall. intros z Hz. apply Hzs in Hz as [Hz|Hz].
        -- rewrite Forall_forall in Hbx. auto.
        -- rewrite Forall_forall in Hby. auto.
      * intros z. rewrite elem_of_cons, Hzs, Hmem. tauto.
Qed.

(** X22. Over two iterators that give strictly descending blocks and then
    end, the multi-iterator made with [smaller = false] gives each block of
    either iterator exactly once, in strictly descending order, and then
    reports the end. *)
Theorem multiIter_larger_merges (sf : SF) (st : ST) (xs ys : list Z) :
  gives fromIter sf xs -> gives toIter st ys ->
  descending xs -> descending ys ->
  Forall (fun y => 0 <= y) ys ->
  exists m zs,
    newMultiIterator fromIter toIter sf st = inr m
    /\ gives (multiIter fromIter toIter false) m zs
    /\ descending zs
    /\ forall z, z ∈ zs <-> z ∈ xs \/ z ∈ ys.
Proof.
  intros Hf Ht Hxs Hys Hpos.
  destruct (newMultiIterator_pending sf st xs ys Hf Ht) as (m & Hnew & Hpf & Hpt).
  destruct (merge_larger _ m xs ys (le_n _) Hpf Hpt Hxs Hys Hpos)
    as (zs & Hgives & Hdesc & Hmem).
  exists m, zs. auto.
Qed.

(** What one call does to two ascending lists, in the mode that takes the
    smaller block, while the first list has a block at least as large as
    any of the second. *)
Lemma pick_smaller (xs ys : list Z) :
  ascending xs -> ascending ys ->
  (forall y, y ∈ ys -> exists x, x ∈ xs /\ y <= x) ->
  xs <> [] \/ ys <> [] ->
  let b := pick true xs ys in
  (length (dropHead b xs) + length (dropHead b ys) < length xs + length ys)%nat
  /\ ascending (dropHead b xs) /\ ascending (dropHead b ys)
  /\ Forall (fun z => b < z) (dropHead b xs)
  /\ Forall (fun z => b < z) (dropHead b ys)
  /\ (forall z, z ∈ xs \/ z ∈ ys <-> z = b \/ z ∈ dropHead b xs \/ z ∈ dropHead b ys)
  /\ (forall y, y ∈ dropHead b ys -> exists x, x ∈ dropHead b xs /\ y <= x).
Proof.
  intros Hxs Hys Hcover Hsome.
  destruct xs as [|x xs'], ys as [|y ys']; simpl in *.
  - destruct Hsome; congruence.
  - exfalso. destruct (Hcover y) as (x & Hx & _); [set_solver|]. set_solver.
  - rewrite Z.eqb_refl. destruct Hxs as [Hlt Hxs].
    split_and!; try assumption; try exact I; try constructor; try (simpl; lia);
      set_solver.
  - destruct Hxs as [Hltx Hxs], Hys as [Hlty Hys].
    pose proof Hltx as Hltx'. pose proof Hlty as Hlty'.
    rewrite Forall_forall in Hltx', Hlty'.
    assert (Hcover' : forall l : list Z,
               (forall z, z ∈ l -> x < z) ->
               (forall z, z ∈ l -> exists x0, x0 ∈ x :: xs' /\ z <= x0) ->
               forall z, z ∈ l -> exists x0, x0 ∈ xs' /\ z <= x0).
    { intros l Hb Hl z Hz. destruct (Hl z Hz) as (x0 & Hx0 & Hle).
      apply elem_of_cons in Hx0 as [->|Hx0]; [|eauto].
      specialize (Hb z Hz). lia. }
    destruct (Z.lt_trichotomy x y) as [Hlt|[Heq|Hgt]].
    + rewrite Z.min_l by lia. rewrite Z.eqb_refl.
      destruct (x =? y) eqn:E; [apply Z.eqb_eq in E; lia|].
      split_and!.
      * simpl. lia.
      * assumption.
      * simpl. auto.
      * assumption.
      * constructor; [lia|]. apply Forall_forall. intros z Hz.
        specialize (Hlty' z Hz). lia.
      * set_solver.
      * apply Hcover'; [|assumption].
        intros z Hz. apply elem_of_cons in Hz as [->|Hz]; [lia|].
        specialize (Hlty' z Hz). lia.
    + subst y. rewrite Z.min_id, Z.eqb_refl.
      split_and!.
      * simpl. lia.
      * assumption.
      * assumption.
      * assumption.
      * assumption.
      * set_solver.
      * apply Hcover'; [assumption|].
        intros z Hz. apply Hcover. set_solver.
    + rewrite Z.min_r by lia. rewrite Z.eqb_refl.
      destruct (y =? x) eqn:E; [apply Z.eqb_eq in E; lia|].
      split_and!.
      * simpl. lia.
      * simpl. auto.
      * assumption.
      * constructor; [lia|]. apply Forall_forall. intros z Hz.
        specialize (Hltx' z Hz). lia.
      * assumption.
      * set_solver.
      * intros z Hz. apply Hcover. set_solver.
Qed.

Lemma merge_smaller (n : nat) :
  forall (m : MultiIter SF ST) (xs ys : list Z),
    (length xs + length ys <= n)%nat ->
    pendingFrom m xs -> pendingTo m ys ->
    ascending xs -> ascending ys ->
    Forall (fun y => 0 <= y) ys ->
    (forall y, y ∈ ys -> exists x, x ∈ xs /\ y <= x) ->
    exists zs,
      gives (multiIter fromIter toIter true) m zs
      /\ ascending zs
      /\ forall z, z ∈ zs <-> z ∈ xs \/ z ∈ ys.
Proof.
  induction n as [|n IH]; intros m xs ys Hn Hf Ht Hxs Hys Hpos Hcover.
  - destruct xs, ys; simpl in Hn; try lia.
    exists []. split; [|split; [exact I|set_solver]].
    eapply gives_end. apply multiIter_ended; assumption.
  - destruct (decide (xs = [] /\ ys = [])) as [[-> ->]|Hsome].
    + exists []. split; [|split; [exact I|set_solver]].
      eapply gives_end. apply multiIter_ended; assumption.
    + assert (Hsome' : xs <> [] \/ ys <> []).
      { destruct xs, ys; try (left; congruence); try (right; congruence).
        exfalso. apply Hsome. auto. }
      destruct (multiIter_step true m xs ys Hf Ht Hpos Hsome')
        as (m' & Hcall & Hf' & Ht').
      destruct (pick_smaller xs ys Hxs Hys Hcover Hsome')
        as (Hlen & Hxs' & Hys' & Hbx & Hby & Hmem & Hcover').
      cbv zeta in Hlen.
      assert (Hn' : (length (dropHead (pick true xs ys) xs)
                     + length (dropHead (pick true xs ys) ys) <= n)%nat) by lia.
      destruct (IH m' _ _ Hn' Hf' Ht' Hxs' Hys'
                   (dropHead_Forall _ _ _ Hpos) Hcover')
        as (zs & Hgives & Hasc & Hzs).
      exists (pick true xs ys :: zs).
      split; [eapply gives_next; eassumption|].
      split.
      * simpl. split; [|assumption].
        apply Forall_forall. intros z Hz. apply Hzs in Hz as [Hz|Hz].
        -- rewrite Forall_forall in Hbx. auto.
        -- rewrite Forall_forall in Hby. auto.
      * intros z. rewrite elem_of_cons, Hzs, Hmem. tauto.
Qed.

(** X23. Over two iterators that give strictly ascending blocks and then
    end, the multi-iterator made with [smaller = true] gives each block of
    either iterator exactly once, in strictly ascending order, and then
    reports the end, provided that the [from] iterator gives a block at
    least as large as any block of the [to] iterator. *)
Theorem multiIter_smaller_merges (sf : SF) (st : ST) (xs ys : list Z) :
  gives fromIter sf xs -> gives toIter st ys ->
  ascending xs -> ascending ys ->
  Forall (fun y => 0 <= y) ys ->
  (forall y, y ∈ ys -> exists x, x ∈ xs /\ y <= x) ->
  exists m zs,
    newMultiIterator fromIter toIter sf st = inr m
    /\ gives (multiIter fromIter toIter true) m zs
    /\ ascending zs
    /\ forall z, z ∈ zs <-> z ∈ xs \/ z ∈ ys.
Proof.
  intros Hf Ht Hxs Hys Hpos Hcover.
  destruct (newMultiIterator_pending sf st xs ys Hf Ht) as (m & Hnew & Hpf & Hpt).
  destruct (merge_smaller _ m xs ys (le_n _) Hpf Hpt Hxs Hys Hpos Hcover)
    as (zs & Hgives & Hasc & Hmem).
  exists m, zs. auto.
Qed.

(** One call in the mode that takes the smaller block, while the second
    list holds a block above zero and above every block of the first: the
    block returned is below it, and it stays in the second list. *)
Lemma pick_stalls (late : Z) (xs ys : list Z) :
  0 < late -> late ∈ ys ->
  Forall (fun x => x < late) xs ->
  Forall (fun y => 0 <= y) ys ->
  let b := pick true xs ys in
  b < late
  /\ late ∈ dropHead b ys
  /\ Forall (fun x => x < late) (dropHead b xs).
Proof.
  intros Hlate Hin Hxs Hpos.
  destruct xs as [|x xs'], ys as [|y ys']; cbn [pick dropHead].
  - apply elem_of_nil in Hin. contradiction.
  - split; [lia|]. split; [|constructor].
    destruct (0 =? y) eqn:E; [|assumption].
    apply Z.eqb_eq in E.
    apply elem_of_cons in Hin as [->|Hin]; [lia|assumption].
  - apply elem_of_nil in Hin. contradiction.
  - apply Forall_cons in Hxs as [Hx Hxs].
    split; [lia|]. split.
    + destruct (Z.min x y =? y) eqn:E; [|assumption].
      apply Z.eqb_eq in E.
      apply elem_of_cons in Hin as [->|Hin]; [lia|assumption].
    + destruct (Z.min x y =? x); [assumption|constructor; assumption].
Qed.

Lemma multiRun_stalls (late : Z) (n : nat) :
  forall (m : MultiIter SF ST) (xs ys : list Z),
    pendingFrom m xs -> pendingTo m ys ->
    0 < late -> late ∈ ys ->
    Forall (fun x => x < late) xs ->
    Forall (fun y => 0 <= y) ys ->
    Forall (fun r => exists b, r = (b, false, None) /\ b < late)
           (multiRun (multiIter fromIter toIter true) n m).1.
Proof.
  induction n as [|n IH]; intros m xs ys Hf Ht Hlate Hin Hxs Hpos; simpl.
  - constructor.
  - assert (Hsome : xs <> [] \/ ys <> []).
    { right. intros ->. set_solver. }
    destruct (multiIter_step true m xs ys Hf Ht Hpos Hsome)
      as (m' & Hcall & Hf' & Ht').
    destruct (pick_stalls late xs ys Hlate Hin Hxs Hpos) as (Hb & Hin' & Hxs').
    rewrite Hcall.
    specialize (IH m' _ _ Hf' Ht' Hlate Hin' Hxs' (dropHead_Forall _ _ _ Hpos)).
    destruct (multiRun (multiIter fromIter toIter true) n m') as [rs m''].
    simpl in *. constructor; [|assumption].
    eexists. split; [reflexivity|assumption].
Qed.

(** X24. With [smaller = true], when the [to] iterator gives a block above
    zero that is larger than every block of the [from] iterator, the
    multi-iterator never returns that block and never reports the end:
    every call returns a smaller block, without an error. *)
Theorem multiIter_smaller_stalls (sf : SF) (st : ST) (xs ys : list Z) (late : Z) :
  gives fromIter sf xs -> gives toIter st ys ->
  Forall (fun y => 0 <= y) ys ->
  late ∈ ys -> 0 < late ->
  Forall (fun x => x < late) xs ->
  exists m,
    newMultiIterator fromIter toIter sf st = inr m
    /\ forall n,
         Forall (fun r => exists b, r = (b, false, None) /\ b < late)
                (multiRun (multiIter fromIter toIter true) n m).1.
Proof.
  intros Hf Ht Hpos Hin Hlate Hxs.
  destruct (newMultiIterator_pending sf st xs ys Hf Ht) as (m & Hnew & Hpf & Hpt).
  exists m. split; [assumption|].
  intros n. eapply multiRun_stalls; eassumption.
Qed.

End Merge.

(** ** The further properties at concrete inputs *)

Lemma InsertHeaderChain_error_atomic_witness :
  stateBanned = stateBanned /\ committed noEffects = [].
Proof.
  apply (InsertHeaderChain_error_atomic (banned hashH3) noFault false 8
           stateBanned [H1; H2; H3] (abortWith ErrBlacklistedHash)
           stateBanned noEffects).
  - vm_compute. reflexivity.
  - discriminate.
Defined.

Lemma InsertHeaderChain_keeps_records_witness :
  is_Some (ReadHeader state1 hashG 0).
Proof.
  apply (proj1 (InsertHeaderChain_keeps_records noBadHashes noFault false 8
                  genesisDB [H1; H2]
                  (mkResult true false 0 None) state1
                  (effectsOf (InsertHeaderChain noBadHashes noFault false 8
                                genesisDB [H1; H2]))
                  ltac:(vm_compute; reflexivity))).
  exists G. reflexivity.
Defined.

Lemma InsertHeaderChain_off_chain_frame_witness :
  CurrentHeader state2 = CurrentHeader state1.
Proof.
  apply (InsertHeaderChain_off_chain_frame noBadHashes noFault false 8
           state1 [H1'_3] (mkResult false false 0 None) state2
           (effectsOf (InsertHeaderChain noBadHashes noFault false 8
                         state1 [H1'_3]))).
  - vm_compute. reflexivity.
  - reflexivity.
Defined.

Lemma InsertHeaderChain_new_head_witness :
  CurrentHeader state1 = Some (Some H2)
  /\ db_td state1 !! (2, hashH2) = Some 5.
Proof.
  destruct (InsertHeaderChain_new_head noBadHashes noFault false 8
              genesisDB [H1; H2] (mkResult true false 0 None) state1
              (effectsOf (InsertHeaderChain noBadHashes noFault false 8
                            genesisDB [H1; H2]))
              0 H1 [H2] 1
              ltac:(vm_compute; reflexivity) ltac:(reflexivity)
              ltac:(vm_compute; reflexivity) ltac:(reflexivity)
              ltac:(vm_compute; reflexivity))
    as (_ & _ & Hcur & Htd).
  split; [exact Hcur|exact Htd].
Defined.

Lemma InsertHeaderChain_head_td_monotone_witness :
  exists headNumber' td',
    ReadHeaderNumber state3 (ReadHeadHeaderHash state3) = Some headNumber'
    /\ db_td state3 !! (headNumber', ReadHeadHeaderHash state3) = Some td'
    /\ 5 <= td'.
Proof.
  apply (InsertHeaderChain_head_td_monotone noBadHashes noFault false 8
           state1 [H1'_4] (mkResult true true 0 None) state3
           (effectsOf (InsertHeaderChain noBadHashes noFault false 8
                         state1 [H1'_4]))
           2 5); vm_compute; reflexivity.
Defined.

Lemma InsertHeaderChain_fork_choice_witness :
  newCanonical (mkResult true true 0 None) = true <->
  1 + sumDifficulty [H1'_4] > 5
  \/ (1 + sumDifficulty [H1'_4] = 5
      /\ (NumberU64 (List.last [H1'_4] H1'_4) < 2
          \/ (NumberU64 (List.last [H1'_4] H1'_4) = 2 /\ false = true))).
Proof.
  apply (InsertHeaderChain_fork_choice noBadHashes noFault false 8
           state1 [H1'_4] 0 H1'_4 [] 1 2 5 (mkResult true true 0 None) state3
           (effectsOf (InsertHeaderChain noBadHashes noFault false 8
                         state1 [H1'_4])));
    vm_compute; reflexivity.
Defined.

Lemma InsertHeaderChain_banned_canonical_witness :
  InsertHeaderChain (banned hashH3) noFault false 8 stateBanned ([H1; H2] ++ H3 :: [])
  = Returns (abortWith ErrBlacklistedHash) stateBanned noEffects.
Proof.
  apply (InsertHeaderChain_banned_canonical (banned hashH3) noFault false 8
           stateBanned [H1; H2] H3 []).
  - intros h Hin. repeat (apply elem_of_cons in Hin as [->|Hin]);
      [split; vm_compute; reflexivity ..|]. inversion Hin.
  - intros h Hin. repeat (apply elem_of_cons in Hin as [->|Hin]);
      [vm_compute; reflexivity ..|]. inversion Hin.
  - reflexivity.
Defined.

Lemma InsertHeaderChain_reorg_clears_pointers_witness :
  db_canonical state3 !! 2 = None.
Proof.
  apply (InsertHeaderChain_reorg_clears_pointers noBadHashes noFault false 8
           state1 [H1'_4] (mkResult true true 0 None) state3
           (effectsOf (InsertHeaderChain noBadHashes noFault false 8
                         state1 [H1'_4]))
           0 2 G);
    try (vm_compute; reflexivity).
  vm_compute. split; [reflexivity|discriminate].
Defined.

Lemma InsertHeaderChain_batch_canonical_witness :
  db_canonical state1 !! NumberU64 H2 = Some (HashCache H2)
  /\ (noFault (IoReadCanonicalHash (NumberU64 H2)) = false ->
      GetHeaderByNumber noFault state1 (NumberU64 H2) = Some H2).
Proof.
  refine (InsertHeaderChain_batch_canonical noBadHashes noFault false 8
            genesisDB [H1; H2] (mkResult true false 0 None) state1
            (effectsOf (InsertHeaderChain noBadHashes noFault false 8
                          genesisDB [H1; H2]))
            0 H1 [H2] _ _ _ _ _ _ _ 1%nat H2 _).
  - vm_compute. reflexivity.
  - reflexivity.
  - vm_compute. reflexivity.
  - reflexivity.
  - vm_compute. reflexivity.
  - intros [|[|i]] [|[|j]] hi hj Hi Hj Hlt; simpl in Hi, Hj; simplify_eq; try lia;
      vm_compute; reflexivity.
  - vm_compute. reflexivity.
  - reflexivity.
Defined.

Lemma VerifyHeaders_seals_only_last_witness :
  VerifyHeaders_seals 3 5 = Some (replicate 2 false ++ [true]).
Proof. apply (VerifyHeaders_seals_only_last 2 5). right. vm_compute. reflexivity. Defined.

Lemma verifyHeaders_success_witness :
  exists consumed,
    [VerifyResult hashH1 None; VerifyResult hashH1 None;
     HeaderRequested (mkHeaderRequest 7 hashH2 2 1);
     VerifyResult hashH2 None; VerifyResult hashH3 None]
    = consumed ++ [VerifyResult hashH3 None]
    /\ Forall (fun ev => ~ reportsError ev) consumed
    /\ size (resultHashes consumed) = length [H1; H2]
    /\ map resp_ID [mkHeaderResponse 7 [H2] (mkBlockError zeroHash 0 None)]
       = requestIDs consumed.
Proof.
  apply (verifyHeaders_success state1 8 [H1; H2] [true; true]).
  - discriminate.
  - vm_compute. reflexivity.
Defined.

Lemma verifyHeaders_error_witness :
  exists consumed hash,
    [VerifyResult hashH1 None; VerifyResult hashH2 (Some 3); VerifyResult hashH2 None]
    = consumed ++ VerifyResult hash (Some 3) :: [VerifyResult hashH2 None]
    /\ Forall (fun ev => ~ reportsError ev) consumed
    /\ map resp_ID [] = requestIDs consumed.
Proof.
  apply (verifyHeaders_error state1 8 [H1; H2] [true; true]).
  vm_compute. reflexivity.
Defined.

Lemma verifyHeaders_counts_distinct_witness :
  exists responses,
    verifyHeaders 8 state1 [H1; H2] [true; true]
      [VerifyResult hashH1 None; HeaderRequested (mkHeaderRequest 7 hashH2 2 1);
       VerifyResult hashH1 None]
    = VerifyWaits responses.
Proof.
  apply (verifyHeaders_counts_distinct state1 8 [H1; H2] [true; true]).
  - discriminate.
  - repeat constructor; simpl; tauto.
  - constructor; [exact I|]. constructor; [|repeat constructor].
    eexists. vm_compute. reflexivity.
  - vm_compute. lia.
Defined.

Lemma NotifyNewHeaders_delivers_witness :
  exists delivered,
    (forall (j : nat) h,
       delivered !! j = Some h ->
       ReadHeaderByNumber noFault state1 (1 + Z.of_nat j) = Some h)
    /\ ((Z.of_nat (length delivered) = Z.max 0 (3 - 1 + 1)
         /\ NotifyNewHeaders 8 noFault state1 1 3 true
            = NotifyReturns None delivered)
        \/ (exists n,
              1 <= n <= 3
              /\ ReadHeaderByNumber noFault state1 n = None
              /\ Z.of_nat (length delivered) = n - 1
              /\ NotifyNewHeaders 8 noFault state1 1 3 true
                 = NotifyReturns (Some n) delivered)).
Proof.
  apply (NotifyNewHeaders_delivers noFault state1 8 1 3); vm_compute;
    (reflexivity || discriminate).
Defined.

Lemma NotifyNewHeaders_never_done_at_max_witness :
  NotifyNewHeaders 8 noFault state1 0 (two64 - 1) true <> NotifyReturns None [G; H1; H2].
Proof.
  apply (NotifyNewHeaders_never_done_at_max noFault state1 8 0 [G; H1; H2]).
  vm_compute. split; [discriminate|reflexivity].
Defined.


Lemma InsertHeaderChain_shallow_fork_block_witness :
  forkBlockNumber (mkResult true false 0 None) = u64 (NumberU64 H1 - 1)
  /\ reorg (mkResult true false 0 None) = (u64 (NumberU64 H1 - 1) <? 0).
Proof.
  refine (InsertHeaderChain_shallow_fork_block noBadHashes noFault false 8
            genesisDB [H1; H2] (mkResult true false 0 None) state1
            (effectsOf (InsertHeaderChain noBadHashes noFault false 8
                          genesisDB [H1; H2]))
            0 H1 [H2] 0 _ _ _ _ _ _ _ _).
  - vm_compute. reflexivity.
  - reflexivity.
  - vm_compute. reflexivity.
  - reflexivity.
  - vm_compute. reflexivity.
  - intros [|[|i]] [|[|j]] hi hj Hi Hj Hne; simpl in Hi, Hj; simplify_eq;
      try congruence; vm_compute; discriminate.
  - intros h Hin. apply elem_of_cons in Hin as [->|Hin]; [|inversion Hin].
    vm_compute. discriminate.
  - vm_compute. reflexivity.
Defined.

Lemma deepForkFix_sideChain_witness :
  exists batch',
    deepForkFix noFault 8 (NewBatch stateSide) A3 = WalkDone 0 batch'
    /\ (forall h, h ∈ A2 :: [A1] ->
          db_canonical (b_view batch') !! NumberU64 h = Some (HashCache h))
    /\ (forall n, n <= 0 \/ NumberU64 A2 < n ->
          db_canonical (b_view batch') !! n
          = db_canonical (b_view (NewBatch stateSide)) !! n).
Proof.
  apply (deepForkFix_sideChain noFault 8 (NewBatch stateSide) A3 A2 [A1] hashG 0);
    try (vm_compute; reflexivity).
  - vm_compute. discriminate.
  - apply (sideChain_step noFault _ hashA1 (NumberU64 A2 - 1) hashH1 A1 [] hashG 0);
      try (vm_compute; reflexivity); try (vm_compute; discriminate).
    apply sideChain_joined. vm_compute. reflexivity.
  - simpl. lia.
Defined.

Lemma InsertHeaderChain_completes_witness :
  exists r db' eff,
    InsertHeaderChain noBadHashes noFault false 8 genesisDB [H1; H2]
    = Returns r db' eff
    /\ err r = None.
Proof.
  apply (InsertHeaderChain_completes noBadHashes false 8 genesisDB [H1; H2]
           0 H1 [H2] G 1 0 1);
    try (vm_compute; reflexivity).
  intros [|[|i]] a b Ha Hb; simpl in Ha, Hb; simplify_eq. reflexivity.
Defined.

Lemma listIter_gives (l : list Z) : gives listIter l l.
Proof.
  induction l as [|x l IH].
  - eapply gives_end. reflexivity.
  - eapply gives_next; [reflexivity|assumption].
Qed.

Lemma multiIter_larger_merges_witness :
  exists m zs,
    newMultiIterator listIter listIter [9; 5; 2] [7; 5; 0] = inr m
    /\ gives (multiIter listIter listIter false) m zs
    /\ descending zs
    /\ forall z, z ∈ zs <-> z ∈ [9; 5; 2] \/ z ∈ [7; 5; 0].
Proof.
  apply (multiIter_larger_merges listIter listIter
           [9; 5; 2] [7; 5; 0] [9; 5; 2] [7; 5; 0]).
  - apply listIter_gives.
  - apply listIter_gives.
  - simpl. repeat constructor; lia.
  - simpl. repeat constructor; lia.
  - repeat constructor; lia.
Defined.

Lemma multiIter_smaller_merges_witness :
  exists m zs,
    newMultiIterator listIter listIter [2; 5; 9] [0; 5; 7] = inr m
    /\ gives (multiIter listIter listIter true) m zs
    /\ ascending zs
    /\ forall z, z ∈ zs <-> z ∈ [2; 5; 9] \/ z ∈ [0; 5; 7].
Proof.
  apply (multiIter_smaller_merges listIter listIter
           [2; 5; 9] [0; 5; 7] [2; 5; 9] [0; 5; 7]).
  - apply listIter_gives.
  - apply listIter_gives.
  - simpl. repeat constructor; lia.
  - simpl. repeat constructor; lia.
  - repeat constructor; lia.
  - intros y Hy. exists 9. split; [set_solver|].
    repeat (apply elem_of_cons in Hy as [->|Hy]; [lia|]).
    apply elem_of_nil in Hy. contradiction.
Defined.

Lemma multiIter_smaller_stalls_witness :
  exists m,
    newMultiIterator listIter listIter [2; 5] [3; 7] = inr m
    /\ forall n,
         Forall (fun r => exists b, r = (b, false, None) /\ b < 7)
                (multiRun (multiIter listIter listIter true) n m).1.
Proof.
  apply (multiIter_smaller_stalls listIter listIter [2; 5] [3; 7] [2; 5] [3; 7] 7).
  - apply listIter_gives.
  - apply listIter_gives.
  - repeat constructor; lia.
  - set_solver.
  - lia.
  - repeat constructor; lia.
Defined.

Lemma InsertHeaderChain_numbers_only_head_witness :
  ReadHeader state1 hashH1 1 = Some H1
  /\ ReadHeaderNumber state1 hashH1 = ReadHeaderNumber genesisDB hashH1
  /\ (ReadHeaderNumber genesisDB hashH1 = None ->
      GetHeaderByHash state1 hashH1 = None).
Proof.
  split; [vm_compute; reflexivity|].
  refine (InsertHeaderChain_numbers_only_head noBadHashes noFault false 8
            genesisDB [H1; H2] (mkResult true false 0 None) state1
            (effectsOf (InsertHeaderChain noBadHashes noFault false 8
                          genesisDB [H1; H2]))
            hashH1 _ _).
  - vm_compute. reflexivity.
  - vm_compute. discriminate.
Defined.
